(** * Strand-state classification pipeline (main.cpp): a shallow embedding

    The development follows [main] chapter by chapter: option checks, header
    pre-scan, binning and counting, per-cell medians, the optional reports,
    bad-bin filter, good-bin chromosome index, per-sample estimation of the
    dispersion parameter [p], HMM set-up and per-cell re-parameterisation, and
    the final count table, with the exit code and what is written to
    [std::cerr].  Progress notes on [std::cout] are left out.

    Numbers.  [unsigned] values are [N] with the wrap-around at [2^32]
    written out where the source adds them.  [float] and [double] values are
    modelled by [fl]: rationals extended with the two infinities and NaN.
    Every arithmetic operation computes the exact result by the IEEE-754
    rules for the special values (x/0, inf-inf, comparisons with NaN) and
    then rounds it to the format of the operation, binary32 for [float] and
    binary64 for [double].  The rounding is a parameter ([Rounding]); the
    machine's is [ieee], to nearest with ties to even.  The sign of zero is
    not modelled. *)

From stdpp Require Import numbers list strings gmap sorting pretty.
From Stdlib Require Import Ascii QArith Qcanon Qround Qpower Lqa.

Local Open Scope Qc_scope.

(** ** Floating-point values *)

Inductive fl : Type :=
  | Fin (q : Qc)
  | Inf (neg : bool)
  | NaN.

Global Instance fl_eq_dec : EqDecision fl.
Proof. solve_decision. Defined.

Definition is_finite (a : fl) : bool :=
  match a with Fin _ => true | _ => false end.

Definition Qc_neg (q : Qc) : bool := bool_decide (q < 0).

Definition fopp (a : fl) : fl :=
  match a with
  | Fin x => Fin (- x)
  | Inf s => Inf (negb s)
  | NaN => NaN
  end.

(** Comparisons are false as soon as one side is NaN. *)
Definition flt (a b : fl) : bool :=
  match a, b with
  | Fin x, Fin y => bool_decide (x < y)
  | NaN, _ | _, NaN => false
  | Inf s, Inf t => s && negb t
  | Inf s, Fin _ => s
  | Fin _, Inf t => negb t
  end.

Definition fle (a b : fl) : bool :=
  match a, b with
  | Fin x, Fin y => bool_decide (x ≤ y)
  | NaN, _ | _, NaN => false
  | Inf s, Inf t => s || negb t
  | Inf s, Fin _ => s
  | Fin _, Inf t => negb t
  end.

Definition fgt (a b : fl) : bool := flt b a.

(** The exact result of an operation, before it is rounded. *)
Definition exact_add (a b : fl) : fl :=
  match a, b with
  | Fin x, Fin y => Fin (x + y)
  | NaN, _ | _, NaN => NaN
  | Inf s, Inf t => if bool_decide (s = t) then Inf s else NaN
  | Inf s, Fin _ | Fin _, Inf s => Inf s
  end.

Definition exact_mul (a b : fl) : fl :=
  match a, b with
  | Fin x, Fin y => Fin (x * y)
  | NaN, _ | _, NaN => NaN
  | Inf s, Inf t => Inf (xorb s t)
  | Inf s, Fin y | Fin y, Inf s =>
      if bool_decide (y = 0) then NaN else Inf (xorb s (Qc_neg y))
  end.

(** [x / 0] is an infinity for [x <> 0] and NaN for [x = 0]. *)
Definition exact_div (a b : fl) : fl :=
  match a, b with
  | Fin x, Fin y =>
      if bool_decide (y = 0)
      then (if bool_decide (x = 0) then NaN else Inf (Qc_neg x))
      else Fin (x / y)
  | NaN, _ | _, NaN => NaN
  | Inf _, Inf _ => NaN
  | Inf s, Fin y => Inf (xorb s (Qc_neg y))
  | Fin _, Inf _ => Fin 0
  end.

(** Two classes of values met when counts are divided by a median: the
    values that are not negative (NaN included), and among them those that
    are no number at all, plus infinity and NaN. *)
Definition nonneg_or_nan (a : fl) : Prop :=
  match a with
  | Fin q => 0 ≤ q
  | Inf s => s = false
  | NaN => True
  end.

Definition inf_or_nan (a : fl) : Prop := a = Inf false ∨ a = NaN.

Definition Qc_of_N (n : N) : Qc := Qc_of_Z (Z.of_N n).
Definition Qc_of_nat (n : nat) : Qc := Qc_of_Z (Z.of_nat n).

Definition fzero : fl := Fin 0.
Definition fone : fl := Fin 1.
(** The literal [0.5], a power of two. *)
Definition f0_5 : fl := Fin (Qc_of_Z 1 / Qc_of_Z 2).

(** Conversion of a non-negative floating value to [unsigned]: the
    fractional part is discarded. *)
Definition trunc_unsigned (q : Qc) : N := Z.to_N (Qfloor q).

(** ** Rounding to a binary format *)

Inductive format : Type := binary32 | binary64.

(** Number of significant bits, exponent of the smallest subnormal, and
    exponent of the first power of two that overflows. *)
Definition prec (fmt : format) : Z :=
  match fmt with binary32 => 24 | binary64 => 53 end.
Definition emin (fmt : format) : Z :=
  match fmt with binary32 => -149 | binary64 => -1074 end.
Definition emax (fmt : format) : Z :=
  match fmt with binary32 => 128 | binary64 => 1024 end.

Definition pow2 (e : Z) : Q := Qpower 2 e.

(** The exponent [e] with [2^e <= a < 2^(e+1)], for [a > 0]. *)
Definition ilog2 (a : Q) : Z :=
  let e0 := (Z.log2 (Qnum a) - Z.log2 (Z.pos (Qden a)))%Z in
  if Qle_bool (pow2 e0) a then e0 else (e0 - 1)%Z.

(** The nearest integer, ties to the even one. *)
Definition round_half_even (x : Q) : Z :=
  let f := Qfloor x in
  match Qcompare (x - inject_Z f) (1 # 2) with
  | Lt => f
  | Gt => (f + 1)%Z
  | Eq => if Z.even f then f else (f + 1)%Z
  end.

(** The exponent of the last significant bit of the values around [a]. *)
Definition quantum (fmt : format) (a : Q) : Z :=
  Z.max (ilog2 a - prec fmt + 1) (emin fmt).

Definition grid_round (k : Z) (a : Q) : Q :=
  (inject_Z (round_half_even (a / pow2 k)) * pow2 k)%Q.

Definition round_value (fmt : format) (a : Q) : Q :=
  grid_round (quantum fmt a) a.

(** Round to nearest, ties to even, for a positive rational; a result of at
    least [2^emax] overflows to plus infinity. *)
Definition round_pos (fmt : format) (q : Qc) : fl :=
  let r := round_value fmt q in
  if Qle_bool (pow2 (emax fmt)) r then Inf false else Fin (Q2Qc r).

Definition ieee_round (fmt : format) (q : Qc) : fl :=
  if bool_decide (q = 0) then Fin 0
  else if bool_decide (0 < q) then round_pos fmt q
  else fopp (round_pos fmt (- q)).

(** A rounding assigns to every rational the value stored for it in each
    format.  It does not decrease when its argument grows, leaves the small
    integers scaled by a power of two alone, and leaves its own results
    alone. *)
Class Rounding := {
  round : format → Qc → fl;
  round_monotone (fmt : format) (q1 q2 : Qc) :
    q1 ≤ q2 → fle (round fmt q1) (round fmt q2) = true;
  round_representable (fmt : format) (z : Z) (e : nat) :
    (Z.abs z ≤ 2 ^ 24)%Z → (e ≤ 100)%nat →
    round fmt (Qc_of_Z (z * 2 ^ Z.of_nat e))
    = Fin (Qc_of_Z (z * 2 ^ Z.of_nat e));
  round_idempotent (fmt : format) (q q' : Qc) :
    round fmt q = Fin q' → round fmt q' = Fin q'
}.

(** ** Machine arithmetic *)

Section arithmetic.
Context `{Rounding}.

(** A value as it is stored in a format. *)
Definition rnd (fmt : format) (a : fl) : fl :=
  match a with
  | Fin q => round fmt q
  | _ => a
  end.

(** Operations on [float]. *)
Definition fadd (a b : fl) : fl := rnd binary32 (exact_add a b).
Definition fsub (a b : fl) : fl := fadd a (fopp b).
Definition fmul (a b : fl) : fl := rnd binary32 (exact_mul a b).
Definition fdiv (a b : fl) : fl := rnd binary32 (exact_div a b).

(** Operations on [double]. *)
Definition dadd (a b : fl) : fl := rnd binary64 (exact_add a b).
Definition dsub (a b : fl) : fl := dadd a (fopp b).
Definition dmul (a b : fl) : fl := rnd binary64 (exact_mul a b).
Definition ddiv (a b : fl) : fl := rnd binary64 (exact_div a b).

(** [(float) u] for an unsigned [u], and [(float) v.size()]. *)
Definition fl_of_N (n : N) : fl := round binary32 (Qc_of_N n).
Definition fl_of_nat (n : nat) : fl := round binary32 (Qc_of_nat n).
(** [(double) u], and an integer literal in a [double] expression. *)
Definition dbl_of_N (n : N) : fl := round binary64 (Qc_of_N n).

(** The [double] literals [0.01] and [0.3333]. *)
Definition f0_01 : fl := round binary64 (Qc_of_Z 1 / Qc_of_Z 100).
Definition f0_3333 : fl := round binary64 (Qc_of_Z 3333 / Qc_of_Z 10000).

(** Sum of a sequence of [float], folded from the left starting at zero. *)
Definition fsum (xs : list fl) : fl := foldl fadd fzero xs.

(** Modelled from the spec: [TMeanVarAccumulator] is declared in counts.hpp,
    which is not among the sources.  The spec asks for the population mean and
    variance of the values fed to the accumulator: the mean is the sum over
    the count, the variance the mean of the squares minus the squared mean.
    The accumulator of [main] holds [float]. *)
Definition acc_mean (xs : list fl) : fl :=
  fdiv (fsum xs) (fl_of_nat (length xs)).

Definition acc_variance (xs : list fl) : fl :=
  fsub (acc_mean (fmap (λ x, fmul x x) xs)) (fmul (acc_mean xs) (acc_mean xs)).

End arithmetic.

(** ** Unsigned arithmetic *)

Definition UINT_MOD : N := 2 ^ 32.

(** [a + b] on two [unsigned int]. *)
Definition uadd (a b : N) : N := ((a + b) mod UINT_MOD)%N.

(** ** Data model *)

(** [Interval] (intervals.hpp): the fields [main] reads. *)
Record Interval := mkInterval {
  chr : Z;
  start : N;
  end_ : N
}.

(** [Counter] (counts.hpp): strand counts and the state label that
    [get_label] prints. *)
Record Counter := mkCounter {
  watson_count : N;
  crick_count : N;
  label : string
}.

Abbreviation TGenomeCounts := (list Counter).

(** [CellInfo] (counts.hpp).  [median_bin_count] is an unsigned integer:
    every use in [main] casts it ([(float)], [(double)]) before dividing, and
    [median_by_sample] stores the same quantity in a [std::vector<unsigned>]. *)
Record CellInfo := mkCellInfo {
  id : nat;
  sample_name : string;
  median_bin_count : N;
  n_mapped : N;
  n_supplementary : N;
  n_pcr_dups : N;
  n_low_mapq : N;
  n_read2s : N;
  n_counted : N
}.

Definition set_median_bin_count (m : N) (c : CellInfo) : CellInfo :=
  {| id := id c; sample_name := sample_name c; median_bin_count := m;
     n_mapped := n_mapped c; n_supplementary := n_supplementary c;
     n_pcr_dups := n_pcr_dups c; n_low_mapq := n_low_mapq c;
     n_read2s := n_read2s c; n_counted := n_counted c |}.

(** A default-constructed [CellInfo], as in [std::vector<CellInfo> cells(n)]. *)
Definition CellInfo0 : CellInfo := mkCellInfo 0 "" 0 0 0 0 0 0 0.

Record SampleInfo := mkSampleInfo {
  means : list fl;
  vars : list fl;
  p : fl
}.

(** [SampleInfo()]. *)
Definition SampleInfo0 : SampleInfo := mkSampleInfo [] [] fzero.

(** [Conf] as the option parser fills it, together with what [vm] knows
    about each option: an option that was not given is [None]
    ([vm.count(...)] is 0; for the window, [vm["window"].defaulted()] holds),
    [help] is [vm.count("help")], and [vm.count("input-file")] is 0 exactly
    when [f_in] is empty.  [minMapQual] and [f_out] carry their defaults. *)
Record Conf := mkConf {
  f_in : list string;
  f_out : string;
  f_bins : option string;
  f_excl : option string;
  f_info : option string;
  f_sample_info : option string;
  f_removed_bins : option string;
  minMapQual : Z;
  window : option N;
  help : bool
}.

(** [conf.window], 1000000 unless given. *)
Definition window_size (conf : Conf) : N := default 1000000%N (window conf).

(** ** Medians *)

(** Modelled from the spec: [TMedianAccumulator] is declared in counts.hpp,
    which is not among the sources.  The spec asks for the standard median of
    the finite multiset, averaging the two middle values for even-sized
    inputs.  The median of no value at all is taken to be 0. *)
Definition sorted_totals (xs : list N) : list N := merge_sort N.le xs.

Definition median (xs : list N) : Qc :=
  let s := sorted_totals xs in
  let n := length s in
  if Nat.even n
  then (Qc_of_N (nth (n / 2 - 1) s 0%N) + Qc_of_N (nth (n / 2) s 0%N)) / 2
  else Qc_of_N (nth (n / 2) s 0%N).

(** The values one cell feeds to the median accumulator:
    [count_bin.watson_count + count_bin.crick_count] for every bin. *)
Definition bin_totals (cnt : TGenomeCounts) : list N :=
  fmap (λ c, uadd (watson_count c) (crick_count c)) cnt.

(** The accumulator's result stored in an [unsigned]. *)
Definition cell_median (cnt : TGenomeCounts) : N :=
  trunc_unsigned (median (bin_totals cnt)).

(** [median_by_sample] (lines 53-63). *)
Definition median_by_sample (counts : list TGenomeCounts) : list N :=
  fmap cell_median counts.

(** The loop of lines 217-222: [cells[i].median_bin_count] is assigned for
    every [i < counts.size()]. *)
Definition assign_median (counts : list TGenomeCounts)
    (cells : list CellInfo) (i : nat) : list CellInfo :=
  match cells !! i, counts !! i with
  | Some c, Some cnt => <[i := set_median_bin_count (cell_median cnt) c]> cells
  | _, _ => cells
  end.

Definition assign_medians (counts : list TGenomeCounts)
    (cells : list CellInfo) : list CellInfo :=
  foldl (assign_median counts) cells (seq 0 (length counts)).

(** ** Collaborators outside main.cpp *)

(** [hmm::NegativeBinomial(p, n)] and [hmm::MultiVariate<...>({...})]
    (distribution.hpp): the constructor arguments as [main] passes them. *)
Record NegativeBinomial := mkNB {
  nb_p : fl;
  nb_n : fl
}.

Abbreviation MultiVariate := (list NegativeBinomial).

(** [hmm::HMM] is declared in hmm.hpp, which is not among the sources.  The
    record holds what [main] hands to the constructor and to each of the
    three setters, as of the last call; what the class makes of these
    arguments is not part of the model. *)
Record HMM := mkHMM {
  states : list string;
  initials : list fl;
  transitions : list fl;
  emissions : list MultiVariate
}.

Definition new_HMM (labels : list string) : HMM := mkHMM labels [] [] [].
Definition set_initials (ini : list fl) (h : HMM) : HMM :=
  mkHMM (states h) ini (transitions h) (emissions h).
Definition set_transitions (tr : list fl) (h : HMM) : HMM :=
  mkHMM (states h) (initials h) tr (emissions h).
Definition set_emissions (em : list MultiVariate) (h : HMM) : HMM :=
  mkHMM (states h) (initials h) (transitions h) em.

(** What [main] writes to [std::cerr]: [Warning m] is the line "[Warning] m",
    [Error m] the line "[Error] m", and [Message m] the line m itself.
    [EstimationError] is the entry of the spec's error taxonomy for a fitted
    [p] outside (0,1); no line of [main] produces it. *)
Inductive diagnostic : Type :=
  | Warning (msg : string)
  | Error (msg : string)
  | Message (msg : string)
  | EstimationError (sample : string).

Global Instance diagnostic_eq_dec : EqDecision diagnostic.
Proof. solve_decision. Defined.

(** The functions [main] calls and whose code lives elsewhere: htslib, the
    C++ library, boost::filesystem, intervals.hpp, counts.hpp and hmm.hpp. *)
Class External := {
  (** [sam_open(file, "r") != NULL]. *)
  sam_open : string → bool;
  (** [sam_hdr_read] and [get_SM_tag] on an opened file: the sample name, or
      [None] when the header carries no single SM tag. *)
  get_SM_tag : string → option string;
  (** [hdr->n_targets] and [hdr->target_name], of the header that is kept. *)
  n_targets : nat;
  target_name : Z → string;
  (** [read_dynamic_bins(bins, chrom_map, file, hdr)]: the bins, or [None]
      when it returns false. *)
  read_dynamic_bins : string → option (list Interval);
  (** [read_exclude_file(file, hdr, exclude)]. *)
  read_exclude_file : string → list Interval;
  (** [sort(exclude.begin(), exclude.end(), interval_comp)]. *)
  sort_intervals : list Interval → list Interval;
  (** [create_fixed_bins(bins, chrom_map, window, exclude, hdr)]. *)
  create_fixed_bins : N → list Interval → list Interval;
  (** [count_sorted_reads(file, bins, chrom_map, hdr, minMapQual, counts[i],
      cells[i])]: success flag and the two objects it updates in place. *)
  count_sorted_reads :
    string → list Interval → list Z → Z → TGenomeCounts → CellInfo →
    bool * TGenomeCounts * CellInfo;
  (** [std::sqrt]. *)
  fsqrt : fl → fl;
  (** [run_HMM(hmm, counts[i], good_bins, good_map)]: both the model and the
      cell's counters are passed by reference. *)
  run_HMM : HMM → TGenomeCounts → list nat → list Z → HMM * TGenomeCounts;
  (** [boost::filesystem::path::stem]. *)
  stem : string → string;
  (** [std::ofstream out(file); out.is_open()]. *)
  is_open : string → bool;
  (** [out << x] for a [float] x. *)
  show_float : fl → string
}.

Global Instance Counter_inhabited : Inhabited Counter :=
  populate (mkCounter 0 0 "").
Global Instance Interval_inhabited : Inhabited Interval :=
  populate (mkInterval 0 0 0).
Global Instance CellInfo_inhabited : Inhabited CellInfo := populate CellInfo0.
Global Instance fl_inhabited : Inhabited fl := populate fzero.
Global Instance ascii_inhabited : Inhabited ascii := populate "000"%char.

(** ** 32-bit signed values *)

(** The cast [(int32_t) v.size()]. *)
Definition to_int32 (z : Z) : Z := ((z + 2 ^ 31) `mod` 2 ^ 32 - 2 ^ 31)%Z.

(** A chromosome index is monotone when the entry of every chromosome is at
    most the entry that follows it. *)
Definition monotone (l : list Z) : Prop :=
  ∀ c a b, l !! c = Some a → l !! S c = Some b → (a ≤ b)%Z.

(** ** Chapter: binning and counting *)

Section pipeline.
Context `{External} `{Rounding}.

(** Lines 105-114: the option checks that end in [print_usage_and_exit]. *)
Definition window_and_bins (conf : Conf) : bool :=
  bool_decide (is_Some (window conf)) && bool_decide (is_Some (f_bins conf)).
Definition bins_and_exclude (conf : Conf) : bool :=
  bool_decide (is_Some (f_bins conf)) && bool_decide (is_Some (f_excl conf)).
Definition help_or_no_input (conf : Conf) : bool :=
  help conf || bool_decide (f_in conf = []).

Definition usage_error (conf : Conf) : bool :=
  window_and_bins conf || bins_and_exclude conf || help_or_no_input conf.

(** Lines 156-170: every cell gets its position in [conf.f_in] as [id] and
    the sample name of its header; a failure ends the run with exit code 1. *)
Definition explore_header (i : nat) (file : string) : option CellInfo :=
  if sam_open file
  then sm ← get_SM_tag file; Some (mkCellInfo i sm 0 0 0 0 0 0 0)
  else None.

Definition explore_headers (f_in : list string) : option (list CellInfo) :=
  mapM (λ '(i, file), explore_header i file) (zip (seq 0 (length f_in)) f_in).

(** What is written to [std::cerr] when the pre-scan fails: the message for
    the first file that fails.  Line 161 names [conf.f_in[0]], whichever file
    could not be opened. *)
Definition header_ok (file : string) : bool :=
  sam_open file && bool_decide (is_Some (get_SM_tag file)).

Definition header_message (f_in : list string) (file : string) : diagnostic :=
  if sam_open file
  then Error "Each BAM file has to have exactly one SM tag."
  else Error ("Fail to open file " +:+ f_in !!! 0%nat).

Definition header_failure (f_in : list string) : list diagnostic :=
  match list_find (λ file, header_ok file = false) f_in with
  | Some (_, file) => [header_message f_in file]
  | None => []
  end.

(** Lines 324-332, for a selection [sel] of bin indices ([good_bins]): the
    inner [while] advances [pos] past the selected bins of earlier
    chromosomes.  [fuel] bounds the number of iterations. *)
Definition chr_at (bins : list Interval) (sel : list nat) (pos : nat) : Z :=
  chr (bins !!! (sel !!! pos)).

Fixpoint advance (fuel : nat) (bins : list Interval) (sel : list nat)
    (c : Z) (pos : nat) : nat :=
  match fuel with
  | O => pos
  | S fuel' =>
      if bool_decide (pos < length sel)%nat && bool_decide (chr_at bins sel pos < c)%Z
      then advance fuel' bins sel c (S pos)
      else pos
  end.

Definition index_step (bins : list Interval) (sel : list nat)
    (st : list Z * nat) (c : nat) : list Z * nat :=
  let pos := advance (length sel) bins sel (Z.of_nat c) (snd st) in
  let entry :=
    if bool_decide (length sel ≤ pos)%nat
    then to_int32 (Z.of_nat (length sel))
    else Z.of_nat pos in
  (<[c := entry]> (fst st), pos).

Definition fill_chrom_index (targets : nat) (bins : list Interval)
    (sel : list nat) : list Z :=
  fst (foldl (index_step bins sel) (replicate targets (-1)%Z, O) (seq 0 targets)).

(** Lines 323-334: the chromosome index of the good bins, with its last
    element. *)
Definition build_good_map (targets : nat) (bins : list Interval)
    (good_bins : list nat) : list Z :=
  fill_chrom_index targets bins good_bins
    ++ [to_int32 (Z.of_nat (length good_bins))].

(** Modelled from the spec: [create_fixed_bins] and [read_dynamic_bins] live
    in intervals.hpp, which is not among the sources.  The spec has the
    good-bin index "built the same way as the raw chromosome index, over the
    filtered set", so the raw index is the same construction over all bins. *)
Definition raw_chrom_index (targets : nat) (bins : list Interval) : list Z :=
  fill_chrom_index targets bins (seq 0 (length bins)).

(** Line 198: [chrom_map.push_back((int32_t)bins.size())]. *)
Definition build_chrom_map (targets : nat) (bins : list Interval) : list Z :=
  raw_chrom_index targets bins ++ [to_int32 (Z.of_nat (length bins))].

(** Lines 174-196: the bins of the run, read from the bin file or cut into
    fixed windows that avoid the sorted exclusion list; [None] when
    [read_dynamic_bins] fails. *)
Definition binning (conf : Conf) : option (list Interval) :=
  match f_bins conf with
  | Some file => read_dynamic_bins file
  | None =>
      let exclude :=
        match f_excl conf with
        | Some file => sort_intervals (read_exclude_file file)
        | None => []
        end in
      Some (create_fixed_bins (window_size conf) exclude)
  end.

(** Lines 205-214.  [i] indexes [counts] and [cells], the file list is walked
    by [i_f]; on failure the two entries at [i] are erased and [i] stays
    ([--i] followed by the loop's [++i]). *)
Record CountState := mkCountState {
  cs_i : nat;
  cs_counts : list TGenomeCounts;
  cs_cells : list CellInfo;
  cs_log : list diagnostic
}.

Definition count_step (bins : list Interval) (chrom_map : list Z)
    (minMapQual : Z) (st : CountState) (file : string) : CountState :=
  let i := cs_i st in
  let '(ok, cnt, cell) :=
    count_sorted_reads file bins chrom_map minMapQual
      (cs_counts st !!! i) (cs_cells st !!! i) in
  if ok
  then mkCountState (S i) (<[i := cnt]> (cs_counts st))
         (<[i := cell]> (cs_cells st)) (cs_log st)
  else mkCountState i (delete i (cs_counts st)) (delete i (cs_cells st))
         (cs_log st ++ [Warning ("Ignoring cell " +:+ file)]).

Definition count_all (bins : list Interval) (chrom_map : list Z)
    (minMapQual : Z) (f_in : list string) (cells : list CellInfo) : CountState :=
  foldl (count_step bins chrom_map minMapQual)
    (mkCountState 0 (replicate (length f_in) []) cells [])
    f_in.

(** What counting yields for each input file when it is handed an empty
    counter vector and the cell of the header pre-scan, and whether it
    succeeded. *)
Definition attempts (bins : list Interval) (chrom_map : list Z)
    (minMapQual : Z) (f_in : list string) (cells : list CellInfo)
    : list (string * (bool * TGenomeCounts * CellInfo)) :=
  (λ fc, (fst fc,
          count_sorted_reads (fst fc) bins chrom_map minMapQual [] (snd fc)))
    <$> zip f_in cells.

Definition succeeded (a : string * (bool * TGenomeCounts * CellInfo)) : bool :=
  fst (fst (snd a)).
Definition attempt_counts (a : string * (bool * TGenomeCounts * CellInfo))
    : TGenomeCounts := snd (fst (snd a)).
Definition attempt_cell (a : string * (bool * TGenomeCounts * CellInfo))
    : CellInfo := snd (snd a).
Definition attempt_warning (a : string * (bool * TGenomeCounts * CellInfo))
    : diagnostic := Warning ("Ignoring cell " +:+ fst a).

(** ** Chapter: remove bad bins and estimate the parameter [p] *)

(** Lines 268-272: both strand counts over [(float) median_bin_count]. *)
Definition norm_count (m : N) (c : Counter) : fl * fl :=
  (fdiv (fl_of_N (watson_count c)) (fl_of_N m),
   fdiv (fl_of_N (crick_count c)) (fl_of_N m)).

Definition norm_counts (nbins : nat) (counts : list TGenomeCounts)
    (cells : list CellInfo) : list (list (fl * fl)) :=
  imap (λ i cnt,
          fmap (λ bin, norm_count (median_bin_count (cells !!! i)) (cnt !!! bin))
              (seq 0 nbins))
       counts.

(** Lines 275-283: what the accumulator of one bin is fed, and its mean and
    variance. *)
Definition bin_values (norm : list (list (fl * fl))) (bin : nat) : list fl :=
  fmap (λ row, fadd (fst (row !!! bin)) (snd (row !!! bin))) norm.

Definition bin_means (nbins : nat) (norm : list (list (fl * fl))) : list fl :=
  fmap (λ bin, acc_mean (bin_values norm bin)) (seq 0 nbins).

Definition bin_variances (nbins : nat) (norm : list (list (fl * fl))) : list fl :=
  fmap (λ bin, acc_variance (bin_values norm bin)) (seq 0 nbins).

(** Lines 286-291. *)
Definition my_mean (bmeans : list fl) : fl := acc_mean bmeans.
Definition my_sd (bmeans : list fl) : fl := fsqrt (acc_variance bmeans).

(** Lines 294-298: the test of line 295 and the tag of line 298. *)
Definition high_threshold (mu sd : fl) : fl := fadd mu (fmul (fl_of_N 3) sd).

Definition is_good (mu sd m : fl) : bool :=
  fgt m f0_01 && flt m (high_threshold mu sd).

Definition bad_tag (m : fl) : ascii :=
  if fle m f0_01 then "l"%char else "h"%char.

Definition classify_step (mu sd : fl) (bmeans : list fl)
    (st : list nat * list ascii) (bin : nat) : list nat * list ascii :=
  let m := bmeans !!! bin in
  if is_good mu sd m
  then (fst st ++ [bin], snd st)
  else (fst st, snd st ++ [bad_tag m]).

Definition classify_bins (nbins : nat) (bmeans : list fl)
    : list nat * list ascii :=
  foldl (classify_step (my_mean bmeans) (my_sd bmeans) bmeans) ([], [])
        (seq 0 nbins).

(** The filter as a whole: [good_bins] and [bad_bins] from the counts. *)
Definition filter_bins (nbins : nat) (counts : list TGenomeCounts)
    (cells : list CellInfo) : list nat * list ascii :=
  classify_bins nbins (bin_means nbins (norm_counts nbins counts cells)).

(** Lines 338-351: mean and variance of one cell over the good bins, pushed
    onto the entry of the cell's sample ([emplace] creates it when absent). *)
Definition good_totals (good_bins : list nat) (cnt : TGenomeCounts) : list fl :=
  fmap (λ g, fl_of_N (uadd (crick_count (cnt !!! g)) (watson_count (cnt !!! g))))
      good_bins.

Definition cell_mean (good_bins : list nat) (cnt : TGenomeCounts) : fl :=
  acc_mean (good_totals good_bins cnt).

Definition cell_var (good_bins : list nat) (cnt : TGenomeCounts) : fl :=
  acc_variance (good_totals good_bins cnt).

Definition push_stats (m v : fl) (s : SampleInfo) : SampleInfo :=
  mkSampleInfo (means s ++ [m]) (vars s ++ [v]) (p s).

Definition add_cell (good_bins : list nat) (counts : list TGenomeCounts)
    (cells : list CellInfo) (samples : gmap string SampleInfo) (i : nat)
    : gmap string SampleInfo :=
  let cnt := counts !!! i in
  let name := sample_name (cells !!! i) in
  let s := default SampleInfo0 (samples !! name) in
  <[name := push_stats (cell_mean good_bins cnt) (cell_var good_bins cnt) s]>
    samples.

Definition collect_samples (good_bins : list nat)
    (counts : list TGenomeCounts) (cells : list CellInfo)
    : gmap string SampleInfo :=
  foldl (add_cell good_bins counts cells) ∅ (seq 0 (length counts)).

(** The positions, among the first [n] cells, of the cells of one sample. *)
Definition members (cells : list CellInfo) (n : nat) (name : string)
    : list nat :=
  filter (λ i, sample_name (cells !!! i) = name) (seq 0 n).

(** [std::inner_product(a.begin(), a.end(), b.begin(), init)]. *)
Definition inner_product (xs ys : list fl) (init : fl) : fl :=
  foldl (λ acc xy, fadd acc (fmul (fst xy) (snd xy))) init (zip xs ys).

(** Lines 354-358. *)
Definition fit_p (s : SampleInfo) : SampleInfo :=
  mkSampleInfo (means s) (vars s)
    (fdiv (inner_product (means s) (means s) fzero)
          (inner_product (means s) (vars s) fzero)).

Definition estimate_samples (good_bins : list nat)
    (counts : list TGenomeCounts) (cells : list CellInfo)
    : gmap string SampleInfo :=
  fit_p <$> collect_samples good_bins counts cells.


(** ** Chapter: run the HMM *)

(** Lines 388-395.  [p_trans] is the quotient of two [float], stored in a
    [double]; the diagonal is computed on [double]. *)
Definition p_trans (nbins : nat) : fl := fdiv (fl_of_N 10) (fl_of_nat nbins).

Definition stay (pt : fl) : fl := dsub fone (dmul (dbl_of_N 2) pt).

Definition configure_hmm (nbins : nat) : HMM :=
  let pt := p_trans nbins in
  set_transitions
    [stay pt; pt; pt;
     pt; stay pt; pt;
     pt; pt; stay pt]
    (set_initials [f0_3333; f0_3333; f0_3333]
       (new_HMM ["CC"; "WC"; "WW"])).

(** [samples[name]]: the entry of the sample, a default-constructed one when
    the key is missing. *)
Definition sample_at (samples : gmap string SampleInfo) (name : string)
    : SampleInfo :=
  default SampleInfo0 (samples !! name).

(** Lines 401-411, on [double]. *)
Definition nb_size (med : N) (pp : fl) : fl :=
  ddiv (dmul (ddiv (dbl_of_N med) (dbl_of_N 2)) pp) (dsub fone pp).

Definition cell_emissions (samples : gmap string SampleInfo) (cell : CellInfo)
    : list MultiVariate :=
  let pp := p (sample_at samples (sample_name cell)) in
  let n := nb_size (median_bin_count cell) pp in
  let z := f0_5 in
  [ [mkNB pp (dmul (dbl_of_N 2) n); mkNB pp z];
    [mkNB pp n; mkNB pp n];
    [mkNB pp z; mkNB pp (dmul (dbl_of_N 2) n)] ].

(** Lines 398-413.  The state of the loop: the model, the counters of all
    cells, and the models handed to [run_HMM] so far, oldest first. *)
Record DecodeState := mkDecodeState {
  ds_hmm : HMM;
  ds_counts : list TGenomeCounts;
  ds_calls : list HMM
}.

Definition decode_step (samples : gmap string SampleInfo)
    (cells : list CellInfo) (good_bins : list nat) (good_map : list Z)
    (st : DecodeState) (i : nat) : DecodeState :=
  let h := set_emissions (cell_emissions samples (cells !!! i)) (ds_hmm st) in
  let '(h', cnt) := run_HMM h (ds_counts st !!! i) good_bins good_map in
  mkDecodeState h' (<[i := cnt]> (ds_counts st)) (ds_calls st ++ [h]).

Definition decode_all (samples : gmap string SampleInfo)
    (cells : list CellInfo) (good_bins : list nat) (good_map : list Z)
    (h : HMM) (counts : list TGenomeCounts) : DecodeState :=
  foldl (decode_step samples cells good_bins good_map)
        (mkDecodeState h counts []) (seq 0 (length counts)).

(** ** The count table *)

Definition tab : string := String (ascii_of_nat 9) "".

Definition tsv (fields : list string) : string :=
  match fields with
  | [] => ""
  | f :: rest => foldl (λ acc g, acc +:+ tab +:+ g) f rest
  end.

(** Line 421. *)
Definition table_header : list string :=
  ["chrom"; "start"; "end"; "sample"; "cell"; "c"; "w"; "class"].

(** Lines 424-432: the row of cell [i] and bin [bin]. *)
Definition table_row (f_in : list string) (bins : list Interval)
    (cells : list CellInfo) (i bin : nat) (cc : Counter) : list string :=
  [ target_name (chr (bins !!! bin));
    pretty (start (bins !!! bin));
    pretty (end_ (bins !!! bin));
    sample_name (cells !!! i);
    stem (f_in !!! i);
    pretty (crick_count cc);
    pretty (watson_count cc);
    label cc ].

Definition cell_rows (f_in : list string) (bins : list Interval)
    (cells : list CellInfo) (i : nat) (cnt : TGenomeCounts)
    : list (list string) :=
  imap (table_row f_in bins cells i) cnt.

(** Lines 421-434: header, then the rows of every cell in turn. *)
Definition count_table (f_in : list string) (bins : list Interval)
    (cells : list CellInfo) (counts : list TGenomeCounts)
    : list (list string) :=
  table_header :: mjoin (imap (cell_rows f_in bins cells) counts).

Definition write_table (rows : list (list string)) : list string :=
  fmap tsv rows.

(** ** Reports *)

(** Line 241: the comparator handed to [sort], by sample name, then by
    [id]. *)
Definition cell_before (a b : CellInfo) : bool :=
  if String.eqb (sample_name a) (sample_name b)
  then (id a <? id b)%nat
  else String.ltb (sample_name a) (sample_name b).

(** [sort(cells2.begin(), cells2.end(), comp)] as a merge sort on "b does not
    come before a".  The two agree whenever no two cells are equivalent for
    the comparator, that is, share both sample name and [id]. *)
Definition cell_le (a b : CellInfo) : Prop := cell_before b a = false.

Global Instance cell_le_dec : RelDecision cell_le.
Proof. intros a b. unfold cell_le. apply _. Defined.

Definition sort_cells (cells : list CellInfo) : list CellInfo :=
  merge_sort cell_le cells.

(** Lines 244-252: one row of the cell summary. *)
Definition summary_row (f_in : list string) (cell : CellInfo) : list string :=
  [ sample_name cell;
    stem (f_in !!! id cell);
    pretty (median_bin_count cell);
    pretty (n_mapped cell);
    pretty (n_supplementary cell);
    pretty (n_pcr_dups cell);
    pretty (n_low_mapq cell);
    pretty (n_read2s cell);
    pretty (n_counted cell) ].

(** Line 237. *)
Definition summary_header : list string :=
  ["sample"; "cell"; "medbin"; "mapped"; "suppl"; "dupl"; "mapq"; "read2";
   "good"].

(** Lines 237-253: header, then the rows of the sorted copy of [cells]. *)
Definition cell_summary (f_in : list string) (cells : list CellInfo)
    : list (list string) :=
  summary_header :: (summary_row f_in <$> sort_cells cells).

(** Lines 307-316.  [goodit] and [badit] are positions in [good_bins] and
    [bad_bins]; a row is written for every bin that is not the next good
    bin. *)
Record RemovedState := mkRemovedState {
  rs_goodit : nat;
  rs_badit : nat;
  rs_out : list (list string)
}.

Definition removed_row (bins : list Interval) (bin : nat) (tag : ascii)
    : list string :=
  [ target_name (chr (bins !!! bin));
    pretty (start (bins !!! bin));
    pretty (end_ (bins !!! bin));
    String tag "" ].

Definition removed_step (bins : list Interval) (good_bins : list nat)
    (bad_bins : list ascii) (st : RemovedState) (bin : nat) : RemovedState :=
  if bool_decide (rs_goodit st = length good_bins)
     || bool_decide (bin < good_bins !!! rs_goodit st)%nat
  then mkRemovedState (rs_goodit st) (S (rs_badit st))
         (rs_out st ++ [removed_row bins bin (bad_bins !!! rs_badit st)])
  else mkRemovedState
         (if bool_decide (rs_goodit st ≠ length good_bins)
          then S (rs_goodit st) else rs_goodit st)
         (rs_badit st) (rs_out st).

Definition removed_loop (bins : list Interval) (good_bins : list nat)
    (bad_bins : list ascii) : RemovedState :=
  foldl (removed_step bins good_bins bad_bins) (mkRemovedState 0 0 [])
        (seq 0 (length bins)).

(** The rows written, and whether [assert(badit == bad_bins.end())] of line
    316 holds. *)
Definition removed_bins_report (bins : list Interval) (good_bins : list nat)
    (bad_bins : list ascii) : list (list string) * bool :=
  let st := removed_loop bins good_bins bad_bins in
  (rs_out st, bool_decide (rs_badit st = length bad_bins)).

(** Lines 230-236: the comment lines at the head of the cell summary. *)
Definition info_comments : list (list string) :=
  [ ["# medbin:  Median total count (w+c) per bin"];
    ["# mapped:  Total number of reads seen"];
    ["# suppl:   Supplementary, secondary or QC-failed reads (filtered out)"];
    ["# dupl:    Reads filtered out as PCR duplicates"];
    ["# mapq:    Reads filtered out due to low mapping quality"];
    ["# read2:   Reads filtered out as 2nd read of pair"];
    ["# good:    Reads used for counting."] ].

(** Lines 365-373: the sample report.  The rows come in the order of the
    hash table, which the model takes from [map_to_list]. *)
Definition join_comma (xs : list string) : string :=
  match xs with
  | [] => ""
  | x :: rest => foldl (λ acc y, acc +:+ "," +:+ y) x rest
  end.

Definition sample_row (name : string) (s : SampleInfo) : list string :=
  [ name;
    pretty (length (means s));
    show_float (p s);
    join_comma (show_float <$> means s);
    join_comma (show_float <$> vars s) ].

Definition sample_report (samples : gmap string SampleInfo)
    : list (list string) :=
  ["sample"; "cells"; "p"; "means"; "vars"]
  :: ((λ ns, sample_row (fst ns) (snd ns)) <$> map_to_list samples).

(** An optional report: nothing when the option is absent, the rows when the
    file opens, a message on [std::cerr] when it does not. *)
Definition report (path : option string) (rows : list (list string))
    : list (string * list (list string)) * list diagnostic :=
  match path with
  | None => ([], [])
  | Some file =>
      if is_open file
      then ([(file, rows)], [])
      else ([], [Message ("Cannot write to " +:+ file)])
  end.

(** ** The run as a whole *)

Record Run := mkRun {
  r_bins : list Interval;
  r_chrom_map : list Z;
  r_cells : list CellInfo;
  r_counted : list TGenomeCounts;
  r_counts : list TGenomeCounts;
  r_good_bins : list nat;
  r_bad_bins : list ascii;
  r_good_map : list Z;
  r_samples : gmap string SampleInfo;
  r_hmm : HMM;
  r_calls : list HMM;
  r_log : list diagnostic;
  r_table : list (list string)
}.

(** Lines 198-434 without the writing of files: counting, medians, filter,
    estimation and decoding, for the input files, the cells of the header
    pre-scan, the bins and the mapping-quality threshold.  In the result,
    [r_counted] holds the counters as counting left them, [r_counts] the
    counters after decoding, [r_log] the warnings of the counting loop and
    [r_table] the rows of the count table. *)
Definition chapters (f_in : list string) (cells0 : list CellInfo)
    (bins : list Interval) (minMapQual : Z) : Run :=
  let chrom_map := build_chrom_map n_targets bins in
  let cs := count_all bins chrom_map minMapQual f_in cells0 in
  let cells := assign_medians (cs_counts cs) (cs_cells cs) in
  let '(good_bins, bad_bins) := filter_bins (length bins) (cs_counts cs) cells in
  let good_map := build_good_map n_targets bins good_bins in
  let samples := estimate_samples good_bins (cs_counts cs) cells in
  let h := configure_hmm (length bins) in
  let ds := decode_all samples cells good_bins good_map h (cs_counts cs) in
  mkRun bins chrom_map cells (cs_counts cs) (ds_counts ds) good_bins bad_bins
    good_map samples h (ds_calls ds) (cs_log cs)
    (count_table f_in bins cells (ds_counts ds)).

(** What a call of [main] leaves behind: the exit code, the lines written to
    [std::cerr], the files written with their rows, each in the order of the
    writes, and the data of the run when [main] got as far as counting. *)
Record Result := mkResult {
  exit_code : Z;
  stderr : list diagnostic;
  written : list (string * list (list string));
  run : option Run
}.

(** The three optional reports (lines 226-257, 303-320 and 361-377) and the
    count table (lines 418-439) of a run. *)
Definition reports (conf : Conf) (r : Run)
    : list (string * list (list string)) * list diagnostic :=
  let info :=
    report (f_info conf)
      (info_comments ++ cell_summary (f_in conf) (r_cells r)) in
  let removed :=
    report (f_removed_bins conf)
      (fst (removed_bins_report (r_bins r) (r_good_bins r) (r_bad_bins r))) in
  let samples := report (f_sample_info conf) (sample_report (r_samples r)) in
  let table :=
    if is_open (f_out conf)
    then ([(f_out conf, r_table r)], [])
    else ([], [Error ("Cannot open file: " +:+ f_out conf)]) in
  (fst info ++ fst removed ++ fst samples ++ fst table,
   snd info ++ snd removed ++ snd samples ++ snd table).

(** [main]. *)
Definition main (conf : Conf) : Result :=
  if window_and_bins conf then
    mkResult 1 [Message "Error: -w and -b cannot be specified together"] [] None
  else if bins_and_exclude conf then
    mkResult 1
      [Message "Error: Exclude chromosomes (-x) have no effect when -b is specified. Stop"]
      [] None
  else if help_or_no_input conf then mkResult 1 [] [] None
  else
    match explore_headers (f_in conf) with
    | None => mkResult 1 (header_failure (f_in conf)) [] None
    | Some cells0 =>
        match binning conf with
        | None => mkResult 1 [] [] None
        | Some bins =>
            let r := chapters (f_in conf) cells0 bins (minMapQual conf) in
            let out := reports conf r in
            mkResult (if is_open (f_out conf) then 0 else 2)
              (r_log r ++ snd out) (fst out) (Some r)
        end
    end.

End pipeline.

(** ** A small concrete setting

    Input files of two samples, one chromosome, twelve bins of fixed width or
    the first ten of them when read from the bin file ten.bed.  The file
    dir/b.bam cannot be read during counting; every header can be read, and
    every output file opens except those under /locked/.  The collaborators
    are simple stand-ins: [toy_sqrt] is the square root rounded down to a
    multiple of 1/den, [toy_run_HMM] labels every good bin "WC", [path_stem]
    is the file name without its directory and its last extension,
    [toy_show] prints a value as a fraction. *)

Definition toy_sqrt (a : fl) : fl :=
  match a with
  | Fin q =>
      if Qc_neg q then NaN
      else Fin (Qc_of_Z (Z.sqrt (Qnum q * Z.pos (Qden q))) / Qc_of_Z (Z.pos (Qden q)))
  | Inf false => Inf false
  | _ => NaN
  end.

Definition set_label (l : string) (c : Counter) : Counter :=
  mkCounter (watson_count c) (crick_count c) l.

Definition toy_run_HMM (h : HMM) (cnt : TGenomeCounts) (good_bins : list nat)
    (good_map : list Z) : HMM * TGenomeCounts :=
  (h, foldl (λ acc g, <[g := set_label "WC" (acc !!! g)]> acc) cnt good_bins).

Definition toy_counts (ws cs : list N) : TGenomeCounts :=
  zip_with (λ w c, mkCounter w c "") ws cs.

Definition toy_count_sorted_reads (file : string) (bins : list Interval)
    (chrom_map : list Z) (q : Z) (cnt : TGenomeCounts) (cell : CellInfo)
    : bool * TGenomeCounts * CellInfo :=
  let n := length bins in
  if bool_decide (file = "dir/a.bam") then
    (true,
     take n (toy_counts [5;6;5;6;5;6;5;6;5;6;0;90]%N [5;5;6;6;5;5;6;6;5;5;0;90]%N),
     cell)
  else if bool_decide (file = "dir/c.bam") then
    (true,
     take n (toy_counts [6;5;6;5;6;5;6;5;6;5;0;80]%N [5;5;6;6;5;5;6;6;5;5;0;95]%N),
     cell)
  else if bool_decide (file = "dir/d.bam") then
    (true,
     take n (toy_counts [5;6;5;6;5;6;5;6;5;6;5;6]%N [5;5;5;5;5;5;5;5;5;5;5;5]%N),
     cell)
  else if bool_decide (file = "dir/e.bam") then
    (true,
     take n (toy_counts [0;0;0;3;0;0;0;0;0;0;0;0]%N [0;0;0;1;0;0;0;2;0;0;0;0]%N),
     cell)
  else if bool_decide (file = "dir/f.bam") then
    (true,
     take n (toy_counts [200;1;200;250;300;200;250;200;150;200;250;200]%N
                        [300;4;300;250;200;300;250;300;350;300;250;300]%N),
     cell)
  else (false, cnt, cell).

Definition toy_SM_tag (file : string) : option string :=
  if bool_decide (file = "dir/d.bam") then Some "S2" else Some "S1".

Fixpoint last_segment (sep : ascii) (cur s : list ascii) : list ascii :=
  match s with
  | [] => cur
  | a :: s' =>
      if Ascii.eqb a sep then last_segment sep [] s'
      else last_segment sep (cur ++ [a]) s'
  end.

Fixpoint before_last (sep : ascii) (s : list ascii) : option (list ascii) :=
  match s with
  | [] => None
  | a :: s' =>
      match before_last sep s' with
      | Some r => Some (a :: r)
      | None => if Ascii.eqb a sep then Some [] else None
      end
  end.

Definition path_stem (file : string) : string :=
  let name := last_segment "/"%char [] (String.list_ascii_of_string file) in
  String.string_of_list_ascii (default name (before_last "."%char name)).

Definition toy_show (a : fl) : string :=
  match a with
  | Fin q =>
      if bool_decide (Qden q = 1%positive) then pretty (Qnum q)
      else pretty (Qnum q) +:+ "/" +:+ pretty (Z.pos (Qden q))
  | Inf false => "inf"
  | Inf true => "-inf"
  | NaN => "nan"
  end.

Definition toy_bins : list Interval :=
  fmap (λ k, mkInterval 0 (N.of_nat k * 100) (N.of_nat k * 100 + 100))
      (seq 0 12).

Definition toy_env : External := {|
  sam_open := λ _, true;
  get_SM_tag := toy_SM_tag;
  n_targets := 1;
  target_name := λ _, "chr1";
  read_dynamic_bins :=
    λ file, if bool_decide (file = "ten.bed") then Some (take 10 toy_bins)
            else None;
  read_exclude_file := λ _, [];
  sort_intervals := λ l, l;
  create_fixed_bins := λ _ _, toy_bins;
  count_sorted_reads := toy_count_sorted_reads;
  fsqrt := toy_sqrt;
  run_HMM := toy_run_HMM;
  stem := path_stem;
  is_open := λ file, negb (String.prefix "/locked/" file);
  show_float := toy_show
|}.

(** Fixed windows, no report, output to out.txt. *)
Definition toy_conf (files : list string) : Conf :=
  mkConf files "out.txt" None None None None None 10 None false.

(** A run in which the second of three files is dropped. *)
Definition toy_files : list string := ["dir/a.bam"; "dir/b.bam"; "dir/c.bam"].
Definition toy_run (R : Rounding) : Result := @main toy_env R (toy_conf toy_files).


(** A run with a cell, that of dir/e.bam, which has reads in two bins only,
    so that its median is zero. *)
Definition toy_conf_sparse : Conf := toy_conf ["dir/a.bam"; "dir/e.bam"].
Definition toy_run_sparse (R : Rounding) : Result :=
  @main toy_env R toy_conf_sparse.

(** A run in which the only input file cannot be read during counting. *)
Definition toy_conf_none : Conf := toy_conf ["dir/b.bam"].
Definition toy_run_none (R : Rounding) : Result := @main toy_env R toy_conf_none.

(** A run on the ten bins of ten.bed. *)
Definition toy_conf_ten : Conf :=
  mkConf ["dir/a.bam"] "out.txt" (Some "ten.bed") None None None None 10 None
    false.
Definition toy_run_ten (R : Rounding) : Result := @main toy_env R toy_conf_ten.

(** A run on one cell of median 500 with a bin of one Watson and four Crick
    reads. *)
Definition toy_conf_f : Conf := toy_conf ["dir/f.bam"].
Definition toy_run_f (R : Rounding) : Result := @main toy_env R toy_conf_f.

(** A run whose reports and count table cannot be written. *)
Definition toy_conf_locked : Conf :=
  mkConf ["dir/a.bam"] "/locked/out.txt" None None (Some "/locked/info.txt")
    (Some "/locked/samples.txt") (Some "/locked/removed.bed") 10 None false.
Definition toy_run_locked (R : Rounding) : Result :=
  @main toy_env R toy_conf_locked.

(** Three bins on two chromosomes. *)
Definition two_chrom_bins : list Interval :=
  [mkInterval 0 0 100; mkInterval 0 100 200; mkInterval 1 0 100].

(** * Properties *)

(** ** Rounding to nearest *)

Section rounding_facts.
Local Open Scope Q_scope.

Lemma two_nonzero : ~ (2 == 0)%Q.
Proof. discriminate. Qed.

Lemma pow2_pos (e : Z) : 0 < pow2 e.
Proof. by apply Qpower_0_lt. Qed.

Lemma pow2_nonzero (e : Z) : ~ pow2 e == 0.
Proof. intros E. pose proof (pow2_pos e) as H. rewrite E in H. by apply Qlt_irrefl in H. Qed.

Lemma pow2_add (a b : Z) : pow2 (a + b) == pow2 a * pow2 b.
Proof. apply Qpower_plus, two_nonzero. Qed.

Lemma pow2_le (a b : Z) : (a <= b)%Z -> pow2 a <= pow2 b.
Proof. intros H. by apply Qpower_le_compat_l. Qed.

Lemma pow2_lt (a b : Z) : (a < b)%Z -> pow2 a < pow2 b.
Proof. intros H. by apply Qpower_lt_compat_l. Qed.

Lemma pow2_lt_inv (a b : Z) : pow2 a < pow2 b -> (a < b)%Z.
Proof. intros H. by apply (Qpower_lt_compat_l_inv 2). Qed.

Lemma pow2_inject (e : Z) : (0 <= e)%Z -> pow2 e == inject_Z (2 ^ e).
Proof. intros H. symmetry. by apply Zpower_Qpower. Qed.

Lemma pow2_sub (a b : Z) : pow2 (a - b) == pow2 a / pow2 b.
Proof.
  unfold Z.sub. rewrite pow2_add. unfold pow2 at 2. rewrite Qpower_opp.
  reflexivity.
Qed.

(** [ilog2 a] is the exponent of the binade of [a]. *)
Lemma ilog2_spec (a : Q) :
  0 < a -> pow2 (ilog2 a) <= a /\ a < pow2 (ilog2 a + 1).
Proof.
  intros Ha. destruct a as [n d]. unfold ilog2. cbn [Qnum Qden].
  assert (Hn : (0 < n)%Z).
  { unfold Qlt in Ha. simpl in Ha. lia. }
  set (ln := Z.log2 n). set (ld := Z.log2 (Z.pos d)).
  assert (Hln : (2 ^ ln <= n < 2 ^ (ln + 1))%Z).
  { pose proof (Z.log2_spec n Hn) as H. unfold ln. 
    replace (Z.log2 n + 1)%Z with (Z.succ (Z.log2 n)) by lia. done. }
  assert (Hld : (2 ^ ld <= Z.pos d < 2 ^ (ld + 1))%Z).
  { pose proof (Z.log2_spec (Z.pos d) ltac:(lia)) as H. unfold ld.
    replace (Z.log2 (Z.pos d) + 1)%Z with (Z.succ (Z.log2 (Z.pos d))) by lia.
    done. }
  assert (Hln0 : (0 <= ln)%Z) by apply Z.log2_nonneg.
  assert (Hld0 : (0 <= ld)%Z) by apply Z.log2_nonneg.
  assert (Hd : 0 < inject_Z (Z.pos d)) by (unfold Qlt; simpl; lia).
  assert (Hnd : n # d == inject_Z n / inject_Z (Z.pos d)) by apply Qmake_Qdiv.
  (* bounds on n and d in Q *)
  assert (Hn1 : pow2 ln <= inject_Z n).
  { rewrite pow2_inject by done. rewrite <-Zle_Qle. lia. }
  assert (Hn2 : inject_Z n < pow2 (ln + 1)).
  { rewrite pow2_inject by lia. rewrite <-Zlt_Qlt. lia. }
  assert (Hd1 : pow2 ld <= inject_Z (Z.pos d)).
  { rewrite pow2_inject by done. rewrite <-Zle_Qle. lia. }
  assert (Hd2 : inject_Z (Z.pos d) < pow2 (ld + 1)).
  { rewrite pow2_inject by lia. rewrite <-Zlt_Qlt. lia. }
  (* a < 2^(ln-ld+1) *)
  assert (Hup : n # d < pow2 (ln - ld + 1)).
  { rewrite Hnd. apply Qlt_shift_div_r; [done|].
    apply Qlt_le_trans with (pow2 (ln + 1)); [done|].
    replace (ln + 1)%Z with ((ln - ld + 1) + ld)%Z by lia.
    rewrite pow2_add. apply Qmult_le_l; [apply pow2_pos|done]. }
  (* 2^(ln-ld-1) <= a *)
  assert (Hlow : pow2 (ln - ld - 1) <= n # d).
  { rewrite Hnd. apply Qle_shift_div_l; [done|].
    apply Qle_trans with (pow2 ln); [|done].
    replace ln with ((ln - ld - 1) + (ld + 1))%Z at 2 by lia.
    rewrite pow2_add. apply Qmult_le_l; [apply pow2_pos|].
    by apply Qlt_le_weak. }
  destruct (Qle_bool (pow2 (ln - ld)) (n # d)) eqn:E.
  - apply Qle_bool_iff in E. split; done.
  - assert (Hlt : n # d < pow2 (ln - ld)).
    { apply Qnot_le_lt. intros H. apply Qle_bool_iff in H. congruence. }
    split; [done|].
    by replace (ln - ld - 1 + 1)%Z with (ln - ld)%Z by lia.
Qed.

Lemma ilog2_unique (a : Q) (e : Z) :
  pow2 e <= a -> a < pow2 (e + 1) -> ilog2 a = e.
Proof.
  intros H1 H2.
  assert (Ha : 0 < a) by (eapply Qlt_le_trans; [apply pow2_pos|done]).
  destruct (ilog2_spec a Ha) as [H3 H4].
  assert (ilog2 a < e + 1)%Z.
  { apply pow2_lt_inv. eapply Qle_lt_trans; done. }
  assert (e < ilog2 a + 1)%Z.
  { apply pow2_lt_inv. eapply Qle_lt_trans; done. }
  lia.
Qed.

Lemma ilog2_mono (a b : Q) : 0 < a -> a <= b -> (ilog2 a <= ilog2 b)%Z.
Proof.
  intros Ha Hab.
  assert (Hb : 0 < b) by (eapply Qlt_le_trans; done).
  destruct (ilog2_spec a Ha) as [H1 _].
  destruct (ilog2_spec b Hb) as [_ H2].
  assert (ilog2 a < ilog2 b + 1)%Z; [|lia].
  apply pow2_lt_inv. eapply Qle_lt_trans; [done|].
  eapply Qle_lt_trans; done.
Qed.

Lemma ilog2_eq (a b : Q) : 0 < a -> a == b -> ilog2 a = ilog2 b.
Proof.
  intros Ha E.
  assert (Hb : 0 < b) by by rewrite <-E.
  destruct (ilog2_spec b Hb) as [H1 H2].
  apply ilog2_unique; by rewrite E.
Qed.

(** Rounding to the nearest integer, ties to even. *)
Global Instance round_half_even_proper : Proper (Qeq ==> eq) round_half_even.
Proof.
  intros x y E. unfold round_half_even.
  rewrite (Qfloor_comp _ _ E).
  assert (E' : x - inject_Z (Qfloor y) == y - inject_Z (Qfloor y))
    by by rewrite E.
  by rewrite (Qcompare_comp _ _ E' (1 # 2) (1 # 2)).
Qed.

Lemma round_half_even_Z (z : Z) : round_half_even (inject_Z z) = z.
Proof.
  unfold round_half_even. rewrite Qfloor_Z.
  assert (E : inject_Z z - inject_Z z == 0) by ring.
  rewrite (Qcompare_comp _ _ E (1 # 2) (1 # 2)); reflexivity.
Qed.

Lemma round_half_even_bounds (x : Q) :
  (Qfloor x <= round_half_even x <= Qfloor x + 1)%Z.
Proof.
  unfold round_half_even.
  destruct (x - inject_Z (Qfloor x) ?= 1 # 2); [destruct (Z.even _)| |]; lia.
Qed.

Lemma round_half_even_mono (x y : Q) :
  x <= y -> (round_half_even x <= round_half_even y)%Z.
Proof.
  intros Hxy.
  pose proof (Qfloor_resp_le _ _ Hxy) as Hf.
  pose proof (round_half_even_bounds x) as Bx.
  pose proof (round_half_even_bounds y) as By.
  destruct (decide (Qfloor x = Qfloor y)) as [E|NE]; [|lia].
  unfold round_half_even. rewrite <-E.
  assert (Hr : x - inject_Z (Qfloor x) <= y - inject_Z (Qfloor x)).
  { apply Qplus_le_l. done. }
  destruct (Qcompare_spec (x - inject_Z (Qfloor x)) (1 # 2)) as [Ex|Lx|Gx];
    destruct (Qcompare_spec (y - inject_Z (Qfloor x)) (1 # 2)) as [Ey|Ly|Gy];
    try destruct (Z.even (Qfloor x)); try lia; exfalso; lra.
Qed.

Lemma round_half_even_le (x : Q) (z : Z) :
  x <= inject_Z z -> (round_half_even x <= z)%Z.
Proof.
  intros H. rewrite <-(round_half_even_Z z). by apply round_half_even_mono.
Qed.

Lemma round_half_even_ge (x : Q) (z : Z) :
  inject_Z z <= x -> (z <= round_half_even x)%Z.
Proof.
  intros H. rewrite <-(round_half_even_Z z) at 1. by apply round_half_even_mono.
Qed.

(** Rounding on the grid of the multiples of [2^k]. *)
Global Instance grid_round_proper (k : Z) : Proper (Qeq ==> Qeq) (grid_round k).
Proof. intros a b E. unfold grid_round. by rewrite E. Qed.

Lemma grid_round_mono (k : Z) (a b : Q) :
  a <= b -> grid_round k a <= grid_round k b.
Proof.
  intros Hab. unfold grid_round.
  apply Qmult_le_compat_r; [|apply Qlt_le_weak, pow2_pos].
  rewrite <-Zle_Qle. apply round_half_even_mono.
  apply Qmult_le_compat_r; [done|].
  apply Qlt_le_weak, Qinv_lt_0_compat, pow2_pos.
Qed.

(** A multiple of [2^k'] is on every finer grid. *)
Lemma grid_round_fix (k k' : Z) (z : Z) :
  (k <= k')%Z -> grid_round k (inject_Z z * pow2 k') == inject_Z z * pow2 k'.
Proof.
  intros Hk. unfold grid_round.
  assert (E : inject_Z z * pow2 k' / pow2 k == inject_Z (z * 2 ^ (k' - k))).
  { rewrite inject_Z_mult, <-pow2_inject by lia. rewrite pow2_sub.
    unfold Qdiv. ring. }
  rewrite E, round_half_even_Z, inject_Z_mult, <-pow2_inject by lia.
  rewrite pow2_sub. field. apply pow2_nonzero.
Qed.

Lemma grid_round_nonneg (k : Z) (a : Q) : 0 <= a -> 0 <= grid_round k a.
Proof.
  intros Ha. 
  assert (E : 0 == inject_Z 0 * pow2 k) by ring.
  rewrite E at 1. rewrite <-(grid_round_fix k k 0) by lia.
  apply grid_round_mono. by rewrite <-E.
Qed.

Lemma prec_pos (fmt : format) : (1 <= prec fmt)%Z.
Proof. by destruct fmt. Qed.

(** The quantum grows with the magnitude. *)
Lemma quantum_mono (fmt : format) (a b : Q) :
  0 < a -> a <= b -> (quantum fmt a <= quantum fmt b)%Z.
Proof.
  intros Ha Hab. unfold quantum.
  pose proof (ilog2_mono a b Ha Hab). lia.
Qed.

Lemma quantum_eq (fmt : format) (a b : Q) :
  0 < a -> a == b -> quantum fmt a = quantum fmt b.
Proof. intros Ha E. unfold quantum. by rewrite (ilog2_eq a b). Qed.

Lemma round_value_eq (fmt : format) (a b : Q) :
  0 < a -> a == b -> round_value fmt a == round_value fmt b.
Proof.
  intros Ha E. unfold round_value.
  rewrite (quantum_eq fmt a b) by done. by rewrite E.
Qed.

Lemma round_value_nonneg (fmt : format) (a : Q) :
  0 <= a -> 0 <= round_value fmt a.
Proof. apply grid_round_nonneg. Qed.

Lemma round_value_mono (fmt : format) (a b : Q) :
  0 < a -> a <= b ->
  round_value fmt a <= round_value fmt b.
Proof.
  intros Ha Hab. pose proof (prec_pos fmt) as Hp. unfold round_value.
  assert (Hb : 0 < b) by lra.
  pose proof (quantum_mono fmt a b Ha Hab) as Hk.
  destruct (decide (quantum fmt a = quantum fmt b)) as [E|NE].
  { rewrite E. by apply grid_round_mono. }
  assert (Hlt : (quantum fmt a < quantum fmt b)%Z) by lia.
  destruct (ilog2_spec a Ha) as [_ Ha2].
  destruct (ilog2_spec b Hb) as [Hb1 _].
  unfold quantum in Hlt, Hk.
  assert (Hkb : quantum fmt b = (ilog2 b - prec fmt + 1)%Z)
    by (unfold quantum; lia).
  assert (Hea : (ilog2 a + 1 <= ilog2 b)%Z) by lia.
  set (g := inject_Z (2 ^ (prec fmt - 1)) * pow2 (quantum fmt b)).
  assert (Hg : g == pow2 (ilog2 b)).
  { unfold g. rewrite <-pow2_inject, <-pow2_add by lia. rewrite Hkb.
    by replace (prec fmt - 1 + (ilog2 b - prec fmt + 1))%Z with (ilog2 b)
      by lia. }
  assert (Hag : a <= g).
  { rewrite Hg. apply Qlt_le_weak. eapply Qlt_le_trans; [exact Ha2|].
    by apply pow2_le. }
  assert (Hgb : g <= b) by (by rewrite Hg).
  apply Qle_trans with (grid_round (quantum fmt a) g).
  { by apply grid_round_mono. }
  pose proof (grid_round_fix (quantum fmt a) (quantum fmt b)
                (2 ^ (prec fmt - 1)) ltac:(unfold quantum; lia)) as F1.
  pose proof (grid_round_fix (quantum fmt b) (quantum fmt b)
                (2 ^ (prec fmt - 1)) ltac:(lia)) as F2.
  fold g in F1, F2.
  pose proof (grid_round_mono (quantum fmt b) g b Hgb). lra.
Qed.

(** A value with at most [prec] significant bits, above the smallest
    exponent, is left alone. *)
Lemma round_value_fix (fmt : format) (z e : Z) :
  (0 < z <= 2 ^ prec fmt)%Z -> (emin fmt <= e)%Z ->
  round_value fmt (inject_Z z * pow2 e) == inject_Z z * pow2 e.
Proof.
  intros Hz He. pose proof (prec_pos fmt) as Hp. set (a := inject_Z z * pow2 e).
  assert (Hzq : 0 < inject_Z z) by (rewrite <-(Zlt_Qlt 0); lia).
  assert (Ha : 0 < a).
  { unfold a. apply Qmult_lt_0_compat; [done|apply pow2_pos]. }
  destruct (ilog2_spec a Ha) as [Ha1 Ha2].
  destruct (decide (z = 2 ^ prec fmt)%Z) as [->|Hne].
  - assert (Ea : a == pow2 (prec fmt + e)).
    { unfold a. rewrite pow2_add, <-(pow2_inject (prec fmt)) by lia. ring. }
    assert (Ea' : a == inject_Z 1 * pow2 (prec fmt + e)).
    { rewrite Ea. change (inject_Z 1) with 1. ring. }
    assert (Hl : ilog2 a = (prec fmt + e)%Z).
    { apply ilog2_unique.
      - rewrite Ea. lra.
      - rewrite Ea. apply pow2_lt. lia. }
    unfold round_value.
    etransitivity; [apply (grid_round_proper _ _ _ Ea')|].
    etransitivity; [apply grid_round_fix; unfold quantum; lia|].
    by symmetry.
  - assert (Hup : a < pow2 (prec fmt + e)).
    { unfold a. rewrite pow2_add, (pow2_inject (prec fmt)) by lia.
      apply Qmult_lt_compat_r; [apply pow2_pos|].
      rewrite <-Zlt_Qlt. lia. }
    assert (Hl : (ilog2 a < prec fmt + e)%Z).
    { apply pow2_lt_inv. lra. }
    unfold round_value. unfold a at 2 3.
    apply grid_round_fix. unfold quantum. lia.
Qed.

(** What rounding returns has at most [prec] significant bits. *)
Lemma round_value_shape (fmt : format) (a : Q) :
  0 < a ->
  exists m : Z,
    (0 <= m <= 2 ^ prec fmt)%Z
    /\ round_value fmt a == inject_Z m * pow2 (quantum fmt a).
Proof.
  intros Ha. pose proof (prec_pos fmt) as Hp. destruct (ilog2_spec a Ha) as [Ha1 Ha2].
  set (k := quantum fmt a).
  exists (round_half_even (a / pow2 k)). split; [|reflexivity].
  assert (Hinv : 0 < / pow2 k) by apply Qinv_lt_0_compat, pow2_pos.
  split.
  - apply round_half_even_ge. simpl.
    apply Qmult_le_0_compat; lra.
  - apply round_half_even_le.
    rewrite <-pow2_inject by lia.
    apply Qle_shift_div_r; [apply pow2_pos|].
    rewrite <-pow2_add.
    apply Qlt_le_weak. eapply Qlt_le_trans; [exact Ha2|].
    apply pow2_le. unfold k, quantum. lia.
Qed.

Lemma round_value_idempotent (fmt : format) (a : Q) :
  0 < a -> 0 < round_value fmt a ->
  round_value fmt (round_value fmt a) == round_value fmt a.
Proof.
  intros Ha Hr.
  destruct (round_value_shape fmt a Ha) as (m & Hm & E).
  assert (Hm0 : (0 < m)%Z).
  { destruct (decide (m = 0%Z)) as [->|]; [|lia].
    exfalso. rewrite E in Hr. change (inject_Z 0) with 0 in Hr. lra. }
  rewrite (round_value_eq fmt _ _ Hr E).
  rewrite E. apply round_value_fix; [lia|].
  unfold quantum. lia.
Qed.

End rounding_facts.

(** ** The IEEE rounding is a rounding *)

Lemma Q2Qc_eq (a b : Q) : (a == b)%Q → Q2Qc a = Q2Qc b.
Proof. intros E. by apply Q2Qc_eq_iff. Qed.

Lemma Q2Qc_this (q : Qc) : Q2Qc (this q) = q.
Proof. apply Qc_is_canon. simpl. apply Qred_correct. Qed.

Lemma fopp_involutive (a : fl) : fopp (fopp a) = a.
Proof.
  destruct a as [q|s|]; simpl; [|by rewrite negb_involutive|done].
  by rewrite Qcopp_involutive.
Qed.

Lemma fle_fopp (a b : fl) : fle a b = true → fle (fopp b) (fopp a) = true.
Proof.
  destruct a as [x|[]|], b as [y|[]|]; simpl; try done.
  rewrite !bool_decide_eq_true. apply Qcopp_le_compat.
Qed.

Lemma fle_through_zero (a b : fl) :
  fle a (Fin 0) = true → fle (Fin 0) b = true → fle a b = true.
Proof.
  destruct a as [x|[]|], b as [y|[]|]; simpl; try done.
  rewrite !bool_decide_eq_true. apply Qcle_trans.
Qed.

Lemma round_pos_cases (fmt : format) (q : Qc) :
  let r := round_value fmt q in
  ((pow2 (emax fmt) <= r)%Q ∧ round_pos fmt q = Inf false)
  ∨ ((r < pow2 (emax fmt))%Q ∧ round_pos fmt q = Fin (Q2Qc r)).
Proof.
  intros r. unfold round_pos. fold r.
  destruct (Qle_bool (pow2 (emax fmt)) r) eqn:E.
  - left. by apply Qle_bool_iff in E.
  - right. split; [|done]. apply Qnot_le_lt. intros H.
    apply Qle_bool_iff in H. congruence.
Qed.

Lemma round_pos_mono (fmt : format) (q1 q2 : Qc) :
  0 < q1 → q1 ≤ q2 → fle (round_pos fmt q1) (round_pos fmt q2) = true.
Proof.
  intros H1 H12.
  pose proof (round_value_mono fmt q1 q2 H1 H12) as Hr.
  destruct (round_pos_cases fmt q1) as [[O1 ->]|[F1 ->]];
    destruct (round_pos_cases fmt q2) as [[O2 ->]|[F2 ->]]; simpl; try done.
  - exfalso. lra.
  - apply bool_decide_eq_true. unfold Qcle. simpl.
    by rewrite !Qred_correct.
Qed.

Lemma round_pos_nonneg (fmt : format) (q : Qc) :
  0 < q → fle (Fin 0) (round_pos fmt q) = true.
Proof.
  intros Hq.
  pose proof (round_value_nonneg fmt q (Qlt_le_weak _ _ Hq)) as Hr.
  destruct (round_pos_cases fmt q) as [[_ ->]|[_ ->]]; simpl; [done|].
  apply bool_decide_eq_true. unfold Qcle. simpl.
  by rewrite !Qred_correct.
Qed.

Lemma Qclt_irrefl (q : Qc) : ¬ q < q.
Proof. apply Qlt_irrefl. Qed.

Lemma ieee_round_zero (fmt : format) : ieee_round fmt 0 = Fin 0.
Proof. done. Qed.

Lemma ieee_round_pos (fmt : format) (q : Qc) :
  0 < q → ieee_round fmt q = round_pos fmt q.
Proof.
  intros Hq. unfold ieee_round.
  rewrite bool_decide_eq_false_2, bool_decide_eq_true_2; [done..|].
  intros ->. by apply Qclt_irrefl in Hq.
Qed.

Lemma ieee_round_neg (fmt : format) (q : Qc) :
  q < 0 → ieee_round fmt q = fopp (round_pos fmt (- q)).
Proof.
  intros Hq. unfold ieee_round.
  rewrite !bool_decide_eq_false_2; [done| |].
  - intros H. apply (Qclt_irrefl 0). by eapply Qclt_trans.
  - intros ->. by apply Qclt_irrefl in Hq.
Qed.

Lemma Qc_trichotomy (q : Qc) : q < 0 ∨ q = 0 ∨ 0 < q.
Proof.
  destruct (Qclt_le_dec q 0) as [?|H]; [by left|right].
  apply Qcle_lt_or_eq in H as [?|?]; [by right|by left].
Qed.

Lemma Qcopp_pos (q : Qc) : q < 0 → 0 < - q.
Proof.
  intros H. apply Qclt_minus_iff in H.
  by rewrite Qcplus_0_l in H.
Qed.

Lemma Qcopp_neg (q : Qc) : 0 < q → - q < 0.
Proof.
  intros H. apply Qclt_minus_iff.
  by rewrite Qcplus_0_l, Qcopp_involutive.
Qed.

Lemma ieee_round_opp (fmt : format) (q : Qc) :
  ieee_round fmt (- q) = fopp (ieee_round fmt q).
Proof.
  destruct (Qc_trichotomy q) as [Hq|[->|Hq]].
  - rewrite (ieee_round_neg fmt q Hq), fopp_involutive.
    apply ieee_round_pos. by apply Qcopp_pos.
  - done.
  - rewrite (ieee_round_pos fmt q Hq).
    rewrite ieee_round_neg by by apply Qcopp_neg.
    by rewrite Qcopp_involutive.
Qed.

Lemma ieee_round_nonneg (fmt : format) (q : Qc) :
  0 ≤ q → fle (Fin 0) (ieee_round fmt q) = true.
Proof.
  intros [Hq|<-]%Qcle_lt_or_eq; [|done].
  rewrite ieee_round_pos by done. by apply round_pos_nonneg.
Qed.

Lemma ieee_round_nonpos (fmt : format) (q : Qc) :
  q ≤ 0 → fle (ieee_round fmt q) (Fin 0) = true.
Proof.
  intros Hq. rewrite <-(Qcopp_involutive q), ieee_round_opp.
  apply (fle_fopp (Fin 0)). apply ieee_round_nonneg.
  apply Qcopp_le_compat in Hq. done.
Qed.

Lemma ieee_round_monotone (fmt : format) (q1 q2 : Qc) :
  q1 ≤ q2 → fle (ieee_round fmt q1) (ieee_round fmt q2) = true.
Proof.
  intros H12.
  destruct (Qclt_le_dec 0 q1) as [H1|H1].
  - rewrite !ieee_round_pos;
      [by apply round_pos_mono|exact (Qclt_le_trans _ _ _ H1 H12)|done].
  - destruct (Qclt_le_dec q2 0) as [H2|H2].
    + assert (H1' : q1 < 0) by exact (Qcle_lt_trans _ _ _ H12 H2).
      rewrite <-(Qcopp_involutive q1), <-(Qcopp_involutive q2).
      rewrite !(ieee_round_opp fmt (- _)). apply fle_fopp.
      rewrite !ieee_round_pos by by apply Qcopp_pos.
      apply round_pos_mono; [by apply Qcopp_pos|].
      by apply Qcopp_le_compat.
    + apply fle_through_zero;
        [by apply ieee_round_nonpos|by apply ieee_round_nonneg].
Qed.

Lemma this_Qc_of_Z (n : Z) : this (Qc_of_Z n) = inject_Z n.
Proof. done. Qed.

Lemma Qc_of_Z_pos (n : Z) : 0 < Qc_of_Z n ↔ (0 < n)%Z.
Proof. unfold Qclt. rewrite this_Qc_of_Z. simpl. by rewrite (Zlt_Qlt 0 n). Qed.

Lemma Qc_of_Z_opp (n : Z) : - Qc_of_Z n = Qc_of_Z (- n).
Proof.
  apply Qc_is_canon. simpl. rewrite !Qred_correct.
  by rewrite inject_Z_opp.
Qed.

(** Positive values with at most [prec] significant bits that do not
    overflow are stored as they are. *)
Lemma round_pos_fix (fmt : format) (q : Qc) (z e : Z) :
  (0 < z ≤ 2 ^ prec fmt)%Z → (emin fmt ≤ e)%Z →
  (this q == inject_Z z * pow2 e)%Q →
  (this q < pow2 (emax fmt))%Q →
  round_pos fmt q = Fin q.
Proof.
  intros Hz He Eq Hlt.
  assert (Hq : (0 < this q)%Q).
  { rewrite Eq. apply Qmult_lt_0_compat; [|apply pow2_pos].
    rewrite <-(Zlt_Qlt 0). lia. }
  assert (Hr : (round_value fmt q == q)%Q).
  { rewrite (round_value_eq fmt _ _ Hq Eq), Eq.
    by apply round_value_fix. }
  destruct (round_pos_cases fmt q) as [[O _]|[_ ->]].
  - exfalso. lra.
  - f_equal. transitivity (Q2Qc (this q)); [by apply Q2Qc_eq|].
    apply Q2Qc_this.
Qed.

Lemma ieee_round_representable (fmt : format) (z : Z) (e : nat) :
  (Z.abs z ≤ 2 ^ 24)%Z → (e ≤ 100)%nat →
  ieee_round fmt (Qc_of_Z (z * 2 ^ Z.of_nat e))
  = Fin (Qc_of_Z (z * 2 ^ Z.of_nat e)).
Proof.
  intros Hz He.
  assert (Hpos : ∀ z', (0 < z' ≤ 2 ^ 24)%Z →
            round_pos fmt (Qc_of_Z (z' * 2 ^ Z.of_nat e))
            = Fin (Qc_of_Z (z' * 2 ^ Z.of_nat e))).
  { intros z' Hz'.
    assert (Hp : (2 ^ 24 ≤ 2 ^ prec fmt)%Z) by (by destruct fmt).
    apply (round_pos_fix fmt _ z' (Z.of_nat e)).
    - lia.
    - destruct fmt; simpl; lia.
    - rewrite this_Qc_of_Z, inject_Z_mult, pow2_inject by lia. reflexivity.
    - rewrite this_Qc_of_Z.
      apply Qle_lt_trans with (inject_Z (2 ^ 24 * 2 ^ 100)).
      + rewrite <-Zle_Qle. apply Z.mul_le_mono_nonneg; try lia.
        apply Z.pow_le_mono_r; lia.
      + apply Qlt_le_trans with (pow2 128); [by vm_compute|].
        apply pow2_le. destruct fmt; simpl; lia. }
  destruct (Z.lt_trichotomy z 0) as [Hn|[->|Hp]].
  - assert (E : Qc_of_Z (z * 2 ^ Z.of_nat e)
                = - Qc_of_Z (- z * 2 ^ Z.of_nat e)).
    { rewrite Qc_of_Z_opp. f_equal. lia. }
    rewrite E, ieee_round_opp, ieee_round_pos.
    + by rewrite Hpos by lia.
    + apply Qc_of_Z_pos. apply Z.mul_pos_pos; lia.
  - rewrite Z.mul_0_l.
    by replace (Qc_of_Z 0) with (Q2Qc 0) by (by apply Qc_is_canon).
  - rewrite ieee_round_pos; [apply Hpos; lia|].
    apply Qc_of_Z_pos. apply Z.mul_pos_pos; lia.
Qed.

Lemma round_pos_idempotent (fmt : format) (q q' : Qc) :
  0 < q → round_pos fmt q = Fin q' → ieee_round fmt q' = Fin q'.
Proof.
  intros Hq Hr.
  destruct (round_pos_cases fmt q) as [[_ O]|[F E]]; [congruence|].
  rewrite E in Hr. injection Hr as <-.
  set (r := round_value fmt q) in *.
  assert (Hr0 : (0 <= r)%Q) by (apply round_value_nonneg, Qlt_le_weak, Hq).
  destruct (Qle_lt_or_eq _ _ Hr0) as [Hpos|Hz].
  - assert (Hthis : (this (Q2Qc r) == r)%Q) by apply Qred_correct.
    assert (Hpos' : (0 < this (Q2Qc r))%Q) by by rewrite Hthis.
    rewrite ieee_round_pos by done.
    assert (Hrr : (round_value fmt (Q2Qc r) == r)%Q).
    { rewrite (round_value_eq fmt _ _ Hpos' Hthis).
      by apply round_value_idempotent. }
    destruct (round_pos_cases fmt (Q2Qc r)) as [[O _]|[_ ->]].
    + exfalso. lra.
    + f_equal. by apply Q2Qc_eq.
  - assert (Q2Qc r = 0) as ->; [|done].
    apply Qc_is_canon. simpl. rewrite !Qred_correct. by symmetry.
Qed.

Lemma ieee_round_idempotent (fmt : format) (q q' : Qc) :
  ieee_round fmt q = Fin q' → ieee_round fmt q' = Fin q'.
Proof.
  destruct (Qc_trichotomy q) as [Hq|[->|Hq]].
  - rewrite (ieee_round_neg fmt q Hq). intros Hr.
    assert (Hr' : round_pos fmt (- q) = Fin (- q')).
    { rewrite <-(fopp_involutive (round_pos _ _)), Hr. done. }
    apply round_pos_idempotent in Hr'; [|by apply Qcopp_pos].
    rewrite <-(Qcopp_involutive q'), ieee_round_opp, Hr'. done.
  - by intros [= <-].
  - rewrite (ieee_round_pos fmt q Hq). by apply round_pos_idempotent.
Qed.

(** The rounding of the machine: to nearest, ties to even. *)
Definition ieee : Rounding := {|
  round := ieee_round;
  round_monotone := ieee_round_monotone;
  round_representable := ieee_round_representable;
  round_idempotent := ieee_round_idempotent
|}.

(** Arithmetic without rounding error. *)
Lemma exact_monotone (fmt : format) (q1 q2 : Qc) :
  q1 ≤ q2 → fle (Fin q1) (Fin q2) = true.
Proof. intros H. by apply bool_decide_eq_true. Qed.

Definition exact_arithmetic : Rounding := {|
  round := λ _ q, Fin q;
  round_monotone := exact_monotone;
  round_representable := λ _ _ _ _ _, eq_refl;
  round_idempotent := λ _ _ _ _, eq_refl
|}.

(** ** Machine arithmetic: what every rounding guarantees *)

Lemma Qc_of_Z_zero : Qc_of_Z 0 = 0.
Proof. by apply Qc_is_canon. Qed.

Lemma Qc_of_Z_one : Qc_of_Z 1 = 1.
Proof. by apply Qc_is_canon. Qed.

Lemma Qc_of_Z_le (a b : Z) : Qc_of_Z a ≤ Qc_of_Z b ↔ (a ≤ b)%Z.
Proof. unfold Qcle. rewrite !this_Qc_of_Z. by rewrite <-Zle_Qle. Qed.

Lemma Qc_of_N_zero : Qc_of_N 0 = 0.
Proof. by apply Qc_is_canon. Qed.

Lemma Qc_of_Z_inj (a b : Z) : Qc_of_Z a = Qc_of_Z b → a = b.
Proof.
  intros E. apply (f_equal this) in E. simpl in E.
  by injection E.
Qed.

Lemma Qc_of_N_eq_zero (n : N) : Qc_of_N n = 0 ↔ n = 0%N.
Proof.
  split; [|intros ->; apply Qc_of_N_zero].
  intros E. rewrite <-Qc_of_N_zero in E.
  apply Qc_of_Z_inj in E. lia.
Qed.

Lemma Qc_of_N_nonneg (n : N) : 0 ≤ Qc_of_N n.
Proof.
  unfold Qc_of_N. rewrite <-Qc_of_Z_zero. apply Qc_of_Z_le. lia.
Qed.

Lemma Qc_of_nat_nonneg (n : nat) : 0 ≤ Qc_of_nat n.
Proof.
  unfold Qc_of_nat. rewrite <-Qc_of_Z_zero. apply Qc_of_Z_le. lia.
Qed.

Lemma Qc_neg_nonneg (q : Qc) : 0 ≤ q → Qc_neg q = false.
Proof.
  intros Hq. unfold Qc_neg. apply bool_decide_eq_false_2.
  by apply Qcle_not_lt.
Qed.

Lemma Qcdiv_nonneg (a b : Qc) : 0 ≤ a → 0 ≤ b → 0 ≤ a / b.
Proof.
  intros Ha Hb. unfold Qcdiv. apply Qcmult_nonneg_nonneg; [done|].
  destruct (decide (b = 0)) as [->|Hne]; [done|].
  apply Qclt_le_weak, Qcinv_pos.
  apply Qcle_lt_or_eq in Hb as [Hlt|Heq]; [done|congruence].
Qed.

Lemma Qcdiv_le_numerator (a b : Qc) : 0 ≤ a → 1 ≤ b → a / b ≤ a.
Proof.
  intros Ha Hb.
  assert (Hb0 : 0 < b) by (eapply Qclt_le_trans; [|exact Hb]; done).
  apply (Qcmult_lt_0_le_reg_r _ _ b); [done|].
  rewrite Qcmult_comm, Qcmult_div_r by (by apply Qclt_not_eq, not_eq_sym in Hb0).
  rewrite <-(Qcmult_1_r a) at 1.
  rewrite !(Qcmult_comm a). by apply Qcmult_le_compat_r.
Qed.

Lemma inf_or_nan_nonneg (a : fl) : inf_or_nan a → nonneg_or_nan a.
Proof. by intros [-> | ->]. Qed.

Lemma exact_add_zero_l (a : fl) : exact_add fzero a = a.
Proof.
  destruct a as [q| |]; simpl; try done.
  by rewrite Qcplus_0_l.
Qed.

Section arithmetic_facts.
Context `{Rounding}.

Lemma round_zero (fmt : format) : round fmt 0 = Fin 0.
Proof.
  pose proof (round_representable fmt 0 0) as E.
  rewrite Z.mul_0_l, Qc_of_Z_zero in E. apply E; [done|lia].
Qed.

Lemma round_int (fmt : format) (z : Z) :
  (Z.abs z ≤ 2 ^ 24)%Z → round fmt (Qc_of_Z z) = Fin (Qc_of_Z z).
Proof.
  intros Hz. pose proof (round_representable fmt z 0 Hz) as E.
  rewrite Z.mul_1_r in E. apply E. lia.
Qed.

Lemma round_one (fmt : format) : round fmt 1 = Fin 1.
Proof. rewrite <-Qc_of_Z_one. by apply round_int. Qed.

Lemma round_not_nan (fmt : format) (q : Qc) : round fmt q ≠ NaN.
Proof.
  intros E. pose proof (round_monotone fmt q q (Qcle_refl q)) as Hm.
  by rewrite E in Hm.
Qed.

(** The rounding of a number that is not negative is not negative, and
    that of a number of at least one is at least one. *)
Lemma round_nonneg (fmt : format) (q : Qc) :
  0 ≤ q → (∃ q', round fmt q = Fin q' ∧ 0 ≤ q') ∨ round fmt q = Inf false.
Proof.
  intros Hq. pose proof (round_monotone fmt 0 q Hq) as Hm.
  rewrite round_zero in Hm.
  destruct (round fmt q) as [q'|[]|]; simpl in Hm; try done.
  - left. exists q'. split; [done|]. by apply bool_decide_eq_true in Hm.
  - by right.
Qed.

Lemma round_ge_one (fmt : format) (q : Qc) :
  1 ≤ q → (∃ q', round fmt q = Fin q' ∧ 1 ≤ q') ∨ round fmt q = Inf false.
Proof.
  intros Hq. pose proof (round_monotone fmt 1 q Hq) as Hm.
  rewrite round_one in Hm.
  destruct (round fmt q) as [q'|[]|]; simpl in Hm; try done.
  - left. exists q'. split; [done|]. by apply bool_decide_eq_true in Hm.
  - by right.
Qed.

(** Up to [2^32] nothing overflows. *)
Lemma round_bounded (fmt : format) (q : Qc) :
  0 ≤ q → q ≤ Qc_of_Z (2 ^ 32) →
  ∃ q', round fmt q = Fin q' ∧ 0 ≤ q' ∧ q' ≤ Qc_of_Z (2 ^ 32).
Proof.
  intros H0 H1.
  pose proof (round_monotone fmt q _ H1) as Hm.
  pose proof (round_representable fmt 1 32) as E.
  rewrite Z.mul_1_l in E. change (Z.of_nat 32) with 32%Z in E.
  rewrite E in Hm by (simpl; lia).
  destruct (round_nonneg fmt q H0) as [(q' & Eq & Hq')|Eq];
    rewrite Eq in Hm; simpl in Hm; [|done].
  exists q'. split; [done|]. split; [done|].
  by apply bool_decide_eq_true in Hm.
Qed.

Lemma round_nonneg_or_nan (fmt : format) (q : Qc) :
  0 ≤ q → nonneg_or_nan (round fmt q).
Proof.
  intros Hq.
  by destruct (round_nonneg fmt q Hq) as [(q' & -> & Hq')| ->].
Qed.

Lemma rnd_nonneg_or_nan (fmt : format) (a : fl) :
  nonneg_or_nan a → nonneg_or_nan (rnd fmt a).
Proof.
  destruct a as [q|s|]; simpl; [|done..]. apply round_nonneg_or_nan.
Qed.

Lemma rnd_inf_or_nan (fmt : format) (a : fl) :
  inf_or_nan a → rnd fmt a = a.
Proof. by intros [-> | ->]. Qed.

Lemma rnd_idempotent (fmt : format) (a : fl) :
  rnd fmt (rnd fmt a) = rnd fmt a.
Proof.
  destruct a as [q|s|]; simpl; [|done..].
  destruct (round fmt q) as [q'|s|] eqn:E; simpl; [|done..].
  by apply round_idempotent in E.
Qed.

(** Conversions of integers. *)
Lemma fl_of_N_zero : fl_of_N 0 = fzero.
Proof. unfold fl_of_N. rewrite Qc_of_N_zero. apply round_zero. Qed.

Lemma dbl_of_N_zero : dbl_of_N 0 = fzero.
Proof. unfold dbl_of_N. rewrite Qc_of_N_zero. apply round_zero. Qed.

Lemma fl_of_N_small (n : N) :
  (n ≤ 2 ^ 24)%N → fl_of_N n = Fin (Qc_of_N n).
Proof. intros Hn. apply round_int. lia. Qed.

Lemma dbl_of_N_small (n : N) :
  (n ≤ 2 ^ 24)%N → dbl_of_N n = Fin (Qc_of_N n).
Proof. intros Hn. apply round_int. lia. Qed.

Lemma fl_of_nat_small (n : nat) :
  (n ≤ 2 ^ 24)%nat → fl_of_nat n = Fin (Qc_of_nat n).
Proof.
  intros Hn. apply round_int.
  assert (Z.of_nat n ≤ Z.of_nat (2 ^ 24))%Z by lia.
  rewrite Nat2Z.inj_pow in *. lia.
Qed.

Lemma fl_of_N_nonneg (n : N) :
  (∃ q, fl_of_N n = Fin q ∧ 0 ≤ q) ∨ fl_of_N n = Inf false.
Proof. apply round_nonneg, Qc_of_N_nonneg. Qed.

Lemma fl_of_N_pos (n : N) :
  n ≠ 0%N → (∃ q, fl_of_N n = Fin q ∧ 1 ≤ q) ∨ fl_of_N n = Inf false.
Proof.
  intros Hn. apply round_ge_one.
  unfold Qc_of_N. rewrite <-Qc_of_Z_one. apply Qc_of_Z_le. lia.
Qed.

Lemma fl_of_nat_pos (n : nat) :
  n ≠ 0%nat → (∃ q, fl_of_nat n = Fin q ∧ 1 ≤ q) ∨ fl_of_nat n = Inf false.
Proof.
  intros Hn. apply round_ge_one.
  unfold Qc_of_nat. rewrite <-Qc_of_Z_one. apply Qc_of_Z_le. lia.
Qed.

Lemma fl_of_nat_nonneg (n : nat) :
  (∃ q, fl_of_nat n = Fin q ∧ 0 ≤ q) ∨ fl_of_nat n = Inf false.
Proof. apply round_nonneg, Qc_of_nat_nonneg. Qed.

Lemma fl_of_N_bounded (n : N) :
  (n < 2 ^ 32)%N →
  ∃ q, fl_of_N n = Fin q ∧ 0 ≤ q ∧ q ≤ Qc_of_Z (2 ^ 32).
Proof.
  intros Hn. apply round_bounded; [apply Qc_of_N_nonneg|].
  apply Qc_of_Z_le. lia.
Qed.

(** ** Sums and products of rounded values *)

Lemma fadd_zero_l (a : fl) : fadd fzero (rnd binary32 a) = rnd binary32 a.
Proof. unfold fadd. rewrite exact_add_zero_l. apply rnd_idempotent. Qed.

Lemma fsum_singleton_fmul (a b : fl) : fsum [fmul a b] = fmul a b.
Proof. unfold fsum; simpl. apply fadd_zero_l. Qed.

(** A quotient by zero is never finite. *)
Lemma fdiv_by_zero (n : N) : is_finite (fdiv (fl_of_N n) (fl_of_N 0)) = false.
Proof.
  rewrite fl_of_N_zero. unfold fdiv, fzero.
  destruct (fl_of_N_nonneg n) as [(q & -> & Hq)| ->]; cbn [exact_div].
  - rewrite bool_decide_eq_true_2 by done. by destruct (bool_decide (q = 0)).
  - done.
Qed.

(** The quotient of a count by a non-zero median is finite. *)
Lemma fdiv_count_finite (n m : N) :
  (n < 2 ^ 32)%N → m ≠ 0%N →
  ∃ q, fdiv (fl_of_N n) (fl_of_N m) = Fin q ∧ 0 ≤ q ∧ q ≤ Qc_of_Z (2 ^ 32).
Proof.
  intros Hn Hm.
  destruct (fl_of_N_bounded n Hn) as (qn & -> & Hn0 & Hn1).
  unfold fdiv.
  destruct (fl_of_N_pos m Hm) as [(qm & -> & Hqm)| ->]; cbn [exact_div rnd].
  - assert (Hqm0 : 0 < qm) by (eapply Qclt_le_trans; [|exact Hqm]; done).
    rewrite bool_decide_eq_false_2
      by (by apply Qclt_not_eq, not_eq_sym in Hqm0).
    cbn [rnd]. apply round_bounded.
    + apply Qcdiv_nonneg; [done|by apply Qclt_le_weak].
    + eapply Qcle_trans; [by apply Qcdiv_le_numerator|done].
  - rewrite round_zero. exists 0. split; [done|]. split; [done|].
    rewrite <-Qc_of_Z_zero. by apply Qc_of_Z_le.
Qed.

(** Between integers that [float] holds exactly, the quotient is rounded
    once. *)
Lemma fdiv_small (n m : N) :
  (n ≤ 2 ^ 24)%N → (m ≤ 2 ^ 24)%N → m ≠ 0%N →
  fdiv (fl_of_N n) (fl_of_N m) = round binary32 (Qc_of_N n / Qc_of_N m).
Proof.
  intros Hn Hm Hm0. unfold fdiv.
  rewrite !fl_of_N_small by done. cbn [exact_div].
  rewrite bool_decide_eq_false_2; [done|].
  by rewrite Qc_of_N_eq_zero.
Qed.

End arithmetic_facts.

(** ** Lists indexed by bin *)

Lemma lookup_total_fmap_seq {A} `{!Inhabited A} (f : nat → A) (n i : nat) :
  (i < n)%nat → (f <$> seq 0 n) !!! i = f i.
Proof.
  intros Hi. apply list_lookup_total_correct.
  by rewrite list_lookup_fmap, lookup_seq_lt.
Qed.

Section properties.
Context `{External} `{Rounding}.

(** ** Bad-bin filter *)

Lemma bin_values_norm (nbins : nat) (counts : list TGenomeCounts)
    (cells : list CellInfo) (bin : nat) :
  (bin < nbins)%nat →
  bin_values (norm_counts nbins counts cells) bin =
  imap (λ i cnt,
          fadd (fdiv (fl_of_N (watson_count (cnt !!! bin)))
                     (fl_of_N (median_bin_count (cells !!! i))))
               (fdiv (fl_of_N (crick_count (cnt !!! bin)))
                     (fl_of_N (median_bin_count (cells !!! i)))))
       counts.
Proof.
  intros Hbin. unfold bin_values, norm_counts.
  rewrite fmap_imap. apply imap_ext. intros i cnt _. simpl.
  by rewrite lookup_total_fmap_seq.
Qed.

Lemma classify_fold (mu sd : fl) (bm : list fl) (l : list nat)
    (good : list nat) (bad : list ascii) :
  foldl (classify_step mu sd bm) (good, bad) l =
  (good ++ filter (λ bin, is_good mu sd (bm !!! bin)) l,
   bad ++ ((λ bin, bad_tag (bm !!! bin)) <$>
           filter (λ bin, ¬ is_good mu sd (bm !!! bin)) l)).
Proof.
  revert good bad. induction l as [|bin l IH]; intros good bad.
  - simpl. by rewrite !app_nil_r.
  - cbn [foldl]. unfold classify_step at 2. cbn [fst snd].
    destruct (is_good mu sd (bm !!! bin)) eqn:E; rewrite IH.
    + rewrite filter_cons_True by (simpl; by rewrite E).
      rewrite filter_cons_False by (simpl; rewrite E; simpl; tauto).
      by rewrite <-app_assoc.
    + rewrite filter_cons_False by (simpl; rewrite E; simpl; tauto).
      rewrite filter_cons_True by (simpl; rewrite E; simpl; tauto).
      by rewrite fmap_cons, <-app_assoc.
Qed.

Lemma filter_split_length {A} (P : A → Prop) `{!∀ x, Decision (P x)}
    (l : list A) :
  (length (filter P l) + length (filter (λ x, ¬ P x) l) = length l)%nat.
Proof.
  induction l as [|x l IH]; [done|].
  destruct (decide (P x)).
  - rewrite filter_cons_True, (filter_cons_False (λ x, ¬ P x)) by auto.
    simpl; lia.
  - rewrite filter_cons_False, (filter_cons_True (λ x, ¬ P x)) by auto.
    simpl; lia.
Qed.

(** C1.  The per-bin means are the across-cells means of the normalised
    Watson plus Crick counts; a bin is good exactly when its mean is strictly
    above 0.01 and strictly below mu + 3 sd, where mu and sd are the mean and
    the standard deviation of the per-bin means; every other bin is bad,
    tagged 'l' when its mean is at most 0.01 and 'h' otherwise; good and bad
    bins together are all the bins. *)
Theorem C1_bin_classification (nbins : nat) (counts : list TGenomeCounts)
    (cells : list CellInfo) :
  let bm := bin_means nbins (norm_counts nbins counts cells) in
  let mu := acc_mean bm in
  let sd := fsqrt (acc_variance bm) in
  let good := fst (filter_bins nbins counts cells) in
  let bad := snd (filter_bins nbins counts cells) in
  let strictly_inside (bin : nat) : Prop :=
    fgt (bm !!! bin) f0_01 = true ∧
    flt (bm !!! bin) (fadd mu (fmul (fl_of_N 3) sd)) = true in
  bm = (λ bin,
          acc_mean
            (imap (λ i cnt,
                     fadd (fdiv (fl_of_N (watson_count (cnt !!! bin)))
                                (fl_of_N (median_bin_count (cells !!! i))))
                          (fdiv (fl_of_N (crick_count (cnt !!! bin)))
                                (fl_of_N (median_bin_count (cells !!! i)))))
                  counts)) <$> seq 0 nbins
  ∧ (∀ bin, bin ∈ good ↔ (bin < nbins)%nat ∧ strictly_inside bin)
  ∧ good = filter strictly_inside (seq 0 nbins)
  ∧ bad = (λ bin, if fle (bm !!! bin) f0_01 then "l"%char else "h"%char)
            <$> filter (λ bin, ¬ strictly_inside bin) (seq 0 nbins)
  ∧ (length good + length bad = nbins)%nat.
Proof.
  intros bm mu sd good bad strictly_inside.
  assert (Hiff : ∀ bin, is_good mu sd (bm !!! bin) ↔ strictly_inside bin).
  { intros bin. unfold is_good, strictly_inside, high_threshold.
    rewrite andb_True, !Is_true_true. done. }
  assert (Hgood : good = filter strictly_inside (seq 0 nbins)).
  { unfold good, filter_bins, classify_bins. rewrite classify_fold. simpl.
    apply list_filter_iff. intros bin. apply Hiff. }
  assert (Hbad : bad = (λ bin, bad_tag (bm !!! bin))
            <$> filter (λ bin, ¬ strictly_inside bin) (seq 0 nbins)).
  { unfold bad, filter_bins, classify_bins. rewrite classify_fold. simpl.
    f_equal. apply list_filter_iff. intros bin.
    apply not_iff_compat, Hiff. }
  split; [|split; [|split; [done|split; [done|]]]].
  - unfold bm, bin_means. apply list_eq. intros bin.
    rewrite !list_lookup_fmap.
    destruct (seq 0 nbins !! bin) as [k|] eqn:Hk; [|done]. simpl.
    apply lookup_seq in Hk as [-> Hlt]. simpl.
    by rewrite bin_values_norm.
  - intros bin. rewrite Hgood, list_elem_of_filter, elem_of_seq.
    split; intros; [split; [lia|tauto]|split; [tauto|lia]].
  - rewrite Hgood, Hbad, length_fmap.
    rewrite filter_split_length. apply length_seq.
Qed.

(** ** Per-cell median *)

Lemma this_Qc_half_sum (a b : Z) :
  (this ((Qc_of_Z a + Qc_of_Z b) / 2)%Qc == inject_Z (a + b) / inject_Z 2)%Q.
Proof.
  unfold Qcdiv, Qcmult, Qcinv, Qcplus, Q2Qc. cbn [this].
  rewrite !Qred_correct. rewrite inject_Z_plus. reflexivity.
Qed.

Lemma Qfloor_half_sum (a b : N) :
  Qfloor ((Qc_of_N a + Qc_of_N b) / 2)%Qc = Z.of_N ((a + b) / 2).
Proof.
  unfold Qc_of_N.
  rewrite (Qfloor_comp _ _ (this_Qc_half_sum _ _)).
  rewrite <-Zdiv_Qdiv, <-N2Z.inj_add.
  change 2%Z with (Z.of_N 2). by rewrite <-N2Z.inj_div.
Qed.

Lemma Qfloor_of_N (a : N) : Qfloor (Qc_of_N a) = Z.of_N a.
Proof. unfold Qc_of_N, Qc_of_Z. cbn [this]. apply Qfloor_Z. Qed.

Lemma length_sorted_totals (xs : list N) :
  length (sorted_totals xs) = length xs.
Proof. unfold sorted_totals. by rewrite merge_sort_Permutation. Qed.

(** The floor of the median, in integer arithmetic on the sorted totals. *)
Lemma Qfloor_median (xs : list N) :
  let s := sorted_totals xs in
  let n := length xs in
  Qfloor (median xs) =
  Z.of_N (if Nat.even n
          then (nth (n / 2 - 1) s 0 + nth (n / 2) s 0) / 2
          else nth (n / 2) s 0)%N.
Proof.
  intros s n. unfold median. cbv zeta.
  rewrite length_sorted_totals. fold s n.
  destruct (Nat.even n).
  - apply Qfloor_half_sum.
  - apply Qfloor_of_N.
Qed.

Lemma trunc_median (xs : list N) :
  let s := sorted_totals xs in
  let n := length xs in
  trunc_unsigned (median xs) =
  (if Nat.even n
   then (nth (n / 2 - 1) s 0 + nth (n / 2) s 0) / 2
   else nth (n / 2) s 0)%N.
Proof.
  intros s n. unfold trunc_unsigned. rewrite Qfloor_median. apply N2Z.id.
Qed.

Lemma trunc_median_floor (xs : list N) :
  Qc_of_N (trunc_unsigned (median xs)) ≤ median xs
  ∧ median xs < Qc_of_N (trunc_unsigned (median xs)) + 1.
Proof.
  assert (E : Z.of_N (trunc_unsigned (median xs)) = Qfloor (median xs)).
  { unfold trunc_unsigned. rewrite Qfloor_median. by rewrite N2Z.id. }
  split.
  - unfold Qcle, Qc_of_N, Qc_of_Z. cbn [this]. rewrite E. apply Qfloor_le.
  - unfold Qclt, Qc_of_N, Qc_of_Z, Qcplus, Q2Qc. cbn [this].
    rewrite Qred_correct, E.
    change (Qred 1) with (inject_Z 1). rewrite <-inject_Z_plus.
    apply Qlt_floor.
Qed.

Lemma assign_medians_prefix (counts : list TGenomeCounts)
    (cells : list CellInfo) (n : nat) :
  length (foldl (assign_median counts) cells (seq 0 n)) = length cells ∧
  ∀ i, foldl (assign_median counts) cells (seq 0 n) !! i =
       if decide (i < n ∧ i < length counts)%nat
       then set_median_bin_count (cell_median (counts !!! i)) <$> cells !! i
       else cells !! i.
Proof.
  induction n as [|n [IHlen IH]].
  - split; [done|]. intros i. by rewrite decide_False by lia.
  - rewrite seq_S, foldl_app. simpl.
    set (r := foldl (assign_median counts) cells (seq 0 n)) in *.
    unfold assign_median.
    destruct (r !! n) as [c|] eqn:Hc; [destruct (counts !! n) as [cnt|] eqn:Hcnt|].
    + split; [by rewrite length_insert|].
      intros i. destruct (decide (i = n)) as [->|Hne].
      * rewrite list_lookup_insert_eq by (by eapply lookup_lt_Some).
        apply lookup_lt_Some in Hcnt as Hlt.
        rewrite decide_True by lia.
        rewrite IH in Hc. rewrite decide_False in Hc by lia.
        rewrite Hc. simpl. by rewrite (list_lookup_total_correct _ _ _ Hcnt).
      * rewrite list_lookup_insert_ne by done. rewrite IH.
        repeat case_decide; try done; lia.
    + split; [done|]. intros i. rewrite IH.
      apply lookup_ge_None in Hcnt.
      repeat case_decide; try done; lia.
    + split; [done|]. intros i. rewrite IH.
      rewrite IH in Hc. rewrite decide_False in Hc by lia.
      destruct (decide (i = n)) as [->|Hne].
      * rewrite Hc. repeat case_decide; done.
      * repeat case_decide; try done; lia.
Qed.

Lemma length_assign_medians (counts : list TGenomeCounts)
    (cells : list CellInfo) :
  length (assign_medians counts cells) = length cells.
Proof. apply assign_medians_prefix. Qed.

Lemma lookup_assign_medians (counts : list TGenomeCounts)
    (cells : list CellInfo) (i : nat) (c : CellInfo) (cnt : TGenomeCounts) :
  cells !! i = Some c → counts !! i = Some cnt →
  assign_medians counts cells !! i =
  Some (set_median_bin_count (cell_median cnt) c).
Proof.
  intros Hc Hcnt. unfold assign_medians.
  rewrite (proj2 (assign_medians_prefix counts cells (length counts))).
  apply lookup_lt_Some in Hcnt as Hlt.
  rewrite decide_True by lia.
  by rewrite Hc, (list_lookup_total_correct _ _ _ Hcnt).
Qed.

(** C4 (amended).  The median_bin_count of a cell is the exact median of its
    per-bin totals with the fractional part discarded: the middle value of
    the sorted totals for an odd number of bins, the integer half of the sum
    of the two middle values for an even number. *)
Theorem C4_median_bin_count_truncated (counts : list TGenomeCounts)
    (cells : list CellInfo) (i : nat) (c : CellInfo) (cnt : TGenomeCounts) :
  cells !! i = Some c →
  counts !! i = Some cnt →
  let m := median_bin_count (assign_medians counts cells !!! i) in
  let xs := bin_totals cnt in
  let s := sorted_totals xs in
  let n := length cnt in
  Sorted N.le s ∧ s ≡ₚ xs
  ∧ median_by_sample counts !! i = Some m
  ∧ m = Z.to_N (Qfloor (median xs))
  ∧ Qc_of_N m ≤ median xs ∧ median xs < Qc_of_N m + 1
  ∧ (Nat.even n = false →
       m = nth (n / 2) s 0%N ∧ Qc_of_N m = median xs)
  ∧ (Nat.even n = true →
       m = ((nth (n / 2 - 1) s 0 + nth (n / 2) s 0) / 2)%N
       ∧ median xs = (Qc_of_N (nth (n / 2 - 1) s 0%N)
                      + Qc_of_N (nth (n / 2) s 0%N)) / 2).
Proof.
  intros Hc Hcnt m xs s n.
  assert (Hm : m = cell_median cnt).
  { unfold m.
    by rewrite (list_lookup_total_correct _ _ _
                  (lookup_assign_medians _ _ _ _ _ Hc Hcnt)). }
  assert (Hn : length xs = n) by apply length_fmap.
  split; [apply Sorted_merge_sort, _|].
  split; [apply merge_sort_Permutation|].
  split.
  { unfold median_by_sample. by rewrite list_lookup_fmap, Hcnt, Hm. }
  split; [by rewrite Hm|].
  rewrite Hm. unfold cell_median. fold xs.
  split; [apply trunc_median_floor|].
  split; [apply trunc_median_floor|].
  pose proof (trunc_median xs) as Ht. cbv zeta in Ht. rewrite Hn in Ht.
  fold s in Ht.
  split; intros Hpar; rewrite Hpar in Ht.
  - split; [done|]. rewrite Ht.
    unfold median. cbv zeta. by rewrite length_sorted_totals, Hn, Hpar.
  - split; [done|].
    unfold median. cbv zeta. by rewrite length_sorted_totals, Hn, Hpar.
Qed.

(** ** Normalisation by the median *)

Lemma sorted_zero_prefix (s : list N) (k : nat) :
  StronglySorted N.le s → (k < length s)%nat → nth k s 0%N = 0%N →
  (S k ≤ length (filter (λ t, t = 0%N) s))%nat.
Proof.
  intros Hs. revert k.
  induction Hs as [|x s Hs IH Hall]; intros k Hk Hz; simpl in *; [lia|].
  assert (x = 0%N) as ->.
  { destruct k as [|k]; [done|].
    rewrite Forall_forall in Hall.
    assert (Hin : nth k s 0%N ∈ s) by (apply list_elem_of_In, nth_In; lia).
    specialize (Hall _ Hin). lia. }
  rewrite filter_cons_True by done. simpl.
  destruct k as [|k]; [lia|]. apply le_n_S, IH; [lia|done].
Qed.

Lemma half_of_even (n : nat) : Nat.even n = true → n = (2 * (n / 2))%nat.
Proof.
  intros [m ->]%Nat.even_spec.
  rewrite (Nat.mul_comm 2 m), Nat.div_mul by done. lia.
Qed.

Lemma half_of_odd (n : nat) : Nat.even n = false → n = (2 * (n / 2) + 1)%nat.
Proof.
  intros Hev. assert (Hodd : Nat.odd n = true).
  { unfold Nat.odd. by rewrite Hev. }
  apply Nat.odd_spec in Hodd as [m ->].
  rewrite (Nat.mul_comm 2 m), Nat.div_add_l by done.
  simpl. lia.
Qed.

(** A cell whose stored median is zero has at least half of its bins empty. *)
Lemma cell_median_zero_half_empty (cnt : TGenomeCounts) :
  cell_median cnt = 0%N →
  (length cnt ≤ 2 * length (filter (λ t, t = 0%N) (bin_totals cnt)))%nat.
Proof.
  unfold cell_median. set (xs := bin_totals cnt). intros Hz.
  assert (Hn : length xs = length cnt) by apply length_fmap.
  rewrite <-Hn.
  assert (Hs : StronglySorted N.le (sorted_totals xs)).
  { apply StronglySorted_merge_sort; apply _. }
  assert (Hp : sorted_totals xs ≡ₚ xs) by apply merge_sort_Permutation.
  rewrite <-Hp at 2. rewrite <-(length_sorted_totals xs) at 1.
  rewrite trunc_median in Hz. cbv zeta in Hz.
  rewrite <-(length_sorted_totals xs) in Hz.
  set (s := sorted_totals xs) in *. set (n := length s) in *.
  destruct (Nat.even n) eqn:Hpar.
  - apply half_of_even in Hpar.
    destruct (decide (n = 0)%nat) as [->|Hn0]; [lia|].
    apply N.div_small_iff in Hz; [|done].
    destruct (decide (nth (n / 2) s 0%N = 0%N)) as [Hb|Hb].
    + pose proof (sorted_zero_prefix s (n / 2) Hs) as Hk. fold n in Hk. lia.
    + assert (Ha : nth (n / 2 - 1) s 0%N = 0%N) by lia.
      pose proof (sorted_zero_prefix s (n / 2 - 1) Hs) as Hk. fold n in Hk. lia.
  - apply half_of_odd in Hpar.
    pose proof (sorted_zero_prefix s (n / 2) Hs) as Hk. fold n in Hk. lia.
Qed.

Lemma lookup_norm_counts (nbins : nat) (counts : list TGenomeCounts)
    (cells : list CellInfo) (i bin : nat) (cnt : TGenomeCounts) :
  counts !! i = Some cnt → (bin < nbins)%nat →
  norm_counts nbins counts cells !! i ≫= (.!! bin) =
  Some (norm_count (median_bin_count (cells !!! i)) (cnt !!! bin)).
Proof.
  intros Hcnt Hbin. unfold norm_counts.
  rewrite list_lookup_imap, Hcnt. simpl.
  by rewrite list_lookup_fmap, lookup_seq_lt.
Qed.

(** C10.  Every normalised count of a cell is its raw count divided by the
    cell's median_bin_count, with no test on the divisor.  When the median is
    positive both values are finite and not negative, each the rounded
    quotient of the two converted integers; when the median is zero, which
    requires at least half of the cell's bins to be empty, every normalised
    count is a quotient by zero (an infinity or NaN).  The counts are
    [unsigned int]s. *)
Theorem C10_normalisation_divides_by_median (nbins : nat)
    (counts : list TGenomeCounts) (cells0 : list CellInfo) (i bin : nat)
    (c0 : CellInfo) (cnt : TGenomeCounts) :
  cells0 !! i = Some c0 →
  counts !! i = Some cnt →
  (bin < nbins)%nat →
  let cells := assign_medians counts cells0 in
  let m := median_bin_count (cells !!! i) in
  let w := watson_count (cnt !!! bin) in
  let c := crick_count (cnt !!! bin) in
  m = cell_median cnt
  ∧ norm_counts nbins counts cells !! i ≫= (.!! bin) =
      Some (fdiv (fl_of_N w) (fl_of_N m), fdiv (fl_of_N c) (fl_of_N m))
  ∧ ((0 < m)%N → (w < UINT_MOD)%N → (c < UINT_MOD)%N →
       ∃ qw qc,
         fdiv (fl_of_N w) (fl_of_N m) = Fin qw ∧ 0 ≤ qw
         ∧ fdiv (fl_of_N c) (fl_of_N m) = Fin qc ∧ 0 ≤ qc
         ∧ ((m ≤ 2 ^ 24)%N →
              ((w ≤ 2 ^ 24)%N →
                 round binary32 (Qc_of_N w / Qc_of_N m) = Fin qw)
              ∧ ((c ≤ 2 ^ 24)%N →
                   round binary32 (Qc_of_N c / Qc_of_N m) = Fin qc)))
  ∧ (m = 0%N →
       is_finite (fdiv (fl_of_N w) (fl_of_N m)) = false
       ∧ is_finite (fdiv (fl_of_N c) (fl_of_N m)) = false
       ∧ (length cnt ≤ 2 * length (filter (λ t, t = 0%N) (bin_totals cnt)))%nat).
Proof.
  intros Hc Hcnt Hbin cells m w c.
  assert (Hm : m = cell_median cnt).
  { unfold m, cells.
    by rewrite (list_lookup_total_correct _ _ _
                  (lookup_assign_medians _ _ _ _ _ Hc Hcnt)). }
  split; [done|]. split.
  { by rewrite (lookup_norm_counts _ _ _ _ _ _ Hcnt Hbin). }
  split.
  - intros Hpos Hw Hc'.
    assert (Hm0 : m ≠ 0%N) by (by apply N.neq_0_lt_0).
    destruct (fdiv_count_finite w m Hw Hm0) as (qw & Ew & Hqw & _).
    destruct (fdiv_count_finite c m Hc' Hm0) as (qc & Ec & Hqc & _).
    exists qw, qc. repeat (split; [done|]).
    intros Hm24. split; intros Hn24.
    + rewrite <-Ew. symmetry. by apply fdiv_small.
    + rewrite <-Ec. symmetry. by apply fdiv_small.
  - intros Hz. rewrite Hz. split; [apply fdiv_by_zero|].
    split; [apply fdiv_by_zero|].
    apply cell_median_zero_half_empty. by rewrite <-Hm.
Qed.

(** ** The run and its stages *)

Lemma chapters_eq (f_in : list string) (cells0 : list CellInfo)
    (bins : list Interval) (q : Z) :
  let chrom_map := build_chrom_map n_targets bins in
  let cs := count_all bins chrom_map q f_in cells0 in
  let cells := assign_medians (cs_counts cs) (cs_cells cs) in
  let fb := filter_bins (length bins) (cs_counts cs) cells in
  let samples := estimate_samples (fst fb) (cs_counts cs) cells in
  let ds := decode_all samples cells (fst fb)
              (build_good_map n_targets bins (fst fb))
              (configure_hmm (length bins)) (cs_counts cs) in
  chapters f_in cells0 bins q =
  mkRun bins chrom_map cells (cs_counts cs) (ds_counts ds) (fst fb) (snd fb)
    (build_good_map n_targets bins (fst fb)) samples
    (configure_hmm (length bins)) (ds_calls ds) (cs_log cs)
    (count_table f_in bins cells (ds_counts ds)).
Proof.
  unfold chapters. simpl.
  by destruct (filter_bins _ _ _) as [good bad] eqn:Hfb.
Qed.

(** What [main] does once the options, the headers and the bins are in
    order. *)
Lemma main_run (conf : Conf) (cells0 : list CellInfo) (bins : list Interval) :
  usage_error conf = false →
  explore_headers (f_in conf) = Some cells0 →
  binning conf = Some bins →
  let r := chapters (f_in conf) cells0 bins (minMapQual conf) in
  main conf =
  mkResult (if is_open (f_out conf) then 0 else 2)
    (r_log r ++ snd (reports conf r)) (fst (reports conf r)) (Some r).
Proof.
  unfold usage_error, main. intros Hu Hh Hb.
  apply orb_false_iff in Hu as [Hu Hu3].
  apply orb_false_iff in Hu as [Hu1 Hu2].
  by rewrite Hu1, Hu2, Hu3, Hh, Hb.
Qed.

Lemma main_inv (conf : Conf) (r : Run) :
  run (main conf) = Some r →
  ∃ cells0 bins,
    usage_error conf = false ∧
    explore_headers (f_in conf) = Some cells0 ∧
    binning conf = Some bins ∧
    let chrom_map := build_chrom_map n_targets bins in
    let cs := count_all bins chrom_map (minMapQual conf) (f_in conf) cells0 in
    let cells := assign_medians (cs_counts cs) (cs_cells cs) in
    let fb := filter_bins (length bins) (cs_counts cs) cells in
    let samples := estimate_samples (fst fb) (cs_counts cs) cells in
    let ds := decode_all samples cells (fst fb)
                (build_good_map n_targets bins (fst fb))
                (configure_hmm (length bins)) (cs_counts cs) in
    r = mkRun bins chrom_map cells (cs_counts cs) (ds_counts ds) (fst fb) (snd fb)
          (build_good_map n_targets bins (fst fb)) samples
          (configure_hmm (length bins)) (ds_calls ds) (cs_log cs)
          (count_table (f_in conf) bins cells (ds_counts ds)).
Proof.
  unfold main, usage_error. intros Hr.
  destruct (window_and_bins conf); [done|].
  destruct (bins_and_exclude conf); [done|].
  destruct (help_or_no_input conf); [done|].
  destruct (explore_headers (f_in conf)) as [cells0|] eqn:Hh; [|done].
  destruct (binning conf) as [bins|] eqn:Hb; [|done].
  exists cells0, bins. repeat (split; [done|]).
  cbn [run] in Hr. injection Hr as <-. apply chapters_eq.
Qed.

Lemma length_good_bins (nbins : nat) (counts : list TGenomeCounts)
    (cells : list CellInfo) :
  (length (fst (filter_bins nbins counts cells)) ≤ nbins)%nat.
Proof.
  unfold filter_bins, classify_bins. rewrite classify_fold. simpl.
  etrans; [apply length_filter|]. by rewrite length_seq.
Qed.

(** ** Chromosome index *)

Lemma monotone_snoc (l : list Z) (hi e : Z) :
  monotone l → Forall (λ a, a ≤ hi)%Z l → (hi ≤ e)%Z →
  monotone (l ++ [e]) ∧ Forall (λ a, a ≤ e)%Z (l ++ [e]).
Proof.
  intros Hmono Hall Hle. split.
  - intros c a b Ha Hb.
    destruct (decide (S c < length l)%nat) as [Hlt|Hge].
    + rewrite lookup_app_l in Ha, Hb by lia. by eapply Hmono.
    + apply lookup_lt_Some in Hb as Hlen. rewrite length_app in Hlen.
      simpl in Hlen.
      rewrite lookup_app_l in Ha by lia.
      rewrite lookup_app_r in Hb by lia.
      replace (S c - length l)%nat with O in Hb by lia.
      injection Hb as <-.
      rewrite Forall_forall in Hall.
      specialize (Hall a (list_elem_of_lookup_2 _ _ _ Ha)).
      simpl in Hall. lia.
  - apply Forall_app. split; [|by repeat constructor].
    eapply Forall_impl; [done|]. simpl. lia.
Qed.

Lemma to_int32_small (z : Z) : (0 ≤ z < 2 ^ 31)%Z → to_int32 z = z.
Proof.
  intros Hz. unfold to_int32. rewrite Z.mod_small; lia.
Qed.

Lemma advance_bounds (fuel : nat) (bins : list Interval) (sel : list nat)
    (c : Z) (pos : nat) :
  (pos ≤ length sel)%nat →
  (pos ≤ advance fuel bins sel c pos ≤ length sel)%nat.
Proof.
  revert pos. induction fuel as [|fuel IH]; intros pos Hpos; simpl; [lia|].
  destruct (bool_decide (pos < length sel)%nat) eqn:Hlt; simpl; [|lia].
  destruct (bool_decide (chr_at bins sel pos < c)%Z); [|lia].
  apply bool_decide_eq_true in Hlt.
  specialize (IH (S pos)). lia.
Qed.

(** The fuel handed to [advance] always suffices: on return the condition of
    the [while] is false. *)
Lemma advance_exit (fuel : nat) (bins : list Interval) (sel : list nat)
    (c : Z) (pos : nat) :
  (length sel - pos ≤ fuel)%nat →
  let r := advance fuel bins sel c pos in
  ¬ ((r < length sel)%nat ∧ (chr_at bins sel r < c)%Z).
Proof.
  revert pos. induction fuel as [|fuel IH]; intros pos Hfuel; simpl.
  - lia.
  - destruct (bool_decide (pos < length sel)%nat) eqn:Hlt; simpl.
    + destruct (bool_decide (chr_at bins sel pos < c)%Z) eqn:Hchr.
      * apply IH. lia.
      * apply bool_decide_eq_false in Hchr. tauto.
    + apply bool_decide_eq_false in Hlt. tauto.
Qed.

Lemma fill_chrom_index_prefix (targets : nat) (bins : list Interval)
    (sel : list nat) (n : nat) :
  (Z.of_nat (length sel) < 2 ^ 31)%Z → (n ≤ targets)%nat →
  let st := foldl (index_step bins sel) (replicate targets (-1)%Z, O)
              (seq 0 n) in
  length (fst st) = targets
  ∧ (snd st ≤ length sel)%nat
  ∧ monotone (take n (fst st))
  ∧ Forall (λ a, a ≤ Z.of_nat (snd st))%Z (take n (fst st)).
Proof.
  intros Hsize. induction n as [|n IH]; intros Hn.
  - simpl. rewrite length_replicate.
    repeat split; [lia| |by rewrite take_0; constructor].
    rewrite take_0. by intros c a b ?.
  - rewrite seq_S, foldl_app. simpl.
    destruct IH as (Hlen & Hpos & Hmono & Hall); [lia|].
    destruct (foldl (index_step bins sel) _ (seq 0 n)) as [gm pos].
    simpl in *. unfold index_step. simpl.
    pose proof (advance_bounds (length sel) bins sel (Z.of_nat n) pos Hpos)
      as Hadv.
    set (pos' := advance (length sel) bins sel (Z.of_nat n) pos) in *.
    set (entry := if bool_decide (length sel ≤ pos')%nat
                  then to_int32 (Z.of_nat (length sel))
                  else Z.of_nat pos').
    assert (Hentry : entry = Z.of_nat pos').
    { unfold entry. case_bool_decide; [|done].
      rewrite to_int32_small by lia. lia. }
    rewrite length_insert. split; [done|]. split; [lia|].
    assert (Htake : take (S n) (<[n := entry]> gm) = take n gm ++ [entry]).
    { rewrite (take_S_r _ _ entry)
        by (apply list_lookup_insert_eq; lia).
      by rewrite take_insert_ge by lia. }
    rewrite Htake, Hentry.
    apply (monotone_snoc _ (Z.of_nat pos)); [done|done|lia].
Qed.

Lemma fill_chrom_index_spec (targets : nat) (bins : list Interval)
    (sel : list nat) :
  (Z.of_nat (length sel) < 2 ^ 31)%Z →
  let idx := fill_chrom_index targets bins sel ++
             [to_int32 (Z.of_nat (length sel))] in
  monotone idx
  ∧ length idx = S targets
  ∧ last idx = Some (Z.of_nat (length sel)).
Proof.
  intros Hsize idx.
  destruct (fill_chrom_index_prefix targets bins sel targets Hsize)
    as (Hlen & Hpos & Hmono & Hall); [done|].
  rewrite take_ge in Hmono, Hall by lia.
  fold (fill_chrom_index targets bins sel) in Hlen, Hmono, Hall.
  unfold idx. rewrite to_int32_small by lia.
  split; [|split].
  - eapply monotone_snoc; [done|done|lia].
  - rewrite length_app. simpl. lia.
  - by rewrite last_snoc.
Qed.

(** C9.  The raw chromosome index and the good-bin chromosome index are both
    non-decreasing from one chromosome to the next, hold one entry per
    chromosome plus a final one, and that final entry is the number of bins,
    respectively of good bins.  The bin count fits the index type
    [int32_t]. *)
Theorem C9_chromosome_indices_monotone (conf : Conf) (r : Run) :
  run (main conf) = Some r →
  (Z.of_nat (length (r_bins r)) < 2 ^ 31)%Z →
  (∀ c a b, r_chrom_map r !! c = Some a → r_chrom_map r !! S c = Some b →
            (a ≤ b)%Z)
  ∧ length (r_chrom_map r) = S n_targets
  ∧ last (r_chrom_map r) = Some (Z.of_nat (length (r_bins r)))
  ∧ (∀ c a b, r_good_map r !! c = Some a → r_good_map r !! S c = Some b →
              (a ≤ b)%Z)
  ∧ length (r_good_map r) = S n_targets
  ∧ last (r_good_map r) = Some (Z.of_nat (length (r_good_bins r))).
Proof.
  intros (cells0 & bins & _ & _ & _ & ->)%main_inv Hsize.
  cbn [r_bins r_chrom_map r_good_map r_good_bins] in *.
  match goal with
  | |- context [filter_bins ?n ?cs ?cl] =>
      pose proof (length_good_bins n cs cl) as Hgood;
      set (good := fst (filter_bins n cs cl)) in *
  end.
  destruct (fill_chrom_index_spec n_targets bins (seq 0 (length bins)))
    as (Hm1 & Hl1 & Hs1); [by rewrite length_seq|].
  destruct (fill_chrom_index_spec n_targets bins good)
    as (Hm2 & Hl2 & Hs2); [lia|].
  rewrite length_seq in Hm1, Hl1, Hs1.
  unfold build_chrom_map, raw_chrom_index, build_good_map.
  repeat split; done.
Qed.

(** ** Counting *)

Lemma insert_middle {A} (l1 l2 : list A) (x y : A) (n : nat) :
  n = length l1 → <[n := y]> (l1 ++ x :: l2) = l1 ++ y :: l2.
Proof.
  intros ->. rewrite <-(Nat.add_0_r (length l1)) at 1. by rewrite insert_app_r.
Qed.

Lemma delete_at_middle {A} (l1 l2 : list A) (x : A) (n : nat) :
  n = length l1 → delete n (l1 ++ x :: l2) = l1 ++ l2.
Proof. intros ->. apply delete_middle. Qed.

Lemma length_explore_headers (f_in : list string) (cells0 : list CellInfo) :
  explore_headers f_in = Some cells0 → length cells0 = length f_in.
Proof.
  unfold explore_headers. intros Hm%length_mapM.
  rewrite length_zip, length_seq in Hm. lia.
Qed.

(** The loop invariant of lines 205-214: the entries kept so far, followed
    by the untouched entries of the files still to be read. *)
Lemma count_fold (bins : list Interval) (chrom_map : list Z) (q : Z)
    (files : list string) (rest : list CellInfo)
    (kept_counts : list TGenomeCounts) (kept_cells : list CellInfo)
    (log : list diagnostic) :
  length rest = length files →
  length kept_counts = length kept_cells →
  let tries := attempts bins chrom_map q files rest in
  foldl (count_step bins chrom_map q)
    (mkCountState (length kept_counts)
       (kept_counts ++ replicate (length files) [])
       (kept_cells ++ rest) log)
    files
  = mkCountState
      (length kept_counts + length (filter succeeded tries))
      (kept_counts ++ (attempt_counts <$> filter succeeded tries))
      (kept_cells ++ (attempt_cell <$> filter succeeded tries))
      (log ++ (attempt_warning <$> filter (λ a, ¬ succeeded a) tries)).
Proof.
  revert rest kept_counts kept_cells log.
  induction files as [|file files IH];
    intros rest kept_counts kept_cells log Hrest Hkept; simpl.
  - destruct rest; [|done]. simpl.
    by rewrite !app_nil_r, Nat.add_0_r.
  - destruct rest as [|cell0 rest]; [done|].
    injection Hrest as Hrest.
    unfold count_step at 2. cbn [cs_i cs_counts cs_cells cs_log].
    rewrite !list_lookup_total_middle by done.
    unfold attempts. cbn [zip zip_with fmap list_fmap fst snd].
    fold (attempts bins chrom_map q files rest).
    destruct (count_sorted_reads file bins chrom_map q [] cell0)
      as [[ok cnt] cell] eqn:Hcall.
    destruct ok.
    + rewrite filter_cons_True by done.
      rewrite filter_cons_False by (unfold succeeded; simpl; tauto).
      rewrite !insert_middle by done.
      rewrite (cons_middle cnt), (cons_middle cell), !app_assoc.
      replace (S (length kept_counts)) with (length (kept_counts ++ [cnt]))
        by (rewrite length_app; simpl; lia).
      rewrite IH; [|done|rewrite !length_app; simpl; lia].
      rewrite !fmap_cons, length_app, <-!app_assoc. simpl.
      f_equal. lia.
    + rewrite filter_cons_False by (unfold succeeded; simpl; tauto).
      rewrite filter_cons_True by (unfold succeeded; simpl; tauto).
      rewrite !delete_at_middle by done.
      rewrite IH by done.
      rewrite fmap_cons. f_equal. by rewrite <-app_assoc.
Qed.

Lemma count_all_spec (bins : list Interval) (chrom_map : list Z) (q : Z)
    (f_in : list string) (cells0 : list CellInfo) :
  length cells0 = length f_in →
  let tries := attempts bins chrom_map q f_in cells0 in
  count_all bins chrom_map q f_in cells0
  = mkCountState (length (filter succeeded tries))
      (attempt_counts <$> filter succeeded tries)
      (attempt_cell <$> filter succeeded tries)
      (attempt_warning <$> filter (λ a, ¬ succeeded a) tries).
Proof.
  intros Hlen. unfold count_all.
  exact (count_fold bins chrom_map q f_in cells0 [] [] [] Hlen eq_refl).
Qed.

Lemma decode_prefix (samples : gmap string SampleInfo)
    (cells : list CellInfo) (good_bins : list nat) (good_map : list Z)
    (h : HMM) (counts : list TGenomeCounts) (n : nat) :
  let ds := foldl (decode_step samples cells good_bins good_map)
              (mkDecodeState h counts []) (seq 0 n) in
  length (ds_counts ds) = length counts
  ∧ length (ds_calls ds) = n
  ∧ ∀ i, (i < n)%nat →
         ∃ hi, ds_calls ds !! i = Some hi
               ∧ emissions hi = cell_emissions samples (cells !!! i).
Proof.
  induction n as [|n IH].
  - simpl. split; [done|]. split; [done|]. intros i ?; lia.
  - cbv zeta in *. rewrite seq_S, foldl_app. simpl.
    destruct IH as (Hcounts & Hcalls & Hem).
    destruct (foldl _ _ (seq 0 n)) as [hn cnts calls]. simpl in *.
    unfold decode_step. simpl.
    destruct (run_HMM _ _ _ _) as [h' cnt]. simpl.
    rewrite length_insert, length_app. simpl.
    split; [done|]. split; [lia|].
    intros i Hi. destruct (decide (i = n)) as [->|Hne].
    + eexists. rewrite lookup_app_r by lia.
      rewrite Hcalls, Nat.sub_diag. done.
    + destruct (Hem i) as (hi & Hhi & Hemi); [lia|].
      exists hi. by rewrite lookup_app_l by lia.
Qed.

Lemma decode_prefix_counts (samples : gmap string SampleInfo)
    (cells : list CellInfo) (good_bins : list nat) (good_map : list Z)
    (h : HMM) (counts : list TGenomeCounts) (n : nat) :
  (n ≤ length counts)%nat →
  let ds := foldl (decode_step samples cells good_bins good_map)
              (mkDecodeState h counts []) (seq 0 n) in
  length (ds_calls ds) = n
  ∧ (∀ i, (n ≤ i)%nat → ds_counts ds !! i = counts !! i)
  ∧ ∀ i cnt, (i < n)%nat → counts !! i = Some cnt →
      ∃ hi, ds_calls ds !! i = Some hi
            ∧ ds_counts ds !! i
              = Some (snd (run_HMM hi cnt good_bins good_map)).
Proof.
  induction n as [|n IH]; intros Hn.
  - simpl. split; [done|]. split; [done|]. intros i cnt ?; lia.
  - cbv zeta in *. rewrite seq_S, foldl_app. simpl.
    destruct IH as (Hcalls & Hrest & Hdone); [lia|].
    destruct (foldl _ _ (seq 0 n)) as [hn cnts calls]. simpl in *.
    unfold decode_step. simpl.
    destruct (lookup_lt_is_Some_2 counts n) as [cn Hcn]; [lia|].
    assert (Hcn' : cnts !! n = Some cn) by (rewrite Hrest by lia; done).
    rewrite (list_lookup_total_correct _ _ _ Hcn').
    destruct (run_HMM _ cn good_bins good_map) as [h' cnt'] eqn:Hrun.
    simpl. rewrite length_app. simpl.
    split; [lia|]. split.
    + intros i Hi. rewrite list_lookup_insert_ne by lia. apply Hrest. lia.
    + intros i cnt Hi Hcnt. destruct (decide (i = n)) as [->|Hne].
      * eexists. rewrite lookup_app_r by lia.
        rewrite Hcalls, Nat.sub_diag. split; [done|].
        rewrite list_lookup_insert_eq
          by (apply lookup_lt_Some in Hcn'; done).
        assert (cnt = cn) as -> by congruence.
        by rewrite Hrun.
      * destruct (Hdone i cnt) as (hi & Hhi & Hci); [lia|done|].
        exists hi. rewrite lookup_app_l by lia.
        by rewrite list_lookup_insert_ne by done.
Qed.

(** C8.  When counting fails for a file, the entries of that file are erased
    from [cells] and [counts] together, a warning naming the file is written,
    and the loop goes on: all files are attempted, the two sequences keep
    exactly the entries of the files that could be read, in input order and
    aligned, and the run itself is carried through to its table: the exit
    code is that of the table, 0 when it was written. *)
Theorem C8_failed_cells_dropped (conf : Conf) (cells0 : list CellInfo)
    (bins : list Interval) :
  usage_error conf = false →
  explore_headers (f_in conf) = Some cells0 →
  binning conf = Some bins →
  let chrom_map := build_chrom_map n_targets bins in
  let cs := count_all bins chrom_map (minMapQual conf) (f_in conf) cells0 in
  let tries := attempts bins chrom_map (minMapQual conf) (f_in conf) cells0 in
  length tries = length (f_in conf)
  ∧ fst <$> tries = f_in conf
  ∧ cs_cells cs = attempt_cell <$> filter succeeded tries
  ∧ cs_counts cs = attempt_counts <$> filter succeeded tries
  ∧ length (cs_cells cs) = length (cs_counts cs)
  ∧ cs_log cs = attempt_warning <$> filter (λ a, ¬ succeeded a) tries
  ∧ ∃ r, run (main conf) = Some r
         ∧ r_log r = cs_log cs
         ∧ r_counted r = cs_counts cs
         ∧ length (r_cells r) = length (cs_cells cs)
         ∧ length (r_counts r) = length (cs_counts cs)
         ∧ (∃ rest, stderr (main conf) = cs_log cs ++ rest)
         ∧ exit_code (main conf) = (if is_open (f_out conf) then 0 else 2)%Z
         ∧ (is_open (f_out conf) = true →
              (f_out conf, r_table r) ∈ written (main conf)).
Proof.
  intros Hu Hh Hb chrom_map cs tries.
  pose proof (length_explore_headers _ _ Hh) as Hlen.
  assert (Hcs : cs = _)
    by apply (count_all_spec bins chrom_map (minMapQual conf) _ _ Hlen).
  fold tries in Hcs.
  split; [unfold tries, attempts; rewrite length_fmap, length_zip; lia|].
  split.
  { unfold tries, attempts. rewrite <-list_fmap_compose.
    rewrite <-(fst_zip (f_in conf) cells0) at 2 by lia. done. }
  split; [by rewrite Hcs|]. split; [by rewrite Hcs|].
  split; [by rewrite Hcs; simpl; rewrite !length_fmap|].
  split; [by rewrite Hcs|].
  rewrite (main_run conf cells0 bins Hu Hh Hb). cbn [run stderr exit_code written].
  eexists. split; [done|].
  rewrite chapters_eq. cbn [r_log r_counted r_cells r_counts r_table].
  split; [done|]. split; [done|].
  split; [apply length_assign_medians|].
  split; [apply decode_prefix|].
  split; [by eexists|]. split; [done|].
  intros Hopen. unfold reports. rewrite Hopen. cbn [fst].
  rewrite !elem_of_app. do 3 right. by apply list_elem_of_singleton.
Qed.

(** ** Per-sample estimation *)

Lemma inner_product_fold (xs ys : list fl) (init : fl) :
  inner_product xs ys init = foldl fadd init (zip_with fmul xs ys).
Proof.
  unfold inner_product. revert ys init.
  induction xs as [|x xs IH]; intros [|y ys] init; simpl; auto.
Qed.

Lemma members_S (cells : list CellInfo) (n : nat) (name : string) :
  members cells (S n) name =
  members cells n name ++
  (if decide (sample_name (cells !!! n) = name) then [n] else []).
Proof.
  unfold members. by rewrite seq_S, filter_app.
Qed.

(** The entry of a sample after the first [n] cells have been folded in. *)
Lemma collect_prefix (good_bins : list nat) (counts : list TGenomeCounts)
    (cells : list CellInfo) (n : nat) (name : string) :
  foldl (add_cell good_bins counts cells) ∅ (seq 0 n) !! name =
  if decide (members cells n name = []) then None
  else Some (mkSampleInfo
               ((λ i, cell_mean good_bins (counts !!! i))
                  <$> members cells n name)
               ((λ i, cell_var good_bins (counts !!! i))
                  <$> members cells n name)
               fzero).
Proof.
  induction n as [|n IH].
  - done.
  - rewrite seq_S, foldl_app. simpl. unfold add_cell at 1.
    rewrite members_S.
    destruct (decide (sample_name (cells !!! n) = name)) as [->|Hne].
    + rewrite lookup_insert_eq, IH.
      rewrite (decide_False (P := _ ++ [n] = []))
        by (by destruct (members cells n name)).
      f_equal. rewrite !fmap_app. simpl.
      by case_decide as Hnil; [rewrite Hnil|].
    + rewrite lookup_insert_ne by done.
      by rewrite app_nil_r.
Qed.

Lemma lookup_estimate_samples (good_bins : list nat)
    (counts : list TGenomeCounts) (cells : list CellInfo) (name : string) :
  let idx := members cells (length counts) name in
  let ms := (λ i, cell_mean good_bins (counts !!! i)) <$> idx in
  let vs := (λ i, cell_var good_bins (counts !!! i)) <$> idx in
  estimate_samples good_bins counts cells !! name =
  if decide (idx = []) then None
  else Some (mkSampleInfo ms vs
               (fdiv (fsum (zip_with fmul ms ms)) (fsum (zip_with fmul ms vs)))).
Proof.
  intros idx ms vs. unfold estimate_samples, collect_samples.
  rewrite lookup_fmap, collect_prefix. fold idx.
  case_decide; [done|]. simpl. unfold fit_p. simpl.
  by rewrite !inner_product_fold.
Qed.

(** C2.  For every sample with at least one retained cell, the fitted
    parameter is p = sum(mean_i * mean_i) / sum(mean_i * var_i) over the
    sample's cells, where mean_i and var_i are the mean and variance of the
    cell's Watson plus Crick counts over the good bins; the value is a
    closed-form expression, and for a single cell it is
    (mean * mean) / (mean * var). *)
Theorem C2_dispersion_fit (conf : Conf) (r : Run) (name : string) :
  run (main conf) = Some r →
  let idx := members (r_cells r) (length (r_counted r)) name in
  let totals (i : nat) : list fl :=
    (λ g, fl_of_N (uadd (crick_count ((r_counted r !!! i) !!! g))
                        (watson_count ((r_counted r !!! i) !!! g))))
      <$> r_good_bins r in
  let ms := (λ i, acc_mean (totals i)) <$> idx in
  let vs := (λ i, acc_variance (totals i)) <$> idx in
  (idx = [] → r_samples r !! name = None)
  ∧ (idx ≠ [] →
       ∃ s, r_samples r !! name = Some s
            ∧ means s = ms ∧ vars s = vs
            ∧ p s = fdiv (fsum (zip_with fmul ms ms))
                         (fsum (zip_with fmul ms vs)))
  ∧ (∀ i, idx = [i] →
       ∃ s, r_samples r !! name = Some s
            ∧ p s = fdiv (fmul (acc_mean (totals i)) (acc_mean (totals i)))
                         (fmul (acc_mean (totals i)) (acc_variance (totals i)))).
Proof.
  intros (cells0 & bins & _ & _ & _ & ->)%main_inv idx totals ms vs.
  cbn [r_cells r_counted r_samples r_good_bins] in *.
  match goal with
  | |- context [estimate_samples ?g ?cs ?cl !! name] =>
      pose proof (lookup_estimate_samples g cs cl name) as Hl
  end.
  cbv zeta in Hl. fold idx in Hl.
  change (λ i, cell_mean ?g (?cs !!! i)) with (λ i, acc_mean (totals i)) in Hl.
  change (λ i, cell_var ?g (?cs !!! i)) with (λ i, acc_variance (totals i)) in Hl.
  fold ms vs in Hl.
  split; [|split].
  - intros Hnil. by rewrite Hl, decide_True.
  - intros Hne. rewrite Hl, decide_False by done. by eexists.
  - intros i Hi. rewrite Hl, decide_False by (by rewrite Hi).
    eexists. split; [done|]. simpl. unfold ms, vs. rewrite Hi. simpl.
    by rewrite !fsum_singleton_fmul.
Qed.

(** ** HMM set-up and per-cell emissions *)

Lemma run_counted (conf : Conf) (r : Run) :
  run (main conf) = Some r →
  length (r_cells r) = length (r_counted r)
  ∧ length (r_calls r) = length (r_counted r)
  ∧ ∃ tries : list (string * (bool * TGenomeCounts * CellInfo)),
      r_log r = attempt_warning <$> tries.
Proof.
  intros (cells0 & bins & _ & Hh & _ & ->)%main_inv.
  cbn [r_cells r_counted r_calls r_log].
  pose proof (length_explore_headers _ _ Hh) as Hlen.
  rewrite length_assign_medians.
  rewrite (count_all_spec bins _ (minMapQual conf) _ _ Hlen).
  cbn [cs_cells cs_counts cs_log].
  split; [by rewrite !length_fmap|].
  split; [apply decode_prefix|by eexists].
Qed.

(** Every retained cell is decoded with the emissions computed from the
    entry of its own sample, which exists. *)
Lemma run_decode_calls (conf : Conf) (r : Run) (i : nat) (cell : CellInfo) :
  run (main conf) = Some r →
  r_cells r !! i = Some cell →
  ∃ h s, r_calls r !! i = Some h
         ∧ r_samples r !! sample_name cell = Some s
         ∧ emissions h =
           cell_emissions (<[sample_name cell := s]> (r_samples r)) cell.
Proof.
  intros Hr Hcell.
  destruct (run_counted _ _ Hr) as (Hlen & _ & _).
  apply lookup_lt_Some in Hcell as Hi. rewrite Hlen in Hi.
  apply main_inv in Hr as (cells0 & bins & _ & Hh & _ & ->).
  cbn [r_cells r_counted r_calls r_samples] in *.
  match goal with
  | |- context [decode_all ?sm ?cl ?g ?gm ?h0 ?cs] =>
      destruct (decode_prefix sm cl g gm h0 cs (length cs))
        as (_ & _ & Hcalls);
      pose proof (lookup_estimate_samples g cs cl (sample_name cell)) as Hs;
      assert (Hin : i ∈ members cl (length cs) (sample_name cell))
  end.
  { unfold members. apply list_elem_of_filter. split.
    - by rewrite (list_lookup_total_correct _ _ _ Hcell).
    - apply elem_of_seq. lia. }
  destruct (Hcalls i Hi) as (h & Hh' & Hem).
  cbv zeta in Hs.
  rewrite decide_False in Hs
    by (intros Hnil; rewrite Hnil in Hin; by apply elem_of_nil in Hin).
  eexists h, _. split; [exact Hh'|]. split; [exact Hs|].
  rewrite Hem, (list_lookup_total_correct _ _ _ Hcell).
  unfold cell_emissions, sample_at. by rewrite lookup_insert_eq, Hs.
Qed.

(** The final counters of a cell are what [run_HMM] returned for the
    counters that counting left for it. *)
Lemma run_decode_counts (conf : Conf) (r : Run) (i : nat)
    (cnt : TGenomeCounts) :
  run (main conf) = Some r →
  r_counted r !! i = Some cnt →
  ∃ h, r_calls r !! i = Some h
       ∧ r_counts r !! i
         = Some (snd (run_HMM h cnt (r_good_bins r) (r_good_map r))).
Proof.
  intros (cells0 & bins & _ & _ & _ & ->)%main_inv Hcnt.
  cbn [r_counted r_counts r_calls r_good_bins r_good_map] in *.
  match goal with
  | |- context [decode_all ?sm ?cl ?g ?gm ?h0 ?cs] =>
      destruct (decode_prefix_counts sm cl g gm h0 cs (length cs) (le_n _))
        as (_ & _ & Hdone)
  end.
  apply (Hdone i cnt); [by eapply lookup_lt_Some|done].
Qed.

(** C3.  Before the decode of every retained cell the three emission
    distributions (for CC, WC and WW, in this order) are set to pairs of
    negative binomials with the fitted [p] of the cell's sample:
    CC = (2n, z), WC = (n, n), WW = (z, 2n), where
    n = median_bin_count / 2 * p / (1 - p), computed on [double], and
    z = 0.5 for every cell. *)
Theorem C3_emissions_per_cell (conf : Conf) (r : Run) (i : nat)
    (cell : CellInfo) :
  run (main conf) = Some r →
  r_cells r !! i = Some cell →
  ∃ h s,
    r_calls r !! i = Some h
    ∧ r_samples r !! sample_name cell = Some s
    ∧ let pp := p s in
      let n := ddiv (dmul (ddiv (dbl_of_N (median_bin_count cell)) (dbl_of_N 2)) pp)
                    (dsub fone pp) in
      let z := Fin (Qc_of_Z 1 / Qc_of_Z 2) in
      emissions h =
      [ [mkNB pp (dmul (dbl_of_N 2) n); mkNB pp z];
        [mkNB pp n; mkNB pp n];
        [mkNB pp z; mkNB pp (dmul (dbl_of_N 2) n)] ].
Proof.
  intros Hr Hcell.
  destruct (run_decode_calls _ _ _ _ Hr Hcell) as (h & s & Hh & Hs & Hem).
  exists h, s. split; [done|]. split; [done|].
  rewrite Hem. unfold cell_emissions, sample_at, nb_size.
  by rewrite lookup_insert_eq.
Qed.


Lemma stderr_of_run (conf : Conf) (r : Run) :
  run (main conf) = Some r →
  stderr (main conf) = r_log r ++ snd (reports conf r).
Proof.
  intros Hr.
  destruct (main_inv _ _ Hr) as (cells0 & bins & Hu & Hh & Hb & _).
  rewrite (main_run conf cells0 bins Hu Hh Hb) in *.
  cbn [run stderr] in *. by injection Hr as <-.
Qed.


(** ** The count table *)

Lemma lookup_cell_rows (f_in : list string) (bins : list Interval)
    (cells : list CellInfo) (i bin : nat) (cnt : TGenomeCounts)
    (row : list string) :
  cell_rows f_in bins cells i cnt !! bin = Some row →
  row !! 3%nat = Some (sample_name (cells !!! i))
  ∧ row !! 4%nat = Some (stem (f_in !!! i)).
Proof.
  unfold cell_rows. rewrite list_lookup_imap.
  destruct (cnt !! bin) as [cc|]; simpl; [|done].
  intros [= <-]. split; reflexivity.
Qed.

End properties.

(** * The concrete setting *)

(** Proves the first conjunct of the goal by evaluation and keeps it as a
    hypothesis. *)
Ltac evaluated H :=
  match goal with
  | |- ?A ∧ _ => assert (H : A) by (vm_compute; reflexivity); split; [exact H|]
  end.

(** The filter on the toy run: the all-empty bin is tagged 'l', the
    over-covered one 'h'. *)
Example toy_filter :
  ∃ r, run (toy_run ieee) = Some r
       ∧ r_good_bins r = seq 0 10
       ∧ r_bad_bins r = ["l"%char; "h"%char].
Proof. eexists. split; [vm_compute; reflexivity|]. by vm_compute. Qed.

(** Rounding decides the fate of a bin.  For the cell of dir/f.bam, of
    median 500, the bin with one Watson and four Crick reads has the
    normalised values 1/500 and 4/500.  On [float] their sum is
    10737419 / 2^30, just above the [double] 0.01, and the bin is good; in
    exact arithmetic the sum is 1/100, and the bin would be removed with
    reason 'l'. *)
Example toy_filter_rounding :
  ∃ r r', run (toy_run_f ieee) = Some r
    ∧ run (toy_run_f exact_arithmetic) = Some r'
    ∧ r_counted r = r_counted r'
    ∧ median_bin_count <$> r_cells r = [500%N]
    ∧ (r_counted r !!! 0%nat) !! 1%nat = Some (mkCounter 1 4 "")
    ∧ @bin_means ieee 12 (@norm_counts ieee 12 (r_counted r) (r_cells r))
        !! 1%nat
      = Some (Fin (Qc_of_Z 10737419 / Qc_of_Z 1073741824))
    ∧ @flt (@f0_01 ieee) (Fin (Qc_of_Z 10737419 / Qc_of_Z 1073741824)) = true
    ∧ r_good_bins r = seq 0 12
    ∧ r_bad_bins r = []
    ∧ r_good_bins r' = 0%nat :: seq 2 10
    ∧ r_bad_bins r' = ["l"%char].
Proof.
  eexists _, _. split; [vm_compute; reflexivity|].
  split; [vm_compute; reflexivity|].
  repeat split; by vm_compute.
Qed.

Lemma C2_witness :
  ∃ r, run (toy_run ieee) = Some r
       ∧ members (r_cells r) (length (r_counted r)) "S1" = [0; 1]%nat
       ∧ ∃ s, r_samples r !! "S1" = Some s
              ∧ p s = @fdiv ieee
                        (@fsum ieee (zip_with (@fmul ieee) (means s) (means s)))
                        (@fsum ieee (zip_with (@fmul ieee) (means s) (vars s))).
Proof.
  eexists. evaluated Hr. evaluated Hidx.
  match type of Hr with
  | _ = Some ?r =>
      destruct (@C2_dispersion_fit toy_env ieee (toy_conf toy_files) r "S1")
        as (_ & H2 & _); [vm_compute; reflexivity|]
  end.
  match type of H2 with
  | ?A → _ => assert (Hne : A) by (by vm_compute); specialize (H2 Hne)
  end.
  destruct H2 as (s & Hs & Hm & Hv & Hp).
  exists s. split; [exact Hs|]. rewrite Hm, Hv. exact Hp.
Defined.

Lemma C3_witness :
  ∃ r cell, run (toy_run ieee) = Some r
    ∧ r_cells r !! 1%nat = Some cell
    ∧ ∃ h s, r_calls r !! 1%nat = Some h
             ∧ r_samples r !! sample_name cell = Some s
             ∧ emissions h !! 1%nat =
               Some [mkNB (p s) (@nb_size ieee (median_bin_count cell) (p s));
                     mkNB (p s) (@nb_size ieee (median_bin_count cell) (p s))].
Proof.
  eexists _, _. evaluated Hr. evaluated Hc.
  match type of Hc with
  | r_cells ?r !! _ = Some ?c =>
      destruct (@C3_emissions_per_cell toy_env ieee (toy_conf toy_files) r
                  1%nat c)
        as (h & s & Hh & Hs & Hem); [vm_compute; reflexivity..|]
  end.
  exists h, s. split; [exact Hh|]. split; [exact Hs|].
  cbv zeta in Hem. rewrite Hem. reflexivity.
Defined.

(** The claim C4 fails as stated: with per-bin totals 1 and 2 the exact
    median is 3/2, while the stored median_bin_count is 1. *)
Lemma C4_counterexample :
  let counts := [[mkCounter 1 0 ""; mkCounter 1 1 ""]] in
  let cells := [CellInfo0] in
  median (bin_totals (counts !!! 0%nat)) = Qc_of_Z 3 / Qc_of_Z 2
  ∧ median_bin_count (assign_medians counts cells !!! 0%nat) = 1%N
  ∧ median_by_sample counts = [1%N]
  ∧ Qc_of_N (median_bin_count (assign_medians counts cells !!! 0%nat))
    ≠ median (bin_totals (counts !!! 0%nat)).
Proof.
  repeat split; compute_done.
Qed.

Lemma C4_witness :
  let counts := [[mkCounter 1 0 ""; mkCounter 1 1 ""]] in
  let cells := [CellInfo0] in
  cells !! 0%nat = Some CellInfo0
  ∧ counts !! 0%nat = Some [mkCounter 1 0 ""; mkCounter 1 1 ""]
  ∧ median_bin_count (assign_medians counts cells !!! 0%nat)
    = Z.to_N (Qfloor (median (bin_totals [mkCounter 1 0 ""; mkCounter 1 1 ""]))).
Proof.
  intros counts cells. split; [reflexivity|]. split; [reflexivity|].
  apply (C4_median_bin_count_truncated counts cells 0 CellInfo0
           [mkCounter 1 0 ""; mkCounter 1 1 ""]); reflexivity.
Defined.

(** C5.  In the toy run the second input file is dropped; the cells kept
    are those of dir/a.bam (id 0) and dir/c.bam (id 2).  In the count table
    written to out.txt the first row of the second kept cell holds the
    counts of dir/c.bam, yet its cell column is the stem of the second input
    file, "b", not "c". *)
Theorem C5_cell_column_after_drop :
  ∃ r, run (toy_run ieee) = Some r
       ∧ exit_code (toy_run ieee) = 0%Z
       ∧ written (toy_run ieee) = [("out.txt", r_table r)]
       ∧ id <$> r_cells r = [0; 2]%nat
       ∧ r_log r = [Warning "Ignoring cell dir/b.bam"]
       ∧ path_stem (toy_files !!! 2%nat) = "c"
       ∧ r_table r !! 13%nat
         = Some ["chr1"; "0"; "100"; "S1"; "b"; "5"; "6"; "WC"]
       ∧ (r_counts r !!! 1%nat) !! 0%nat = Some (mkCounter 6 5 "WC")
       ∧ fst (fst (toy_count_sorted_reads "dir/b.bam" [] [] 0 [] CellInfo0))
         = false.
Proof. eexists. split; [vm_compute; reflexivity|]. by vm_compute. Qed.



(** C7.  On the ten bins of ten.bed [p_trans] is 10.0f / 10 = 1 and the
    diagonal 1 - 2 * 1 = -1: [main] hands [set_transitions] a matrix whose
    rows sum to 1 but whose diagonal is negative, every cell is decoded with
    it, and the run ends with exit code 0 and an empty [std::cerr].  The
    three values handed to [set_initials] are the [double] 0.3333, whose
    sum stays below 1. *)
Theorem C7_negative_transition_probabilities :
  ∃ r h, run (toy_run_ten ieee) = Some r
    ∧ length (r_bins r) = 10%nat
    ∧ @p_trans ieee 10 = fone
    ∧ transitions (r_hmm r)
      = [Fin (- 1); fone; fone;
         fone; Fin (- 1); fone;
         fone; fone; Fin (- 1)]
    ∧ Exists (λ e, flt e fzero = true) (transitions (r_hmm r))
    ∧ r_calls r = [h]
    ∧ transitions h = transitions (r_hmm r)
    ∧ initials (r_hmm r) = [@f0_3333 ieee; @f0_3333 ieee; @f0_3333 ieee]
    ∧ flt (@dadd ieee (@dadd ieee (@f0_3333 ieee) (@f0_3333 ieee))
             (@f0_3333 ieee)) fone = true
    ∧ exit_code (toy_run_ten ieee) = 0%Z
    ∧ stderr (toy_run_ten ieee) = [].
Proof.
  eexists _, _. split; [vm_compute; reflexivity|].
  split; [by vm_compute|]. split; [compute_done|].
  split; [compute_done|].
  split; [apply Exists_cons_hd; by vm_compute|].
  split; [vm_compute; reflexivity|].
  split; [compute_done|]. split; [compute_done|].
  repeat split; by vm_compute.
Qed.

Lemma C8_witness :
  ∃ cells0, usage_error (toy_conf toy_files) = false
    ∧ @explore_headers toy_env toy_files = Some cells0
    ∧ @binning toy_env (toy_conf toy_files) = Some toy_bins
    ∧ let cs := @count_all toy_env toy_bins (build_chrom_map 1 toy_bins)
                  10 toy_files cells0 in
      id <$> cs_cells cs = [0; 2]%nat
      ∧ length (cs_cells cs) = length (cs_counts cs)
      ∧ cs_log cs = [Warning "Ignoring cell dir/b.bam"]
      ∧ exit_code (toy_run ieee) = 0%Z.
Proof.
  eexists. evaluated Hu. evaluated Hh. evaluated Hb.
  match type of Hh with
  | _ = Some ?c0 =>
      destruct (@C8_failed_cells_dropped toy_env ieee (toy_conf toy_files)
                  c0 toy_bins)
        as (_ & _ & _ & _ & Hlen & _ & r & _ & _ & _ & _ & _ & _ & Hexit & _);
        [vm_compute; reflexivity..|]
  end.
  split; [by vm_compute|]. split; [exact Hlen|].
  split; [by vm_compute|exact Hexit].
Defined.

Lemma C9_witness :
  ∃ r, run (toy_run ieee) = Some r
       ∧ (Z.of_nat (length (r_bins r)) < 2 ^ 31)%Z
       ∧ r_chrom_map r = [0; 12]%Z
       ∧ r_good_map r = [0; 10]%Z
       ∧ last (r_good_map r) = Some (Z.of_nat (length (r_good_bins r))).
Proof.
  eexists. evaluated Hr. evaluated Hsize.
  split; [by vm_compute|]. split; [by vm_compute|].
  match type of Hr with
  | _ = Some ?r =>
      destruct (@C9_chromosome_indices_monotone toy_env ieee
                  (toy_conf toy_files) r)
        as (_ & _ & _ & _ & _ & Hlast); [vm_compute; reflexivity..|]
  end.
  exact Hlast.
Defined.

Lemma C10_witness :
  let cnt := [mkCounter 0 0 ""; mkCounter 0 0 ""; mkCounter 3 4 ""] in
  [CellInfo0] !! 0%nat = Some CellInfo0
  ∧ [cnt] !! 0%nat = Some cnt
  ∧ (2 < 3)%nat
  ∧ median_bin_count (assign_medians [cnt] [CellInfo0] !!! 0%nat) = 0%N
  ∧ @norm_counts ieee 3 [cnt] (assign_medians [cnt] [CellInfo0]) !! 0%nat
      ≫= (.!! 2%nat)
    = Some (Inf false, Inf false).
Proof.
  intros cnt. split; [reflexivity|]. split; [reflexivity|]. split; [lia|].
  destruct (@C10_normalisation_divides_by_median ieee 3 [cnt] [CellInfo0] 0 2
              CellInfo0 cnt) as (Hm & Hrow & _ & _);
    [reflexivity|reflexivity|lia|].
  split; [by rewrite Hm|].
  rewrite Hrow. by vm_compute.
Defined.

(** * Further properties of the pipeline *)

Section more_properties.
Context `{External} `{Rounding}.

(** ** Option checks, header pre-scan and exit codes (lines 105-170) *)

Lemma lookup_zip_seq {A} (l : list A) (i : nat) (x : A) :
  l !! i = Some x → zip (seq 0 (length l)) l !! i = Some (i, x).
Proof.
  intros Hx. apply lookup_zip_with_Some. exists i, x.
  split; [done|]. split; [|done].
  apply lookup_seq. split; [done|]. by eapply lookup_lt_Some.
Qed.

Lemma explore_headers_lookup (f_in : list string) (cells0 : list CellInfo)
    (i : nat) (file : string) :
  explore_headers f_in = Some cells0 →
  f_in !! i = Some file →
  ∃ c, cells0 !! i = Some c
       ∧ id c = i
       ∧ sam_open file = true
       ∧ get_SM_tag file = Some (sample_name c).
Proof.
  intros Hh Hfile. unfold explore_headers in Hh.
  apply mapM_Some_1 in Hh.
  destruct (Forall2_lookup_l _ _ _ i _ Hh (lookup_zip_seq _ _ _ Hfile))
    as (c & Hc & Hf).
  exists c. split; [done|]. simpl in Hf. unfold explore_header in Hf.
  destruct (sam_open file); [|done].
  destruct (get_SM_tag file) as [sm|]; [|done]. simpl in Hf.
  by injection Hf as <-.
Qed.

Lemma explore_headers_None (f_in : list string) :
  explore_headers f_in = None →
  ∃ file, file ∈ f_in ∧ (sam_open file = false ∨ get_SM_tag file = None).
Proof.
  intros Hh. unfold explore_headers in Hh.
  apply mapM_None_1, Exists_exists in Hh.
  destruct Hh as ([i file] & Hin & Hnone).
  exists file. split; [by eapply elem_of_zip_r|].
  unfold explore_header in Hnone.
  destruct (sam_open file); [right|by left].
  by destruct (get_SM_tag file).
Qed.

Lemma explore_headers_None_iff (f_in : list string) :
  explore_headers f_in = None
  ↔ ∃ file, file ∈ f_in ∧ (sam_open file = false ∨ get_SM_tag file = None).
Proof.
  split; [apply explore_headers_None|].
  intros (file & Hin & Hbad).
  destruct (explore_headers f_in) as [cells0|] eqn:Hh; [|done].
  apply list_elem_of_lookup in Hin as [i Hi].
  destruct (explore_headers_lookup _ _ _ _ Hh Hi) as (c & _ & _ & Hopen & Htag).
  destruct Hbad; congruence.
Qed.

(** X1.  The header pre-scan either fails, exactly when some input file
    cannot be opened or has no single SM tag, or yields one cell per input
    file, in order, whose [id] is the file's position and whose sample name
    is the file's tag. *)
Theorem explore_headers_outcome (f_in : list string) :
  match explore_headers f_in with
  | Some cells0 =>
      length cells0 = length f_in
      ∧ ∀ i file, f_in !! i = Some file →
          ∃ c, cells0 !! i = Some c
               ∧ id c = i
               ∧ sam_open file = true
               ∧ get_SM_tag file = Some (sample_name c)
  | None =>
      ∃ file, file ∈ f_in ∧ (sam_open file = false ∨ get_SM_tag file = None)
  end.
Proof.
  destruct (explore_headers f_in) as [cells0|] eqn:Hh.
  - split; [by apply length_explore_headers|].
    intros i file Hfile. by eapply explore_headers_lookup.
  - by apply explore_headers_None.
Qed.

(** X2.  [main] returns 1, before any counting and without writing a file,
    exactly when the options are unusable (-w together with -b, -x together
    with -b, --help, or no input file), or the header of some input file
    cannot be opened or lacks a single SM tag, or the bin file cannot be
    read.  In every other case, the functions it calls returning, [main]
    reaches the count table, and returns 2 when the table cannot be opened
    and 0 when it was written. *)
Theorem main_exit_code (conf : Conf) :
  (run (main conf) = None
   ↔ usage_error conf = true
     ∨ (∃ file, file ∈ f_in conf
                ∧ (sam_open file = false ∨ get_SM_tag file = None))
     ∨ binning conf = None)
  ∧ (usage_error conf = true
     ↔ (is_Some (window conf) ∧ is_Some (f_bins conf))
       ∨ (is_Some (f_bins conf) ∧ is_Some (f_excl conf))
       ∨ help conf = true
       ∨ f_in conf = [])
  ∧ (run (main conf) = None
     → exit_code (main conf) = 1%Z ∧ written (main conf) = [])
  ∧ (is_Some (run (main conf))
     → exit_code (main conf) = (if is_open (f_out conf) then 0 else 2)%Z)
  ∧ (exit_code (main conf) = 1%Z ↔ run (main conf) = None)
  ∧ (exit_code (main conf) = 2%Z
     ↔ is_Some (run (main conf)) ∧ is_open (f_out conf) = false)
  ∧ (exit_code (main conf) = 0%Z
     ↔ is_Some (run (main conf)) ∧ is_open (f_out conf) = true).
Proof.
  assert (Husage : usage_error conf = true
     ↔ (is_Some (window conf) ∧ is_Some (f_bins conf))
       ∨ (is_Some (f_bins conf) ∧ is_Some (f_excl conf))
       ∨ help conf = true
       ∨ f_in conf = []).
  { unfold usage_error, window_and_bins, bins_and_exclude, help_or_no_input.
    rewrite !orb_true_iff, !andb_true_iff, !bool_decide_eq_true. tauto. }
  assert (Hcases :
    (usage_error conf = true ∧ run (main conf) = None
       ∧ exit_code (main conf) = 1%Z ∧ written (main conf) = [])
    ∨ (usage_error conf = false ∧ explore_headers (f_in conf) = None
       ∧ run (main conf) = None
       ∧ exit_code (main conf) = 1%Z ∧ written (main conf) = [])
    ∨ (usage_error conf = false ∧ is_Some (explore_headers (f_in conf))
       ∧ binning conf = None ∧ run (main conf) = None
       ∧ exit_code (main conf) = 1%Z ∧ written (main conf) = [])
    ∨ (usage_error conf = false ∧ is_Some (explore_headers (f_in conf))
       ∧ is_Some (binning conf) ∧ is_Some (run (main conf))
       ∧ exit_code (main conf) = (if is_open (f_out conf) then 0 else 2)%Z)).
  { unfold main, usage_error.
    destruct (window_and_bins conf); [by left|].
    destruct (bins_and_exclude conf); [by left|].
    destruct (help_or_no_input conf); [by left|].
    right. simpl.
    destruct (explore_headers (f_in conf)) as [cells0|]; [|by left].
    right.
    destruct (binning conf) as [bins|]; [right|left]; by repeat split. }
  split; [|split; [done|]].
  { rewrite <-explore_headers_None_iff.
    destruct Hcases as [(Hu & Hr & _)|[(Hu & Hh & Hr & _)|
      [(Hu & Hh & Hb & Hr & _)|(Hu & [? Hh] & [? Hb] & [? Hr] & _)]]].
    - tauto.
    - tauto.
    - tauto.
    - rewrite Hu, Hh, Hb, Hr. split; [done|]. by intros [?|[?|?]]. }
  destruct Hcases as [(Hu & Hr & He & Hw)|[(Hu & Hh & Hr & He & Hw)|
      [(Hu & Hh & Hb & Hr & He & Hw)|(Hu & Hh & Hb & [r Hr] & He)]]];
    rewrite ?Hr, ?He, ?Hw.
  1-3: repeat split; try done; by intros [[? ?] _].
  destruct (is_open (f_out conf)); repeat split; try done; by intros [_ ?].
Qed.

(** ** Counting loop (lines 205-214) *)

(** The invariant of the loop on a prefix of the file list: behind the kept
    entries lie the untouched entries of the files still to come. *)
Lemma count_fold_prefix (bins : list Interval) (chrom_map : list Z) (q : Z)
    (files : list string) (rest more : list CellInfo) (m : nat)
    (kept_counts : list TGenomeCounts) (kept_cells : list CellInfo)
    (log : list diagnostic) :
  length rest = length files →
  length kept_counts = length kept_cells →
  let tries := attempts bins chrom_map q files rest in
  foldl (count_step bins chrom_map q)
    (mkCountState (length kept_counts)
       (kept_counts ++ replicate (length files + m) [])
       (kept_cells ++ rest ++ more) log)
    files
  = mkCountState
      (length kept_counts + length (filter succeeded tries))
      (kept_counts ++ (attempt_counts <$> filter succeeded tries)
         ++ replicate m [])
      (kept_cells ++ (attempt_cell <$> filter succeeded tries) ++ more)
      (log ++ (attempt_warning <$> filter (λ a, ¬ succeeded a) tries)).
Proof.
  revert rest kept_counts kept_cells log.
  induction files as [|file files IH];
    intros rest kept_counts kept_cells log Hrest Hkept; simpl.
  - destruct rest; [|done]. simpl.
    by rewrite app_nil_r, Nat.add_0_r.
  - destruct rest as [|cell0 rest]; [done|].
    injection Hrest as Hrest.
    unfold count_step at 2. cbn [cs_i cs_counts cs_cells cs_log].
    cbn [app]. rewrite !list_lookup_total_middle by done.
    unfold attempts. cbn [zip zip_with fmap list_fmap fst snd].
    fold (attempts bins chrom_map q files rest).
    destruct (count_sorted_reads file bins chrom_map q [] cell0)
      as [[ok cnt] cell] eqn:Hcall.
    destruct ok.
    + rewrite filter_cons_True by done.
      rewrite filter_cons_False by (unfold succeeded; simpl; tauto).
      rewrite !insert_middle by done.
      replace (kept_counts ++ cnt :: replicate (length files + m) [])
        with ((kept_counts ++ [cnt]) ++ replicate (length files + m) [])
        by (by rewrite <-app_assoc).
      replace (kept_cells ++ cell :: rest ++ more)
        with ((kept_cells ++ [cell]) ++ rest ++ more)
        by (by rewrite <-app_assoc).
      replace (S (length kept_counts)) with (length (kept_counts ++ [cnt]))
        by (rewrite length_app; simpl; lia).
      rewrite IH; [|done|rewrite !length_app; simpl; lia].
      rewrite !fmap_cons, length_app, <-!app_assoc. simpl.
      f_equal. lia.
    + rewrite filter_cons_False by (unfold succeeded; simpl; tauto).
      rewrite filter_cons_True by (unfold succeeded; simpl; tauto).
      rewrite !delete_at_middle by done.
      rewrite IH by done.
      rewrite fmap_cons. f_equal. by rewrite <-app_assoc.
Qed.

(** X3.  Whatever happened to the earlier files, when the loop reaches a file
    the index [i] is in range, [counts[i]] is still the empty vector and
    [cells[i]] is the cell the pre-scan made for that very file. *)
Theorem count_loop_reads_own_entry (bins : list Interval)
    (chrom_map : list Z) (q : Z) (files1 files2 : list string)
    (file : string) (cells0 : list CellInfo) :
  length cells0 = length (files1 ++ file :: files2) →
  let f_in := files1 ++ file :: files2 in
  let st := foldl (count_step bins chrom_map q)
              (mkCountState 0 (replicate (length f_in) []) cells0 [])
              files1 in
  (cs_i st < length (cs_counts st))%nat
  ∧ length (cs_counts st) = length (cs_cells st)
  ∧ cs_counts st !! cs_i st = Some []
  ∧ cs_cells st !! cs_i st = cells0 !! length files1
  ∧ is_Some (cells0 !! length files1).
Proof.
  intros Hlen f_in st.
  rewrite length_app in Hlen. simpl in Hlen.
  assert (Hsplit : cells0 = take (length files1) cells0
                            ++ drop (length files1) cells0)
    by by rewrite take_drop.
  assert (Ht : length (take (length files1) cells0) = length files1)
    by (rewrite length_take; lia).
  destruct (drop (length files1) cells0) as [|cell rest] eqn:Hdrop.
  { apply (f_equal length) in Hdrop. rewrite length_drop in Hdrop.
    simpl in Hdrop. lia. }
  assert (Hcell : cells0 !! length files1 = Some cell).
  { rewrite Hsplit. by apply list_lookup_middle. }
  pose proof (count_fold_prefix bins chrom_map q files1
                (take (length files1) cells0) (cell :: rest)
                (S (length files2)) [] [] [] Ht eq_refl) as Hfold.
  cbv zeta in Hfold. cbn [length app] in Hfold. rewrite <-Hsplit in Hfold.
  unfold st, f_in. rewrite length_app. simpl length.
  rewrite Hfold. cbn [cs_i cs_counts cs_cells].
  set (ok := filter succeeded _).
  rewrite !Nat.add_0_l.
  assert (Hi1 : length ok = length (attempt_counts <$> ok))
    by by rewrite length_fmap.
  assert (Hi2 : length ok = length (attempt_cell <$> ok))
    by by rewrite length_fmap.
  split; [rewrite length_app, length_fmap; simpl; lia|].
  split.
  { rewrite !length_app, !length_fmap, length_replicate.
    apply (f_equal length) in Hdrop. rewrite length_drop in Hdrop.
    simpl in *. lia. }
  split; [by apply list_lookup_middle|].
  split; [|by eexists].
  rewrite Hcell. by apply list_lookup_middle.
Qed.

(** ** Which file a retained cell comes from *)

Lemma StronglySorted_filter {A} (R : relation A) (P : A → Prop)
    `{!∀ x, Decision (P x)} (l : list A) :
  StronglySorted R l → StronglySorted R (filter P l).
Proof.
  induction 1 as [|x l Hs IH Hall]; [constructor|].
  destruct (decide (P x)).
  - rewrite filter_cons_True by done. constructor; [done|].
    apply Forall_forall. intros y [_ Hy]%list_elem_of_filter.
    rewrite Forall_forall in Hall. auto.
  - by rewrite filter_cons_False.
Qed.

Lemma StronglySorted_fmap_inv {A B} (f : A → B) (R : relation B)
    (l : list A) :
  StronglySorted R (f <$> l) → StronglySorted (λ x y, R (f x) (f y)) l.
Proof.
  induction l as [|x l IH]; [constructor|].
  rewrite fmap_cons. intros Hs. inversion Hs as [|? ? Hs' Hall]; subst.
  constructor; [auto|].
  rewrite Forall_fmap in Hall. exact Hall.
Qed.

Lemma StronglySorted_lt_seq (j n : nat) : StronglySorted lt (seq j n).
Proof.
  revert j. induction n as [|n IH]; intros j; simpl; constructor; [done|].
  apply Forall_forall. intros k Hk%elem_of_seq. lia.
Qed.

Lemma StronglySorted_lt_lookup_from (l : list nat) (b i x : nat) :
  StronglySorted lt l → Forall (λ y, b ≤ y)%nat l → l !! i = Some x →
  (b + i ≤ x)%nat.
Proof.
  intros Hs. revert b i x.
  induction Hs as [|y l Hs IH Hall]; intros b i x Hb Hx; [done|].
  apply Forall_cons_1 in Hb as [Hby Hb].
  destruct i as [|i]; simpl in Hx; [injection Hx as <-; lia|].
  assert (S y + i ≤ x)%nat; [|lia].
  apply IH; [|done].
  eapply Forall_impl; [exact Hall|]. simpl. lia.
Qed.

Lemma StronglySorted_lt_lookup (l : list nat) (i x : nat) :
  StronglySorted lt l → l !! i = Some x → (i ≤ x)%nat.
Proof.
  intros Hs Hx.
  apply (StronglySorted_lt_lookup_from l 0 i x Hs); [|done].
  apply Forall_forall. intros; lia.
Qed.

(** With a counting function that leaves the [id] of the cell alone, the
    attempt on the file at position [k] ends with a cell of [id] [k]. *)
Lemma attempts_ids (bins : list Interval) (chrom_map : list Z) (q : Z)
    (f_in : list string) (cells0 : list CellInfo) :
  (∀ file b cm mq cnt cell,
     id (snd (count_sorted_reads file b cm mq cnt cell)) = id cell) →
  explore_headers f_in = Some cells0 →
  (λ a, id (attempt_cell a)) <$> attempts bins chrom_map q f_in cells0
  = seq 0 (length f_in).
Proof.
  intros Hid Hh.
  pose proof (length_explore_headers _ _ Hh) as Hlen.
  pose proof (λ i file, explore_headers_lookup f_in cells0 i file Hh) as Ho.
  apply list_eq_same_length with (length f_in).
  - apply length_seq.
  - unfold attempts. rewrite !length_fmap, length_zip. lia.
  - intros k x y Hk Hx Hy.
    apply lookup_seq in Hy as [-> _]. simpl.
    unfold attempts in Hx. rewrite <-list_fmap_compose in Hx.
    rewrite list_lookup_fmap in Hx.
    destruct (zip f_in cells0 !! k) as [[file c]|] eqn:Hz; [|done].
    simpl in Hx. injection Hx as <-.
    apply lookup_zip_with_Some in Hz as (file' & c' & [= <- <-] & Hf & Hc).
    unfold attempt_cell. simpl. rewrite Hid.
    destruct (Ho k file Hf) as (c'' & Hc'' & Hidc & _). congruence.
Qed.

Lemma count_all_origin (f_in : list string)
    (bins : list Interval) (q : Z) (cells0 : list CellInfo) :
  (∀ file b cm mq cnt cell,
     id (snd (count_sorted_reads file b cm mq cnt cell)) = id cell) →
  explore_headers f_in = Some cells0 →
  let chrom_map := build_chrom_map n_targets bins in
  let cs := count_all bins chrom_map q f_in cells0 in
  StronglySorted lt (id <$> cs_cells cs)
  ∧ ∀ i c, cs_cells cs !! i = Some c →
      (i ≤ id c)%nat
      ∧ ∃ file c0 cnt,
          f_in !! id c = Some file
          ∧ cells0 !! id c = Some c0
          ∧ cs_counts cs !! i = Some cnt
          ∧ count_sorted_reads file bins chrom_map q [] c0 = (true, cnt, c).
Proof.
  intros Hid Hh chrom_map cs.
  pose proof (length_explore_headers _ _ Hh) as Hlen.
  pose proof (attempts_ids bins chrom_map q f_in cells0 Hid Hh) as Hids.
  assert (Hcs : cs = _) by apply (count_all_spec bins chrom_map q _ _ Hlen).
  set (tries := attempts bins chrom_map q f_in cells0) in *.
  assert (Hsorted : StronglySorted lt (id <$> cs_cells cs)).
  { rewrite Hcs. cbn [cs_cells]. rewrite <-list_fmap_compose.
    assert (Hs : StronglySorted (λ a b, (id (attempt_cell a) < id (attempt_cell b))%nat)
                   (filter succeeded tries)).
    { apply StronglySorted_filter.
      apply (StronglySorted_fmap_inv (λ a, id (attempt_cell a)) lt).
      rewrite Hids. apply StronglySorted_lt_seq. }
    exact (StronglySorted_fmap (id ∘ attempt_cell) _ lt _ (λ _ _ Hlt, Hlt) Hs). }
  split; [done|].
  intros i c Hc. split.
  { apply (StronglySorted_lt_lookup (id <$> cs_cells cs)); [done|].
    by rewrite list_lookup_fmap, Hc. }
  rewrite Hcs in Hc |- *. cbn [cs_cells cs_counts] in *.
  rewrite list_lookup_fmap in Hc.
  destruct (filter succeeded tries !! i) as [a|] eqn:Ha; [|done].
  simpl in Hc. injection Hc as <-.
  pose proof (list_elem_of_lookup_2 _ _ _ Ha) as Hin.
  apply list_elem_of_filter in Hin as [Hok Hin].
  apply list_elem_of_lookup in Hin as [k Hk].
  assert (Hidk : id (attempt_cell a) = k).
  { assert (E : seq 0 (length f_in) !! k = Some (id (attempt_cell a))).
    { by rewrite <-Hids, list_lookup_fmap, Hk. }
    apply lookup_seq in E as [E _]. lia. }
  unfold tries, attempts in Hk. rewrite list_lookup_fmap in Hk.
  destruct (zip f_in cells0 !! k) as [[file c0]|] eqn:Hz; [|done].
  simpl in Hk. injection Hk as <-.
  apply lookup_zip_with_Some in Hz as (file' & c' & [= <- <-] & Hf & Hc0).
  exists file, c0,
    (snd (fst (count_sorted_reads file bins chrom_map q [] c0))).
  rewrite Hidk. split; [done|]. split; [done|].
  split.
  { rewrite list_lookup_fmap, Ha. done. }
  unfold succeeded in Hok. simpl in Hok. unfold attempt_cell. simpl.
  destruct (count_sorted_reads file bins chrom_map q [] c0) as [[ok cnt] c].
  simpl in *. by destruct ok.
Qed.

(** X4.  If counting leaves the [id] of a cell alone, the cells kept after
    counting have strictly increasing ids; the cell at position [i] has an
    [id] of at least [i], [conf.f_in[id]] is the file it was counted from,
    and [counts[i]] holds what counting returned for that file. *)
Theorem retained_cells_keep_their_file (f_in : list string)
    (bins : list Interval) (q : Z) (cells0 : list CellInfo) :
  (∀ file b cm mq cnt cell,
     id (snd (count_sorted_reads file b cm mq cnt cell)) = id cell) →
  explore_headers f_in = Some cells0 →
  let chrom_map := build_chrom_map n_targets bins in
  let cs := count_all bins chrom_map q f_in cells0 in
  StronglySorted lt (id <$> cs_cells cs)
  ∧ ∀ i c, cs_cells cs !! i = Some c →
      (i ≤ id c)%nat
      ∧ ∃ file c0 cnt,
          f_in !! id c = Some file
          ∧ cells0 !! id c = Some c0
          ∧ cs_counts cs !! i = Some cnt
          ∧ count_sorted_reads file bins chrom_map q [] c0 = (true, cnt, c).
Proof. apply count_all_origin. Qed.

(** ** Median loop (lines 217-222) *)

(** X5.  The median loop keeps the number of cells and changes nothing in a
    cell but its median_bin_count: the [id], the sample name and the read
    tallies are as counting left them, and a cell without counters is left
    untouched. *)
Theorem assign_medians_frame (counts : list TGenomeCounts)
    (cells : list CellInfo) (i : nat) (c : CellInfo) :
  cells !! i = Some c →
  length (assign_medians counts cells) = length cells
  ∧ ∃ c', assign_medians counts cells !! i = Some c'
          ∧ id c' = id c
          ∧ sample_name c' = sample_name c
          ∧ (n_mapped c', n_supplementary c', n_pcr_dups c', n_low_mapq c',
             n_read2s c', n_counted c')
            = (n_mapped c, n_supplementary c, n_pcr_dups c, n_low_mapq c,
               n_read2s c, n_counted c)
          ∧ (∀ cnt, counts !! i = Some cnt →
               median_bin_count c' = cell_median cnt)
          ∧ (counts !! i = None → c' = c).
Proof.
  intros Hc. split; [apply length_assign_medians|].
  unfold assign_medians.
  rewrite (proj2 (assign_medians_prefix counts cells (length counts))), Hc.
  case_decide as Hi.
  - eexists. split; [done|]. simpl. repeat split; try done.
    + intros cnt Hcnt. by rewrite (list_lookup_total_correct _ _ _ Hcnt).
    + intros Hnone%lookup_ge_None. lia.
  - exists c. repeat split; try done.
    intros cnt Hcnt%lookup_lt_Some. lia.
Qed.

(** ** Good bins (lines 294-298) *)

Lemma good_bins_filter (nbins : nat) (counts : list TGenomeCounts)
    (cells : list CellInfo) :
  let bm := bin_means nbins (norm_counts nbins counts cells) in
  filter_bins nbins counts cells
  = (filter (λ bin, is_good (my_mean bm) (my_sd bm) (bm !!! bin))
       (seq 0 nbins),
     (λ bin, bad_tag (bm !!! bin))
       <$> filter (λ bin, ¬ is_good (my_mean bm) (my_sd bm) (bm !!! bin))
             (seq 0 nbins)).
Proof.
  intros bm. unfold filter_bins, classify_bins. by rewrite classify_fold.
Qed.

(** X6.  The good bins are listed in strictly increasing order, without
    repetition, and each is the index of an existing bin, so every
    [bins[good_bins[k]]] and [counts[i][good_bins[k]]] is in range. *)
Theorem good_bins_increasing (nbins : nat) (counts : list TGenomeCounts)
    (cells : list CellInfo) :
  let good := fst (filter_bins nbins counts cells) in
  StronglySorted lt good
  ∧ NoDup good
  ∧ Forall (λ g, g < nbins)%nat good.
Proof.
  intros good. unfold good. rewrite good_bins_filter. simpl.
  split; [|split].
  - apply StronglySorted_filter, StronglySorted_lt_seq.
  - apply NoDup_filter, NoDup_seq.
  - apply Forall_forall. intros g [_ Hg%elem_of_seq]%list_elem_of_filter. lia.
Qed.

(** ** Removed-bins report (lines 303-320) *)

Lemma seq_split (m n : nat) :
  (m < n)%nat → seq 0 n = seq 0 m ++ m :: seq (S m) (n - S m).
Proof.
  intros Hm. replace n with (m + S (n - S m))%nat at 1 by lia.
  by rewrite seq_app.
Qed.

Lemma removed_loop_prefix (bins : list Interval) (P : nat → Prop)
    `{!∀ x, Decision (P x)} (tag : nat → ascii) (n m : nat) :
  (m ≤ n)%nat →
  let good := filter P (seq 0 n) in
  let bad := tag <$> filter (λ x, ¬ P x) (seq 0 n) in
  foldl (removed_step bins good bad) (mkRemovedState 0 0 []) (seq 0 m)
  = mkRemovedState
      (length (filter P (seq 0 m)))
      (length (filter (λ x, ¬ P x) (seq 0 m)))
      ((λ bin, removed_row bins bin (tag bin))
         <$> filter (λ x, ¬ P x) (seq 0 m)).
Proof.
  intros Hm good bad. induction m as [|m IH]; [done|].
  rewrite seq_S, foldl_app, IH by lia. simpl.
  rewrite (filter_app P), (filter_app (λ x, ¬ P x)).
  assert (Hgood : good = filter P (seq 0 m)
                         ++ filter P (m :: seq (S m) (n - S m))).
  { unfold good. by rewrite (seq_split m n), filter_app by lia. }
  assert (Hbad : bad = (tag <$> filter (λ x, ¬ P x) (seq 0 m))
                       ++ (tag <$> filter (λ x, ¬ P x)
                                     (m :: seq (S m) (n - S m)))).
  { unfold bad. by rewrite (seq_split m n), filter_app, fmap_app by lia. }
  clearbody good bad. subst good bad.
  unfold removed_step. cbn [rs_goodit rs_badit rs_out].
  destruct (decide (P m)) as [HP|HP].
  - rewrite !(filter_cons_True P) by done.
    rewrite !(filter_cons_False (λ x, ¬ P x)) by tauto.
    rewrite !filter_nil, !app_nil_r, !length_app. simpl.
    rewrite bool_decide_eq_false_2 by lia.
    rewrite list_lookup_total_middle by done.
    rewrite bool_decide_eq_false_2 by lia. simpl.
    rewrite bool_decide_eq_true_2 by lia.
    f_equal. lia.
  - rewrite !(filter_cons_False P) by done.
    rewrite !(filter_cons_True (λ x, ¬ P x)) by done.
    rewrite !filter_nil, !app_nil_r, !length_app, fmap_app, fmap_cons. simpl.
    rewrite (list_lookup_total_middle _ _ (tag m)) by by rewrite length_fmap.
    assert (Hcond :
      bool_decide (length (filter P (seq 0 m))
                   = length (filter P (seq 0 m))
                     + length (filter P (seq (S m) (n - S m))))%nat
      || bool_decide
           (m < (filter P (seq 0 m) ++ filter P (seq (S m) (n - S m)))
                  !!! length (filter P (seq 0 m)))%nat
      = true).
    { destruct (filter P (seq (S m) (n - S m))) as [|g tail] eqn:Htail.
      - simpl. by rewrite bool_decide_eq_true_2 by lia.
      - assert (Hg : g ∈ filter P (seq (S m) (n - S m)))
          by (rewrite Htail; apply list_elem_of_here).
        apply list_elem_of_filter in Hg as [_ Hg%elem_of_seq].
        rewrite list_lookup_total_middle by done.
        rewrite (bool_decide_eq_true_2 (m < g)%nat) by lia.
        apply orb_true_r. }
    rewrite Hcond. f_equal. lia.
Qed.

Lemma filter_ext_in {A} (P1 P2 : A → Prop)
    `{!∀ x, Decision (P1 x), !∀ x, Decision (P2 x)} (l : list A) :
  (∀ x, x ∈ l → P1 x ↔ P2 x) → filter P1 l = filter P2 l.
Proof.
  induction l as [|a l IH]; intros Hiff; [done|].
  assert (Ha : P1 a ↔ P2 a) by (apply Hiff; left).
  assert (Hl : filter P1 l = filter P2 l)
    by (apply IH; intros x Hx; apply Hiff; by right).
  destruct (decide (P1 a)).
  - rewrite !filter_cons_True by tauto. by rewrite Hl.
  - rewrite !filter_cons_False by tauto. done.
Qed.

(** X7.  On the output of the filter, the removed-bins loop writes exactly
    one row per bad bin, in bin order, each with the coordinates of that bin
    and its own reason code; [goodit] and [badit] stay in range, and the
    assertion [badit == bad_bins.end()] of line 316 holds.  Together with
    the good bins the rows account for every bin. *)
Theorem removed_bins_report_complement (bins : list Interval)
    (counts : list TGenomeCounts) (cells : list CellInfo) :
  let nbins := length bins in
  let bm := bin_means nbins (norm_counts nbins counts cells) in
  let good := fst (filter_bins nbins counts cells) in
  let bad := snd (filter_bins nbins counts cells) in
  let removed := filter (λ bin, bin ∉ good) (seq 0 nbins) in
  removed_bins_report bins good bad
  = ((λ bin, removed_row bins bin (bad_tag (bm !!! bin))) <$> removed, true)
  ∧ (length (fst (removed_bins_report bins good bad)) + length good
     = nbins)%nat
  ∧ rs_goodit (removed_loop bins good bad) = length good.
Proof.
  intros nbins bm good bad removed.
  pose proof (good_bins_filter nbins counts cells) as Hf. cbv zeta in Hf.
  fold bm in Hf.
  set (P := λ bin : nat, Is_true (is_good (my_mean bm) (my_sd bm) (bm !!! bin)))
    in *.
  assert (Hgood : good = filter P (seq 0 nbins)) by (unfold good; by rewrite Hf).
  assert (Hbad : bad = (λ bin, bad_tag (bm !!! bin))
                         <$> filter (λ x, ¬ P x) (seq 0 nbins))
    by (unfold bad; by rewrite Hf).
  assert (Hrem : removed = filter (λ x, ¬ P x) (seq 0 nbins)).
  { unfold removed. apply filter_ext_in. intros bin Hbin.
    rewrite Hgood, list_elem_of_filter. tauto. }
  pose proof (removed_loop_prefix bins P (λ bin, bad_tag (bm !!! bin))
                nbins nbins (le_n _)) as Hloop.
  cbv zeta in Hloop. rewrite <-Hgood, <-Hbad in Hloop.
  change (foldl _ _ (seq 0 nbins)) with (removed_loop bins good bad) in Hloop.
  unfold removed_bins_report. rewrite Hloop. cbn [rs_out rs_badit rs_goodit fst].
  split; [|split].
  - rewrite Hrem. f_equal.
    apply bool_decide_eq_true_2. by rewrite Hbad, length_fmap.
  - rewrite length_fmap, Hgood, Nat.add_comm, filter_split_length.
    apply length_seq.
  - by rewrite Hgood.
Qed.

(** ** Degenerate medians and empty inputs in the filter (lines 266-298) *)

Lemma exact_add_nonneg (a b : fl) :
  nonneg_or_nan a → nonneg_or_nan b → nonneg_or_nan (exact_add a b).
Proof.
  destruct a as [x|s|], b as [y|t|]; simpl; try done.
  - intros Hx Hy. by apply Qcplus_nonneg_nonneg.
  - intros -> ->. done.
Qed.

Lemma fadd_nonneg (a b : fl) :
  nonneg_or_nan a → nonneg_or_nan b → nonneg_or_nan (fadd a b).
Proof. intros Ha Hb. by apply rnd_nonneg_or_nan, exact_add_nonneg. Qed.

Lemma fadd_inf_or_nan_l (a b : fl) :
  inf_or_nan a → nonneg_or_nan b → inf_or_nan (fadd a b).
Proof.
  intros Ha Hb. unfold fadd.
  assert (Hex : inf_or_nan (exact_add a b)).
  { destruct Ha as [-> | ->]; destruct b as [y|t|]; simpl in *; subst;
      unfold inf_or_nan; auto. }
  by rewrite rnd_inf_or_nan.
Qed.

Lemma fadd_inf_or_nan_r (a b : fl) :
  nonneg_or_nan a → inf_or_nan b → inf_or_nan (fadd a b).
Proof.
  intros Ha Hb. unfold fadd.
  assert (Hex : inf_or_nan (exact_add a b)).
  { destruct Hb as [-> | ->]; destruct a as [x|s|]; simpl in *; subst;
      unfold inf_or_nan; auto. }
  by rewrite rnd_inf_or_nan.
Qed.

Lemma foldl_fadd_nonneg (xs : list fl) (acc : fl) :
  nonneg_or_nan acc → Forall nonneg_or_nan xs →
  nonneg_or_nan (foldl fadd acc xs).
Proof.
  revert acc. induction xs as [|x xs IH]; intros acc Hacc Hxs; [done|].
  apply Forall_cons_1 in Hxs as [Hx Hxs]. simpl.
  apply IH; [by apply fadd_nonneg|done].
Qed.

Lemma foldl_fadd_inf_or_nan_acc (xs : list fl) (acc : fl) :
  inf_or_nan acc → Forall nonneg_or_nan xs →
  inf_or_nan (foldl fadd acc xs).
Proof.
  revert acc. induction xs as [|x xs IH]; intros acc Hacc Hxs; [done|].
  apply Forall_cons_1 in Hxs as [Hx Hxs]. simpl.
  apply IH; [by apply fadd_inf_or_nan_l|done].
Qed.

Lemma foldl_fadd_inf_or_nan (xs : list fl) (acc : fl) :
  nonneg_or_nan acc → Forall nonneg_or_nan xs → Exists inf_or_nan xs →
  inf_or_nan (foldl fadd acc xs).
Proof.
  intros Hacc Hxs Hex. revert acc Hacc Hxs.
  induction Hex as [x xs Hx|x xs Hex IH]; intros acc Hacc Hxs;
    apply Forall_cons_1 in Hxs as [Hx' Hxs]; simpl.
  - apply foldl_fadd_inf_or_nan_acc; [by apply fadd_inf_or_nan_r|done].
  - apply IH; [by apply fadd_nonneg|done].
Qed.

Lemma fl_of_nat_zero : fl_of_nat 0 = fzero.
Proof.
  unfold fl_of_nat. replace (Qc_of_nat 0) with (Q2Qc 0) by (by apply Qc_is_canon).
  apply round_zero.
Qed.

Lemma fl_of_N_nonneg_or_nan (n : N) : nonneg_or_nan (fl_of_N n).
Proof. by destruct (fl_of_N_nonneg n) as [(q & -> & Hq)| ->]. Qed.

Lemma fl_of_nat_nonneg_or_nan (n : nat) : nonneg_or_nan (fl_of_nat n).
Proof. by destruct (fl_of_nat_nonneg n) as [(q & -> & Hq)| ->]. Qed.

Lemma fdiv_nonneg (a b : fl) :
  nonneg_or_nan a → nonneg_or_nan b → nonneg_or_nan (fdiv a b).
Proof.
  intros Ha Hb. apply rnd_nonneg_or_nan.
  destruct a as [x|s|], b as [y|t|]; simpl in *; subst; try done.
  - repeat case_bool_decide; simpl; try done.
    + by apply Qc_neg_nonneg.
    + by apply Qcdiv_nonneg.
  - by rewrite Qc_neg_nonneg.
Qed.

Lemma fdiv_inf_or_nan_l (a b : fl) :
  inf_or_nan a → nonneg_or_nan b → inf_or_nan (fdiv a b).
Proof.
  intros Ha Hb. unfold fdiv.
  assert (Hex : inf_or_nan (exact_div a b)).
  { destruct Ha as [-> | ->]; destruct b as [y|t|]; simpl in *; subst;
      unfold inf_or_nan; auto.
    left. by rewrite Qc_neg_nonneg. }
  by rewrite rnd_inf_or_nan.
Qed.

Lemma fdiv_count_nonneg (w m : N) :
  nonneg_or_nan (fdiv (fl_of_N w) (fl_of_N m)).
Proof. apply fdiv_nonneg; apply fl_of_N_nonneg_or_nan. Qed.

Lemma fdiv_count_by_zero (w : N) :
  inf_or_nan (fdiv (fl_of_N w) (fl_of_N 0)).
Proof.
  rewrite fl_of_N_zero. unfold fdiv, fzero.
  assert (Hex : inf_or_nan (exact_div (fl_of_N w) (Fin 0))).
  { destruct (fl_of_N_nonneg w) as [(q & -> & Hq)| ->]; cbn [exact_div].
    - rewrite bool_decide_eq_true_2 by done.
      case_bool_decide; [by right|left].
      by rewrite Qc_neg_nonneg.
    - by left. }
  by rewrite rnd_inf_or_nan.
Qed.

Lemma acc_mean_nil : acc_mean [] = NaN.
Proof.
  unfold acc_mean, fsum. cbn [foldl length]. rewrite fl_of_nat_zero.
  unfold fdiv, fzero. cbn [exact_div]. by rewrite !bool_decide_eq_true_2.
Qed.

Lemma acc_mean_inf_or_nan (xs : list fl) :
  Forall nonneg_or_nan xs → (xs = [] ∨ Exists inf_or_nan xs) →
  inf_or_nan (acc_mean xs).
Proof.
  intros Hxs [-> | Hex].
  - right. apply acc_mean_nil.
  - unfold acc_mean. apply fdiv_inf_or_nan_l.
    + by apply foldl_fadd_inf_or_nan.
    + apply fl_of_nat_nonneg_or_nan.
Qed.

(** The literal [0.01] is a finite [double] that is not negative. *)
Lemma f0_01_finite : ∃ q, f0_01 = Fin q ∧ 0 ≤ q.
Proof.
  destruct (round_bounded binary64 (Qc_of_Z 1 / Qc_of_Z 100))
    as (q & E & Hq & _); [by vm_compute|by vm_compute|].
  by exists q.
Qed.

Lemma is_good_inf_or_nan (mu sd m : fl) :
  inf_or_nan m → is_good mu sd m = false ∧ bad_tag m = "h"%char.
Proof.
  destruct f0_01_finite as (q & E & Hq).
  intros [-> | ->].
  - split.
    + unfold is_good. apply andb_false_iff. right.
      by destruct (high_threshold mu sd) as [?|[]|].
    + unfold bad_tag. by rewrite E.
  - split; [|done]. unfold is_good, fgt. by destruct f0_01.
Qed.

Lemma filter_none {A} (P : A → Prop) `{!∀ x, Decision (P x)} (l : list A) :
  (∀ x, x ∈ l → ¬ P x) → filter P l = [].
Proof.
  induction l as [|a l IH]; intros Hno; [done|].
  rewrite filter_cons_False by (apply Hno; left).
  apply IH. intros x Hx. apply Hno. by right.
Qed.

Lemma filter_all {A} (P : A → Prop) `{!∀ x, Decision (P x)} (l : list A) :
  (∀ x, x ∈ l → P x) → filter P l = l.
Proof.
  induction l as [|a l IH]; intros Hall; [done|].
  rewrite filter_cons_True by (apply Hall; left).
  f_equal. apply IH. intros x Hx. apply Hall. by right.
Qed.

(** When every per-bin mean is plus infinity or NaN, no bin is good and all
    are tagged 'h'. *)
Lemma filter_bins_all_high (nbins : nat) (counts : list TGenomeCounts)
    (cells : list CellInfo) :
  (∀ bin, (bin < nbins)%nat →
     inf_or_nan (bin_means nbins (norm_counts nbins counts cells) !!! bin)) →
  filter_bins nbins counts cells = ([], replicate nbins "h"%char).
Proof.
  intros Hall. rewrite good_bins_filter.
  set (bm := bin_means nbins (norm_counts nbins counts cells)) in *.
  assert (Hno : ∀ bin, bin ∈ seq 0 nbins →
            ¬ is_good (my_mean bm) (my_sd bm) (bm !!! bin)).
  { intros bin Hbin%elem_of_seq.
    destruct (is_good_inf_or_nan (my_mean bm) (my_sd bm) (bm !!! bin))
      as [-> _]; [apply Hall; lia|]. simpl; tauto. }
  rewrite filter_none by done. rewrite filter_all by done.
  f_equal. symmetry. apply replicate_as_Forall.
  rewrite length_fmap, length_seq. split; [done|].
  apply Forall_fmap, Forall_forall. intros bin Hbin%elem_of_seq. simpl.
  symmetry. apply (is_good_inf_or_nan fzero fzero). apply Hall. lia.
Qed.

Lemma lookup_bin_means (nbins : nat) (counts : list TGenomeCounts)
    (cells : list CellInfo) (bin : nat) :
  (bin < nbins)%nat →
  bin_means nbins (norm_counts nbins counts cells) !!! bin
  = acc_mean (bin_values (norm_counts nbins counts cells) bin).
Proof. intros Hbin. unfold bin_means. by rewrite lookup_total_fmap_seq. Qed.

Lemma bin_values_nonneg (nbins : nat) (counts : list TGenomeCounts)
    (cells : list CellInfo) (bin : nat) :
  (bin < nbins)%nat →
  Forall nonneg_or_nan (bin_values (norm_counts nbins counts cells) bin).
Proof.
  intros Hbin. rewrite bin_values_norm by done.
  apply Forall_forall. intros x (i & cnt & -> & _)%elem_of_lookup_imap.
  apply fadd_nonneg; apply fdiv_count_nonneg.
Qed.

Lemma filter_bins_zero_median (nbins : nat)
    (counts : list TGenomeCounts) (cells : list CellInfo) (k : nat)
    (cnt : TGenomeCounts) :
  counts !! k = Some cnt →
  median_bin_count (cells !!! k) = 0%N →
  filter_bins nbins counts cells = ([], replicate nbins "h"%char).
Proof.
  intros Hcnt Hmed. apply filter_bins_all_high. intros bin Hbin.
  rewrite lookup_bin_means by done.
  apply acc_mean_inf_or_nan; [by apply bin_values_nonneg|]. right.
  rewrite bin_values_norm by done.
  apply Exists_exists. eexists. split.
  { apply elem_of_lookup_imap. by exists k, cnt. }
  simpl. rewrite Hmed.
  apply fadd_inf_or_nan_l; [apply fdiv_count_by_zero|].
  apply inf_or_nan_nonneg, fdiv_count_by_zero.
Qed.

Lemma fsum_nan (xs : list fl) : xs ≠ [] → Forall (λ x, x = NaN) xs → fsum xs = NaN.
Proof.
  destruct xs as [|x xs]; [done|]. intros _ Hall.
  apply Forall_cons_1 in Hall as [-> Hall]. unfold fsum. simpl.
  clear Hall. induction xs as [|y xs IH]; [done|]. done.
Qed.

(** Without good bins every fitted [p] is NaN. *)
Lemma estimate_samples_no_good_bins (counts : list TGenomeCounts)
    (cells : list CellInfo) (name : string) (s : SampleInfo) :
  estimate_samples [] counts cells !! name = Some s → p s = NaN.
Proof.
  rewrite lookup_estimate_samples. case_decide as Hnil; [done|].
  intros [= <-]. simpl.
  rewrite fsum_nan; [done| |].
  - by destruct (members cells (length counts) name).
  - apply Forall_forall. intros x Hx.
    apply elem_of_zip_with in Hx as (a & b & -> & Ha & _).
    apply list_elem_of_fmap in Ha as (i & -> & _).
    unfold cell_mean, good_totals. cbn [fmap list_fmap].
    by rewrite acc_mean_nil.
Qed.

(** X8.  A single retained cell whose median_bin_count is zero spoils the
    run for every cell: no bin is good, every bin is reported with reason
    'h', and the fitted [p] of every sample is NaN. *)
Theorem zero_median_cell_spoils_run (conf : Conf) (r : Run) (k : nat)
    (c : CellInfo) :
  run (main conf) = Some r →
  r_cells r !! k = Some c →
  median_bin_count c = 0%N →
  r_good_bins r = []
  ∧ r_bad_bins r = replicate (length (r_bins r)) "h"%char
  ∧ ∀ name s, r_samples r !! name = Some s → p s = NaN.
Proof.
  intros Hr Hc Hmed.
  destruct (run_counted _ _ Hr) as (Hlen & _ & _).
  apply lookup_lt_Some in Hc as Hk. rewrite Hlen in Hk.
  apply lookup_lt_is_Some in Hk as [cnt Hcnt].
  apply main_inv in Hr as (cells0 & bins & _ & _ & _ & ->).
  cbn [r_bins r_cells r_counted r_good_bins r_bad_bins r_samples] in *.
  rewrite (filter_bins_zero_median _ _ _ k cnt Hcnt)
    by by rewrite (list_lookup_total_correct _ _ _ Hc).
  simpl. split; [done|]. split; [done|].
  intros name s. apply estimate_samples_no_good_bins.
Qed.

(** X9.  When no cell is retained (every file failed during counting) the
    run still completes: all bins are removed with reason 'h', there is no
    sample, no decode, and the count table holds its header only. *)
Theorem run_without_cells (conf : Conf) (r : Run) :
  run (main conf) = Some r →
  r_cells r = [] →
  r_good_bins r = []
  ∧ r_bad_bins r = replicate (length (r_bins r)) "h"%char
  ∧ r_samples r = ∅
  ∧ r_calls r = []
  ∧ r_table r = [table_header].
Proof.
  intros Hr Hnil.
  destruct (run_counted _ _ Hr) as (Hlen & Hcalls & _).
  rewrite Hnil in Hlen. simpl in Hlen.
  assert (Hcounted : r_counted r = [])
    by (by destruct (r_counted r)).
  rewrite Hcounted in Hcalls. simpl in Hcalls.
  apply main_inv in Hr as (cells0 & bins & _ & _ & _ & ->).
  cbn [r_bins r_cells r_counted r_good_bins r_bad_bins r_samples r_calls
       r_table] in *.
  rewrite Hcounted, Hnil in *.
  assert (Hf : filter_bins (length bins) [] []
               = ([], replicate (length bins) "h"%char)).
  { apply filter_bins_all_high. intros bin Hbin.
    rewrite lookup_bin_means by done.
    apply acc_mean_inf_or_nan; [done|by left]. }
  rewrite Hf. simpl.
  split; [done|]. split; [done|]. split; [done|].
  split; [by destruct (ds_calls _)|done].
Qed.

Lemma fadd_zero_zero : fadd fzero fzero = fzero.
Proof.
  unfold fadd, fzero. cbn [exact_add rnd]. rewrite Qcplus_0_l.
  apply round_zero.
Qed.

Lemma fsum_zeros (xs : list fl) : Forall (λ x, x = fzero) xs → fsum xs = fzero.
Proof.
  unfold fsum. induction 1 as [|x xs -> _ IH]; [done|]. simpl.
  by rewrite fadd_zero_zero.
Qed.

(** Zero over a finite non-zero value, or over plus infinity, is zero. *)
Lemma fdiv_zero_l (b : fl) :
  (∃ q, b = Fin q ∧ 1 ≤ q) ∨ b = Inf false → fdiv fzero b = fzero.
Proof.
  unfold fdiv, fzero. intros [(q & -> & Hq)| ->]; cbn [exact_div rnd].
  - assert (Hq0 : 0 < q) by (eapply Qclt_le_trans; [|exact Hq]; done).
    rewrite bool_decide_eq_false_2
      by (by apply Qclt_not_eq, not_eq_sym in Hq0).
    cbn [rnd]. unfold Qcdiv. rewrite Qcmult_0_l. apply round_zero.
  - apply round_zero.
Qed.

Lemma fdiv_zero_count (m : N) :
  m ≠ 0%N → fdiv (fl_of_N 0) (fl_of_N m) = fzero.
Proof.
  intros Hm. rewrite fl_of_N_zero. by apply fdiv_zero_l, fl_of_N_pos.
Qed.

Lemma removed_bins_filter (nbins : nat) (counts : list TGenomeCounts)
    (cells : list CellInfo) :
  let bm := bin_means nbins (norm_counts nbins counts cells) in
  let good := fst (filter_bins nbins counts cells) in
  filter (λ bin, bin ∉ good) (seq 0 nbins)
  = filter (λ bin, ¬ is_good (my_mean bm) (my_sd bm) (bm !!! bin))
      (seq 0 nbins).
Proof.
  intros bm good. apply filter_ext_in. intros bin Hbin.
  unfold good. rewrite good_bins_filter. simpl.
  rewrite list_elem_of_filter. tauto.
Qed.

(** X10.  A bin that is empty in every cell, in a run with at least one
    cell and no zero median, has mean 0, is not good, and is reported with
    reason 'l'. *)
Theorem empty_bin_is_low (nbins : nat) (counts : list TGenomeCounts)
    (cells : list CellInfo) (bin : nat) :
  (bin < nbins)%nat →
  counts ≠ [] →
  (∀ i cnt, counts !! i = Some cnt →
     watson_count (cnt !!! bin) = 0%N
     ∧ crick_count (cnt !!! bin) = 0%N
     ∧ median_bin_count (cells !!! i) ≠ 0%N) →
  let bm := bin_means nbins (norm_counts nbins counts cells) in
  let good := fst (filter_bins nbins counts cells) in
  let bad := snd (filter_bins nbins counts cells) in
  bm !!! bin = fzero
  ∧ (bin ∉ good)
  ∧ ∃ k, filter (λ b, b ∉ good) (seq 0 nbins) !! k = Some bin
         ∧ bad !! k = Some "l"%char.
Proof.
  intros Hbin Hne Hzero bm good bad.
  destruct f0_01_finite as (q01 & E01 & Hq01).
  assert (Hmean : bm !!! bin = fzero).
  { unfold bm. rewrite lookup_bin_means, bin_values_norm by done.
    unfold acc_mean. rewrite fsum_zeros.
    - rewrite length_imap. apply fdiv_zero_l, fl_of_nat_pos.
      destruct counts; [done|simpl; lia].
    - apply Forall_forall. intros x (i & cnt & -> & Hcnt)%elem_of_lookup_imap.
      destruct (Hzero i cnt Hcnt) as (-> & -> & Hm).
      rewrite fdiv_zero_count by done. apply fadd_zero_zero. }
  assert (Hbad : ¬ is_good (my_mean bm) (my_sd bm) (bm !!! bin)).
  { rewrite Hmean. unfold is_good, fgt. rewrite E01. unfold fzero, flt.
    rewrite bool_decide_eq_false_2 by (by apply Qcle_not_lt).
    simpl; tauto. }
  assert (Hnotin : bin ∉ good).
  { unfold good. rewrite good_bins_filter. simpl.
    rewrite list_elem_of_filter. tauto. }
  split; [done|]. split; [done|].
  assert (Hin : bin ∈ filter (λ b, b ∉ good) (seq 0 nbins)).
  { apply list_elem_of_filter. split; [done|]. apply elem_of_seq. lia. }
  apply list_elem_of_lookup in Hin as [k Hk].
  exists k. split; [done|].
  unfold good in Hk. rewrite removed_bins_filter in Hk.
  unfold bad. rewrite good_bins_filter. simpl.
  rewrite list_lookup_fmap. fold bm in Hk |- *. rewrite Hk. simpl.
  rewrite Hmean. unfold bad_tag. rewrite E01. unfold fzero, fle.
  by rewrite bool_decide_eq_true_2.
Qed.

(** ** Decoding loop (lines 398-413) *)

(** X11.  Cells are decoded one by one and independently: the final
    counters of cell [i] are what [run_HMM] returned when it was given the
    counters counting left for that cell, the good bins and the good-bin index;
    decoding another cell never touches them. *)
Theorem cells_decoded_independently (conf : Conf) (r : Run) (i : nat)
    (cnt : TGenomeCounts) :
  run (main conf) = Some r →
  r_counted r !! i = Some cnt →
  length (r_counts r) = length (r_counted r)
  ∧ ∃ h, r_calls r !! i = Some h
         ∧ r_counts r !! i
           = Some (snd (run_HMM h cnt (r_good_bins r) (r_good_map r))).
Proof.
  intros Hr Hcnt. split; [|by apply (run_decode_counts conf)].
  destruct (main_inv _ _ Hr) as (cells0 & bins & _ & _ & _ & ->).
  apply decode_prefix.
Qed.

(** ** Count table (lines 418-434) *)

(** X12.  The count table has its header first and then one row per cell and
    counter, cell after cell; when every cell has [n] counters the row of
    cell [i] and bin [b] is row [1 + i * n + b], and it holds the coordinates
    of bin [b], the sample of cell [i] and that counter's Crick count, Watson
    count and label, in this order. *)
Theorem count_table_layout (f_in : list string) (bins : list Interval)
    (cells : list CellInfo) (counts : list TGenomeCounts) (n : nat) :
  Forall (λ cnt, length cnt = n) counts →
  count_table f_in bins cells counts !! 0%nat = Some table_header
  ∧ length (count_table f_in bins cells counts) = S (length counts * n)
  ∧ ∀ i b cnt cc, counts !! i = Some cnt → cnt !! b = Some cc →
      count_table f_in bins cells counts !! S (i * n + b)
      = Some [ target_name (chr (bins !!! b));
               pretty (start (bins !!! b));
               pretty (end_ (bins !!! b));
               sample_name (cells !!! i);
               stem (f_in !!! i);
               pretty (crick_count cc);
               pretty (watson_count cc);
               label cc ].
Proof.
  intros Hlen. unfold count_table.
  assert (Hrows : Forall (λ l, length l = n)
                    (imap (cell_rows f_in bins cells) counts)).
  { apply Forall_forall.
    intros rows (i & cnt & -> & Hcnt)%elem_of_lookup_imap.
    unfold cell_rows. rewrite length_imap.
    rewrite Forall_forall in Hlen.
    apply Hlen. by eapply list_elem_of_lookup_2. }
  split; [done|]. split.
  - simpl. f_equal. rewrite length_join.
    rewrite (sum_list_fmap_same n) by done.
    by rewrite length_imap.
  - intros i b cnt cc Hcnt Hcc. simpl.
    apply (join_lookup_Some_same_length' n); [done| |].
    + rewrite Forall_forall in Hlen.
      rewrite <-(Hlen cnt) by by eapply list_elem_of_lookup_2.
      by eapply lookup_lt_Some.
    + exists (cell_rows f_in bins cells i cnt). split.
      * by rewrite list_lookup_imap, Hcnt.
      * unfold cell_rows. by rewrite list_lookup_imap, Hcc.
Qed.

(** ** Sample table (lines 338-358, 368-371) *)

(** X13.  A sample is in the table exactly when some retained cell carries
    its name; its [means] and [vars] then have the same length, one entry per
    member cell and at least one, so [means[0]] and [vars[0]] exist and
    [inner_product] never reads past the end of [vars]. *)
Theorem samples_are_nonempty (good_bins : list nat)
    (counts : list TGenomeCounts) (cells : list CellInfo) (name : string) :
  let samples := estimate_samples good_bins counts cells in
  (is_Some (samples !! name)
   ↔ ∃ i, (i < length counts)%nat ∧ sample_name (cells !!! i) = name)
  ∧ ∀ s, samples !! name = Some s →
      length (means s) = length (vars s)
      ∧ length (means s) = length (members cells (length counts) name)
      ∧ (0 < length (means s))%nat.
Proof.
  intros samples. unfold samples. rewrite lookup_estimate_samples.
  split.
  - case_decide as Hnil.
    + split; [by intros [? ?]|].
      intros (i & Hi & Hname).
      assert (Hin : i ∈ members cells (length counts) name).
      { apply list_elem_of_filter. split; [done|]. apply elem_of_seq. lia. }
      rewrite Hnil in Hin. by apply elem_of_nil in Hin.
    + split; [|by eexists]. intros _.
      destruct (members cells (length counts) name) as [|i rest] eqn:Hm;
        [done|].
      assert (Hin : i ∈ members cells (length counts) name)
        by (rewrite Hm; left).
      apply list_elem_of_filter in Hin as [Hname Hi%elem_of_seq].
      exists i. split; [lia|done].
  - intros s. case_decide as Hnil; [done|]. intros [= <-]. simpl.
    rewrite !length_fmap. repeat split.
    destruct (members cells (length counts) name); [done|simpl; lia].
Qed.

End more_properties.

(** ** The fit and the size parameter in exact arithmetic *)

Section exact_arithmetic_properties.

Lemma exact_round (fmt : format) (q : Qc) :
  @round exact_arithmetic fmt q = Fin q.
Proof. reflexivity. Qed.

Lemma exact_rnd (fmt : format) (a : fl) : @rnd exact_arithmetic fmt a = a.
Proof. by destruct a. Qed.

(** X14.  In exact arithmetic, for a sample with a single cell of finite,
    non-zero mean [m] and finite variance [v] the fit is p = m / v; when the
    variance is zero (all good-bin totals equal) the division is by zero and
    p is plus infinity. *)
Theorem fit_p_single_cell (m v x : Qc) :
  m ≠ 0 →
  p (@fit_p exact_arithmetic (mkSampleInfo [Fin m] [Fin v] (Fin x)))
  = if bool_decide (v = 0) then Inf false else Fin (m / v).
Proof.
  intros Hm. unfold fit_p, inner_product. simpl.
  unfold fdiv, fadd, fmul, fzero.
  rewrite !exact_rnd. cbn [exact_mul exact_add exact_div].
  rewrite !Qcplus_0_l.
  assert (Hnn : 0 ≤ m * m).
  { destruct (Qclt_le_dec 0 m) as [Hpos|Hneg].
    - apply Qcmult_nonneg_nonneg; by apply Qclt_le_weak.
    - apply Qcopp_le_compat in Hneg.
      replace (m * m) with (- m * - m) by ring.
      by apply Qcmult_nonneg_nonneg. }
  assert (Hmm : m * m ≠ 0).
  { intros E. apply Qcmult_integral in E as [?|?]; done. }
  destruct (decide (v = 0)) as [->|Hv].
  - rewrite Qcmult_0_r. rewrite !bool_decide_eq_true_2 by done.
    rewrite bool_decide_eq_false_2 by done.
    by rewrite Qc_neg_nonneg.
  - rewrite (bool_decide_eq_false_2 (v = 0)) by done.
    rewrite bool_decide_eq_false_2.
    + f_equal. field. done.
    + intros E. apply Qcmult_integral in E as [?|?]; done.
Qed.

Lemma Qcmult_nonneg_nonpos (u b : Qc) : 0 ≤ u → b ≤ 0 → u * b ≤ 0.
Proof.
  intros Hu Hb. apply Qcopp_le_compat in Hb.
  replace (u * b) with (- (u * - b)) by ring.
  change 0 with (- 0). apply Qcopp_le_compat.
  by apply Qcmult_nonneg_nonneg.
Qed.

(** X20.  In exact arithmetic, for a finite [p] other than 1 the size
    parameter of the emissions is the finite number
    median/2 * p / (1 - p).  It is non-negative when 0 < p < 1, and positive
    if the median is; for p > 1 and a positive median it is negative. *)
Theorem nb_size_sign (m : N) (x : Qc) :
  x ≠ 1 →
  let n := Qc_of_N m / Qc_of_N 2 * x / (1 - x) in
  @nb_size exact_arithmetic m (Fin x) = Fin n
  ∧ (0 < x → x < 1 → 0 ≤ n ∧ ((0 < m)%N → 0 < n))
  ∧ (1 < x → (0 < m)%N → n < 0).
Proof.
  intros Hx n.
  assert (H2 : Qc_of_N 2 ≠ 0) by (by rewrite Qc_of_N_eq_zero).
  assert (Hden : 1 - x ≠ 0).
  { intros E. apply Hx. rewrite <-(Qcplus_0_r x), <-E. ring. }
  assert (Hhalf : ∀ k, 0 ≤ Qc_of_N k / Qc_of_N 2)
    by (intros k; apply Qcdiv_nonneg; apply Qc_of_N_nonneg).
  assert (Hhalf_pos : (0 < m)%N → 0 < Qc_of_N m / Qc_of_N 2).
  { intros Hm. apply Qcmult_pos_pos.
    - unfold Qc_of_N. rewrite <-Z2Qc_inj_0.
      apply (proj1 (Z2Qc_inj_lt 0 (Z.of_N m))). lia.
    - apply Qcinv_pos. unfold Qc_of_N. rewrite <-Z2Qc_inj_0.
      by apply (proj1 (Z2Qc_inj_lt 0 (Z.of_N 2))). }
  split; [|split].
  - unfold nb_size, ddiv, dmul, dsub, dadd, dbl_of_N, fone.
    rewrite !exact_round. cbn [exact_div exact_add fopp].
    rewrite (bool_decide_eq_false_2 (Qc_of_N 2 = 0)) by done.
    rewrite !exact_rnd. cbn [exact_mul exact_div].
    by rewrite bool_decide_eq_false_2.
  - intros H0 H1.
    assert (Hd : 0 < 1 - x) by (by apply Qclt_minus_iff in H1).
    split.
    + apply Qcdiv_nonneg; [|by apply Qclt_le_weak].
      apply Qcmult_nonneg_nonneg; [done|by apply Qclt_le_weak].
    + intros Hm. apply Qcmult_pos_pos; [|by apply Qcinv_pos].
      apply Qcmult_pos_pos; auto.
  - intros H1 Hm.
    assert (Hd : 1 - x ≤ 0).
    { apply Qclt_le_weak. apply Qclt_minus_iff.
      replace (0 + - (1 - x)) with (x + - 1) by ring.
      by apply Qclt_minus_iff in H1. }
    assert (Hnum : 0 < Qc_of_N m / Qc_of_N 2 * x).
    { apply Qcmult_pos_pos; [auto|].
      by apply Qclt_trans with 1. }
    apply Qcnot_le_lt. intros Hn.
    pose proof (Qcmult_nonneg_nonpos _ _ Hn Hd) as Hprod.
    unfold n in Hprod.
    rewrite Qcmult_comm, Qcmult_div_r in Hprod by done.
    by apply Qcle_not_lt in Hprod.
Qed.

End exact_arithmetic_properties.

Section index_and_reports.
Context `{External} `{Rounding}.

(** ** What the chromosome index delimits (lines 323-334) *)

Lemma advance_spec (fuel : nat) (bins : list Interval) (sel : list nat)
    (c : Z) (pos : nat) :
  (pos ≤ length sel)%nat → (length sel - pos ≤ fuel)%nat →
  let r := advance fuel bins sel c pos in
  (pos ≤ r ≤ length sel)%nat
  ∧ (∀ j, (pos ≤ j < r)%nat → (chr_at bins sel j < c)%Z)
  ∧ ((r < length sel)%nat → (c ≤ chr_at bins sel r)%Z).
Proof.
  revert pos. induction fuel as [|fuel IH]; intros pos Hpos Hfuel; simpl.
  - split; [lia|]. split; intros; lia.
  - destruct (bool_decide (pos < length sel)%nat) eqn:Hlt; simpl.
    + apply bool_decide_eq_true in Hlt.
      destruct (bool_decide (chr_at bins sel pos < c)%Z) eqn:Hchr.
      * apply bool_decide_eq_true in Hchr.
        destruct (IH (S pos)) as (Hr & Hskip & Hstop); [lia|lia|].
        split; [lia|]. split; [|done].
        intros j Hj. destruct (decide (j = pos)) as [->|Hne]; [done|].
        apply Hskip. lia.
      * apply bool_decide_eq_false in Hchr.
        split; [lia|]. split; intros; lia.
    + apply bool_decide_eq_false in Hlt.
      split; [lia|]. split; intros; lia.
Qed.

Lemma fill_chrom_index_entries (targets : nat) (bins : list Interval)
    (sel : list nat) (n : nat) :
  (Z.of_nat (length sel) < 2 ^ 31)%Z → (n ≤ targets)%nat →
  let st := foldl (index_step bins sel) (replicate targets (-1)%Z, O)
              (seq 0 n) in
  length (fst st) = targets
  ∧ (snd st ≤ length sel)%nat
  ∧ (∀ j, (j < snd st)%nat → (chr_at bins sel j < Z.of_nat n)%Z)
  ∧ ∀ c, (c < n)%nat →
      ∃ e, fst st !! c = Some (Z.of_nat e)
           ∧ (e ≤ length sel)%nat
           ∧ (∀ j, (j < e)%nat → (chr_at bins sel j < Z.of_nat c)%Z)
           ∧ ((e < length sel)%nat → (Z.of_nat c ≤ chr_at bins sel e)%Z).
Proof.
  intros Hsize. induction n as [|n IH]; intros Hn.
  - simpl. rewrite length_replicate.
    split; [done|]. split; [lia|]. split; intros; lia.
  - rewrite seq_S, foldl_app. simpl.
    destruct IH as (Hlen & Hpos & Hskipped & Hentries); [lia|].
    destruct (foldl (index_step bins sel) _ (seq 0 n)) as [gm pos].
    simpl in *. unfold index_step. simpl.
    destruct (advance_spec (length sel) bins sel (Z.of_nat n) pos)
      as (Hr & Hskip & Hstop); [done|lia|].
    set (pos' := advance (length sel) bins sel (Z.of_nat n) pos) in *.
    assert (Hall : ∀ j, (j < pos')%nat → (chr_at bins sel j < Z.of_nat n)%Z).
    { intros j Hj. destruct (decide (j < pos)%nat); [by apply Hskipped|].
      apply Hskip. lia. }
    rewrite length_insert. split; [done|]. split; [lia|]. split.
    { intros j Hj. specialize (Hall j Hj). lia. }
    intros c Hc. destruct (decide (c = n)) as [->|Hne].
    + exists pos'. rewrite list_lookup_insert_eq by lia.
      split; [|by repeat split; try lia].
      f_equal. case_bool_decide; [|done].
      rewrite to_int32_small by lia. lia.
    + rewrite list_lookup_insert_ne by done. apply Hentries. lia.
Qed.

(** X15.  For bins in chromosome order whose chromosome ids are those of the
    header, the good-bin index delimits each chromosome: the entries of
    chromosome [c] and of the next one (or the final element) are the first
    position of [c] in [good_bins] and the position after its last, so the
    good bins of [c] are exactly the positions in between. *)
Theorem good_map_delimits_chromosomes (targets : nat) (bins : list Interval)
    (good_bins : list nat) (c : nat) :
  (Z.of_nat (length good_bins) < 2 ^ 31)%Z →
  (c < targets)%nat →
  (∀ j1 j2, (j1 ≤ j2 < length good_bins)%nat →
     (chr_at bins good_bins j1 ≤ chr_at bins good_bins j2)%Z) →
  (∀ j, (j < length good_bins)%nat →
     (chr_at bins good_bins j < Z.of_nat targets)%Z) →
  ∃ lo hi,
    build_good_map targets bins good_bins !! c = Some (Z.of_nat lo)
    ∧ build_good_map targets bins good_bins !! S c = Some (Z.of_nat hi)
    ∧ (lo ≤ hi ≤ length good_bins)%nat
    ∧ ∀ j, (j < length good_bins)%nat →
        ((lo ≤ j < hi)%nat ↔ chr_at bins good_bins j = Z.of_nat c).
Proof.
  intros Hsize Hc Hsorted Hrange.
  destruct (fill_chrom_index_entries targets bins good_bins targets Hsize
              (le_n _)) as (Hlen & _ & _ & Hentries).
  fold (fill_chrom_index targets bins good_bins) in Hlen, Hentries.
  destruct (Hentries c Hc) as (lo & Hlo & Hlo_le & Hlo_before & Hlo_at).
  assert (Hhi : ∃ hi,
    build_good_map targets bins good_bins !! S c = Some (Z.of_nat hi)
    ∧ (hi ≤ length good_bins)%nat
    ∧ (∀ j, (j < hi)%nat → (chr_at bins good_bins j < Z.of_nat (S c))%Z)
    ∧ ((hi < length good_bins)%nat →
         (Z.of_nat (S c) ≤ chr_at bins good_bins hi)%Z)).
  { unfold build_good_map.
    destruct (decide (S c < targets)%nat) as [Hlt|Hge].
    - destruct (Hentries (S c) Hlt) as (hi & Hhi & ?).
      exists hi. by rewrite lookup_app_l by lia.
    - assert (S c = targets) as -> by lia.
      exists (length good_bins).
      rewrite lookup_app_r by lia. rewrite Hlen, Nat.sub_diag. simpl.
      rewrite to_int32_small by lia.
      split; [done|]. split; [lia|]. split; [|lia].
      intros j Hj. by apply Hrange. }
  destruct Hhi as (hi & Hhi & Hhi_le & Hhi_before & Hhi_at).
  assert (Hlohi : (lo ≤ hi)%nat).
  { destruct (decide (lo ≤ hi)%nat); [done|].
    specialize (Hlo_before hi ltac:(lia)).
    specialize (Hhi_at ltac:(lia)). lia. }
  exists lo, hi.
  split; [unfold build_good_map; by rewrite lookup_app_l by lia|].
  split; [done|]. split; [lia|].
  intros j Hj. split.
  - intros [Hge Hlt].
    specialize (Hhi_before j Hlt).
    specialize (Hlo_at ltac:(lia)).
    specialize (Hsorted lo j ltac:(lia)). lia.
  - intros Hchr. split.
    + destruct (decide (lo ≤ j)%nat); [done|].
      specialize (Hlo_before j ltac:(lia)). lia.
    + destruct (decide (j < hi)%nat); [done|].
      specialize (Hhi_at ltac:(lia)).
      specialize (Hsorted hi j ltac:(lia)). lia.
Qed.

(** ** Cell summary (lines 239-253) *)

Lemma String_ltb_asym (s1 s2 : string) :
  String.ltb s1 s2 = true → String.ltb s2 s1 = false.
Proof.
  unfold String.ltb. rewrite (String.compare_antisym s2 s1).
  by destruct (String.compare s1 s2).
Qed.

Lemma String_leb_refl (s : string) : String.leb s s = true.
Proof.
  unfold String.leb. pose proof (String.compare_antisym s s) as E.
  by destruct (String.compare s s).
Qed.

Lemma String_not_ltb_leb (s1 s2 : string) :
  String.ltb s2 s1 = false → String.leb s1 s2 = true.
Proof.
  unfold String.ltb, String.leb. rewrite (String.compare_antisym s2 s1).
  by destruct (String.compare s1 s2).
Qed.

Global Instance cell_le_total : Total cell_le.
Proof.
  intros a b. unfold cell_le, cell_before.
  rewrite (String.eqb_sym (sample_name b) (sample_name a)).
  destruct (String.eqb (sample_name a) (sample_name b)).
  - destruct (Nat.ltb_spec (id a) (id b)); [left|by right].
    apply Nat.ltb_ge. lia.
  - destruct (String.ltb (sample_name a) (sample_name b)) eqn:E;
      [left|by right].
    by apply String_ltb_asym.
Qed.

Lemma cell_le_spec (a b : CellInfo) :
  cell_le a b →
  String.leb (sample_name a) (sample_name b) = true
  ∧ (sample_name a = sample_name b → (id a ≤ id b)%nat).
Proof.
  unfold cell_le, cell_before.
  destruct (String.eqb_spec (sample_name b) (sample_name a)) as [E|E].
  - intros Hid%Nat.ltb_ge. rewrite E. split; [apply String_leb_refl|done].
  - intros Hlt. split; [by apply String_not_ltb_leb|]. congruence.
Qed.

Lemma Sorted_lookup_adjacent {A} (R : relation A) (l : list A) (i : nat)
    (a b : A) :
  Sorted R l → l !! i = Some a → l !! S i = Some b → R a b.
Proof.
  intros Hs. revert i. induction Hs as [|x l Hs IH Hhd]; intros i Ha Hb;
    [done|].
  destruct i as [|i]; simpl in *.
  - injection Ha as <-. destruct Hhd as [|y l' Hxy]; [done|].
    simpl in Hb. by injection Hb as <-.
  - by eapply IH.
Qed.

(** X16.  The cell summary has its header first and then exactly one row per
    retained cell; the rows are ordered by sample name and, within a sample,
    by [id], whatever the order of the cells. *)
Theorem cell_summary_sorted (f_in : list string) (cells : list CellInfo) :
  cell_summary f_in cells
  = summary_header :: (summary_row f_in <$> sort_cells cells)
  ∧ length (cell_summary f_in cells) = S (length cells)
  ∧ sort_cells cells ≡ₚ cells
  ∧ ∀ k a b, sort_cells cells !! k = Some a →
      sort_cells cells !! S k = Some b →
      String.leb (sample_name a) (sample_name b) = true
      ∧ (sample_name a = sample_name b → (id a ≤ id b)%nat).
Proof.
  split; [done|]. split; [|split].
  - unfold cell_summary, sort_cells. simpl.
    by rewrite length_fmap, merge_sort_Permutation.
  - apply merge_sort_Permutation.
  - intros k a b Ha Hb. apply cell_le_spec.
    eapply (Sorted_lookup_adjacent cell_le); [|exact Ha|exact Hb].
    apply Sorted_merge_sort, _.
Qed.

(** ** Naming of cells in the two outputs (lines 245 and 428) *)

Lemma fmap_id_assign_medians (counts : list TGenomeCounts)
    (cells : list CellInfo) :
  id <$> assign_medians counts cells = id <$> cells.
Proof.
  apply list_eq. intros i. rewrite !list_lookup_fmap.
  unfold assign_medians.
  rewrite (proj2 (assign_medians_prefix counts cells (length counts))).
  case_decide; [|done]. by destruct (cells !! i).
Qed.

(** Where a cell of the finished run comes from, for a counting function
    that leaves the [id] alone. *)
Lemma run_cell_origin (conf : Conf) (r : Run) :
  (∀ file b cm mq cnt cell,
     id (snd (count_sorted_reads file b cm mq cnt cell)) = id cell) →
  run (main conf) = Some r →
  StronglySorted lt (id <$> r_cells r)
  ∧ ∀ i c, r_cells r !! i = Some c →
      (i ≤ id c)%nat
      ∧ ∃ file c0 cnt c1,
          f_in conf !! id c = Some file
          ∧ r_counted r !! i = Some cnt
          ∧ count_sorted_reads file (r_bins r) (r_chrom_map r)
              (minMapQual conf) [] c0
            = (true, cnt, c1)
          ∧ c = set_median_bin_count (cell_median cnt) c1.
Proof.
  intros Hid (cells0 & bins & _ & Hh & _ & ->)%main_inv.
  cbn [r_bins r_cells r_counted r_chrom_map].
  destruct (count_all_origin (f_in conf) bins (minMapQual conf) cells0 Hid Hh)
    as [Hsorted Horigin].
  cbv zeta in Hsorted, Horigin.
  set (cs := count_all bins (build_chrom_map n_targets bins) (minMapQual conf)
               (f_in conf) cells0) in *.
  split; [by rewrite fmap_id_assign_medians|].
  intros i c Hc.
  assert (Hlen : length (assign_medians (cs_counts cs) (cs_cells cs))
                 = length (cs_cells cs)) by apply length_assign_medians.
  apply lookup_lt_Some in Hc as Hi. rewrite Hlen in Hi.
  apply lookup_lt_is_Some in Hi as [c1 Hc1].
  destruct (Horigin i c1 Hc1) as (Hle & file & c0 & cnt & Hf & _ & Hcnt & Hcall).
  rewrite (lookup_assign_medians _ _ _ _ _ Hc1 Hcnt) in Hc.
  injection Hc as <-. simpl.
  split; [done|]. by exists file, c0, cnt, c1.
Qed.

(** X17.  If counting leaves the [id] of a cell alone, every row of the cell
    summary names, in its cell column, the file that the cell's counters were
    counted from, also when earlier input files were dropped. *)
Theorem cell_summary_names_own_file (conf : Conf) (r : Run) (k : nat)
    (c : CellInfo) :
  (∀ file b cm mq cnt cell,
     id (snd (count_sorted_reads file b cm mq cnt cell)) = id cell) →
  run (main conf) = Some r →
  sort_cells (r_cells r) !! k = Some c →
  ∃ i file c0 cnt c1,
    r_cells r !! i = Some c
    ∧ r_counted r !! i = Some cnt
    ∧ count_sorted_reads file (r_bins r) (r_chrom_map r) (minMapQual conf)
        [] c0 = (true, cnt, c1)
    ∧ cell_summary (f_in conf) (r_cells r) !! S k
      = Some (summary_row (f_in conf) c)
    ∧ summary_row (f_in conf) c !! 1%nat = Some (stem file).
Proof.
  intros Hid Hr Hk.
  destruct (run_cell_origin conf r Hid Hr) as [_ Horigin].
  assert (Hin : c ∈ r_cells r).
  { apply list_elem_of_lookup_2 in Hk.
    unfold sort_cells in Hk. by rewrite merge_sort_Permutation in Hk. }
  apply list_elem_of_lookup in Hin as [i Hi].
  destruct (Horigin i c Hi) as (_ & file & c0 & cnt & c1 & Hf & Hcnt & Hcall & _).
  exists i, file, c0, cnt, c1.
  split; [done|]. split; [done|]. split; [done|]. split.
  - unfold cell_summary. simpl. by rewrite list_lookup_fmap, Hk.
  - simpl. by rewrite (list_lookup_total_correct _ _ _ Hf).
Qed.

Lemma StronglySorted_lt_lookup_upper (l : list nat) (n i x : nat) :
  StronglySorted lt l → Forall (λ y, y < n)%nat l → l !! i = Some x →
  (x + (length l - i) ≤ n)%nat.
Proof.
  intros Hs. revert i x.
  induction Hs as [|y l Hs IH Hall]; intros i x Hn Hx; [done|].
  apply Forall_cons_1 in Hn as [Hy Hn].
  destruct i as [|i]; simpl in *.
  - injection Hx as <-.
    destruct l as [|z l']; [simpl; lia|].
    specialize (IH 0%nat z Hn eq_refl). simpl in IH.
    apply Forall_cons_1 in Hall as [Hyz _]. simpl. lia.
  - by apply IH.
Qed.

Lemma length_cell_rows (f_in : list string) (bins : list Interval)
    (cells : list CellInfo) (counts : list TGenomeCounts) :
  length <$> imap (cell_rows f_in bins cells) counts = length <$> counts.
Proof.
  apply list_eq. intros i. rewrite !list_lookup_fmap, list_lookup_imap.
  destruct (counts !! i) as [cnt|]; [|done]. simpl.
  unfold cell_rows. by rewrite length_imap.
Qed.

(** The row of cell [i] and counter [b] stands behind the header and the
    rows of the cells before [i]. *)
Lemma lookup_count_table (f_in : list string) (bins : list Interval)
    (cells : list CellInfo) (counts : list TGenomeCounts) (i b : nat)
    (cnt : TGenomeCounts) (cc : Counter) :
  counts !! i = Some cnt → cnt !! b = Some cc →
  count_table f_in bins cells counts
    !! S (sum_list (length <$> take i counts) + b)
  = Some (table_row f_in bins cells i b cc).
Proof.
  intros Hcnt Hcc. unfold count_table. cbn [lookup list_lookup].
  apply join_lookup_Some.
  exists i, (cell_rows f_in bins cells i cnt), b.
  split; [by rewrite list_lookup_imap, Hcnt|].
  split; [unfold cell_rows; by rewrite list_lookup_imap, Hcc|].
  by rewrite !fmap_take, length_cell_rows.
Qed.

(** X18.  The count table holds the row of the cell at position [i] and of
    its counter [b] behind the header and the rows of the cells before [i].
    The row gives the sample of that cell and the counts and the label that
    decoding left for the counters counted from input file [id], but names
    the cell by the stem of input file [i]; [id] is never before [i], and
    the two files are the same for every cell when no file was dropped. *)
Theorem table_names_cell_by_position (conf : Conf) (r : Run) (i b : nat)
    (c : CellInfo) (cnt : TGenomeCounts) (cc : Counter) :
  (∀ file b cm mq cnt cell,
     id (snd (count_sorted_reads file b cm mq cnt cell)) = id cell) →
  run (main conf) = Some r →
  r_cells r !! i = Some c →
  r_counts r !! i = Some cnt →
  cnt !! b = Some cc →
  ∃ file c0 cnt0 c1 h,
    r_table r !! S (sum_list (length <$> take i (r_counts r)) + b)
    = Some [ target_name (chr (r_bins r !!! b));
             pretty (start (r_bins r !!! b));
             pretty (end_ (r_bins r !!! b));
             sample_name c;
             stem (f_in conf !!! i);
             pretty (crick_count cc);
             pretty (watson_count cc);
             label cc ]
    ∧ f_in conf !! id c = Some file
    ∧ count_sorted_reads file (r_bins r) (r_chrom_map r) (minMapQual conf)
        [] c0 = (true, cnt0, c1)
    ∧ c = set_median_bin_count (cell_median cnt0) c1
    ∧ r_counted r !! i = Some cnt0
    ∧ r_calls r !! i = Some h
    ∧ cnt = snd (run_HMM h cnt0 (r_good_bins r) (r_good_map r))
    ∧ (i ≤ id c)%nat
    ∧ (length (r_cells r) = length (f_in conf) → f_in conf !! i = Some file).
Proof.
  intros Hid Hr Hc Hcnt Hcc.
  destruct (run_cell_origin conf r Hid Hr) as [Hsorted Horigin].
  destruct (Horigin i c Hc)
    as (Hle & file & c0 & cnt0 & c1 & Hf & Hcnt0 & Hcall & Hmed).
  destruct (run_decode_counts conf r i cnt0 Hr Hcnt0) as (h & Hh & Hcnt').
  exists file, c0, cnt0, c1, h.
  split.
  { destruct (main_inv _ _ Hr) as (cells0 & bins & _ & _ & _ & ->).
    cbn [r_table r_cells r_counts r_bins] in *.
    rewrite (lookup_count_table _ _ _ _ i b cnt cc Hcnt Hcc).
    unfold table_row. by rewrite (list_lookup_total_correct _ _ _ Hc). }
  repeat (split; [done|]).
  split; [congruence|]. split; [done|].
  intros Hall.
  assert (Hbound : Forall (λ y, y < length (f_in conf))%nat (id <$> r_cells r)).
  { apply Forall_fmap, Forall_forall. intros c' Hc'.
    apply list_elem_of_lookup in Hc' as [j Hj].
    destruct (Horigin j c' Hj) as (_ & file' & _ & _ & _ & Hf' & _).
    simpl. by eapply lookup_lt_Some. }
  assert (Hx : (id <$> r_cells r) !! i = Some (id c))
    by by rewrite list_lookup_fmap, Hc.
  pose proof (StronglySorted_lt_lookup_upper _ _ _ _ Hsorted Hbound Hx) as Hup.
  rewrite length_fmap, Hall in Hup.
  apply lookup_lt_Some in Hc. rewrite Hall in Hc.
  assert (id c = i) as <- by lia. done.
Qed.

(** ** Conservation of input files (lines 205-214) *)

(** X19.  Every input file ends up either as one retained cell or as one
    warning: the retained cells and the warnings together are as many as the
    input files, the counting loop writes nothing else, and its warnings
    come first in what the run writes to [std::cerr]. *)
Theorem files_are_kept_or_warned (conf : Conf) (r : Run) :
  run (main conf) = Some r →
  (length (r_cells r) + length (r_log r) = length (f_in conf))%nat
  ∧ (∀ d, d ∈ r_log r →
      ∃ file, file ∈ f_in conf ∧ d = Warning ("Ignoring cell " +:+ file))
  ∧ stderr (main conf) = r_log r ++ snd (reports conf r).
Proof.
  intros Hr. split; [|split; [|by apply stderr_of_run]];
    destruct (main_inv _ _ Hr) as (cells0 & bins & _ & Hh & _ & ->);
    cbn [r_cells r_log];
    pose proof (length_explore_headers _ _ Hh) as Hlen;
    rewrite ?length_assign_medians;
    rewrite (count_all_spec bins _ (minMapQual conf) _ _ Hlen);
    cbn [cs_cells cs_log];
    set (tries := attempts bins (build_chrom_map n_targets bins)
                    (minMapQual conf) (f_in conf) cells0);
    (assert (Hfst : fst <$> tries = f_in conf);
     [unfold tries, attempts; rewrite <-list_fmap_compose;
      rewrite <-(fst_zip (f_in conf) cells0) at 2 by lia; done|]).
  - rewrite !length_fmap, filter_split_length.
    apply (f_equal length) in Hfst. by rewrite length_fmap in Hfst.
  - intros d (a & -> & Ha)%list_elem_of_fmap.
    apply list_elem_of_filter in Ha as [_ Ha].
    exists (fst a). split; [|done].
    rewrite <-Hfst. by apply list_elem_of_fmap_2.
Qed.

(** ** Chromosome index without good bins (lines 323-334) *)

(** X21.  Without good bins the good-bin index is 0 for every chromosome
    and for the final element: every chromosome has an empty range. *)
Theorem good_map_without_good_bins (targets : nat) (bins : list Interval) :
  build_good_map targets bins [] = replicate (S targets) 0%Z.
Proof.
  destruct (fill_chrom_index_entries targets bins [] targets) as
    (Hlen & _ & _ & Hentries); [done|done|].
  fold (fill_chrom_index targets bins []) in Hlen, Hentries.
  unfold build_good_map.
  replace (S targets) with (targets + 1)%nat by lia.
  rewrite replicate_add. f_equal.
  symmetry. apply replicate_as_Forall. split; [done|].
  apply Forall_forall. intros z Hz.
  apply list_elem_of_lookup in Hz as [c Hc].
  apply lookup_lt_Some in Hc as Hlt. rewrite Hlen in Hlt.
  destruct (Hentries c Hlt) as (e & He & Hle & _).
  simpl in Hle. rewrite Hc in He. injection He as ->. lia.
Qed.

End index_and_reports.

(** * The further properties in the concrete setting *)

(** The exit codes of [main]: 1 without input file and when the bin file
    cannot be read, 2 when the count table cannot be opened, in which case
    the three reports could not be written either, 0 otherwise. *)
Example toy_exit_codes :
  @main toy_env ieee (toy_conf []) = mkResult 1 [] [] None
  ∧ @main toy_env ieee
      (mkConf ["dir/a.bam"] "out.txt" (Some "eleven.bed") None None None None
         10 None false)
    = mkResult 1 [] [] None
  ∧ exit_code (toy_run_locked ieee) = 2%Z
  ∧ stderr (toy_run_locked ieee)
    = [Message "Cannot write to /locked/info.txt";
       Message "Cannot write to /locked/removed.bed";
       Message "Cannot write to /locked/samples.txt";
       Error "Cannot open file: /locked/out.txt"]
  ∧ written (toy_run_locked ieee) = []
  ∧ is_Some (run (toy_run_locked ieee))
  ∧ exit_code (toy_run ieee) = 0%Z
  ∧ stderr (toy_run ieee) = [Warning "Ignoring cell dir/b.bam"].
Proof.
  split; [by vm_compute|]. split; [by vm_compute|].
  split; [by vm_compute|]. split; [by vm_compute|].
  split; [by vm_compute|].
  split; [eexists; vm_compute; reflexivity|].
  split; by vm_compute.
Qed.

Lemma toy_count_keeps_id (file : string) (b : list Interval) (cm : list Z)
    (mq : Z) (cnt : TGenomeCounts) (cell : CellInfo) :
  id (snd (toy_count_sorted_reads file b cm mq cnt cell)) = id cell.
Proof.
  unfold toy_count_sorted_reads. by repeat case_bool_decide.
Qed.

Lemma count_loop_reads_own_entry_witness :
  let cells0 := [mkCellInfo 0 "S1" 0 0 0 0 0 0 0;
                 mkCellInfo 1 "S1" 0 0 0 0 0 0 0;
                 mkCellInfo 2 "S1" 0 0 0 0 0 0 0] in
  let st := foldl (@count_step toy_env toy_bins [0; 12]%Z 10)
              (mkCountState 0 (replicate 3 []) cells0 [])
              ["dir/a.bam"; "dir/b.bam"] in
  length cells0 = length (["dir/a.bam"; "dir/b.bam"] ++ "dir/c.bam" :: [])
  ∧ cs_i st = 1%nat
  ∧ cs_counts st !! cs_i st = Some []
  ∧ cs_cells st !! cs_i st = Some (mkCellInfo 2 "S1" 0 0 0 0 0 0 0).
Proof.
  intros cells0 st. split; [reflexivity|]. split; [reflexivity|].
  destruct (@count_loop_reads_own_entry toy_env toy_bins [0; 12]%Z 10
              ["dir/a.bam"; "dir/b.bam"] [] "dir/c.bam" cells0)
    as (_ & _ & Hcnt & Hcell & _); [reflexivity|].
  split; [exact Hcnt|exact Hcell].
Defined.

Lemma retained_cells_keep_their_file_witness :
  ∃ cells0, @explore_headers toy_env toy_files = Some cells0
    ∧ let cs := @count_all toy_env toy_bins (build_chrom_map 1 toy_bins)
                  10 toy_files cells0 in
      id <$> cs_cells cs = [0; 2]%nat
      ∧ StronglySorted lt (id <$> cs_cells cs).
Proof.
  eexists. evaluated Hh.
  split; [by vm_compute|].
  match type of Hh with
  | _ = Some ?c0 =>
      destruct (@retained_cells_keep_their_file toy_env toy_files toy_bins
                  10 c0 toy_count_keeps_id) as [Hs _];
        [vm_compute; reflexivity|]
  end.
  exact Hs.
Defined.

Lemma assign_medians_frame_witness :
  let cnt := [mkCounter 3 4 ""; mkCounter 1 1 ""; mkCounter 0 5 ""] in
  let c := mkCellInfo 4 "S1" 0 9 1 2 3 4 5 in
  [c] !! 0%nat = Some c
  ∧ ∃ c', assign_medians [cnt] [c] !! 0%nat = Some c'
          ∧ id c' = 4%nat
          ∧ sample_name c' = "S1"
          ∧ median_bin_count c' = 5%N.
Proof.
  intros cnt c. split; [reflexivity|].
  destruct (assign_medians_frame [cnt] [c] 0 c)
    as (_ & c' & Hc' & Hid & Hname & _ & Hmed & _); [reflexivity|].
  exists c'. split; [exact Hc'|]. split; [exact Hid|].
  split; [exact Hname|].
  rewrite (Hmed cnt eq_refl). by vm_compute.
Defined.

Lemma zero_median_cell_spoils_run_witness :
  ∃ r c, run (toy_run_sparse ieee) = Some r
    ∧ r_cells r !! 1%nat = Some c
    ∧ median_bin_count c = 0%N
    ∧ r_good_bins r = []
    ∧ r_bad_bins r = replicate 12 "h"%char.
Proof.
  eexists _, _. evaluated Hr. evaluated Hc. evaluated Hm.
  match type of Hc with
  | r_cells ?r !! _ = Some ?c =>
      destruct (@zero_median_cell_spoils_run toy_env ieee toy_conf_sparse
                  r 1%nat c)
        as (Hgood & Hbad & _); [vm_compute; reflexivity..|]
  end.
  split; [exact Hgood|exact Hbad].
Defined.

Lemma run_without_cells_witness :
  ∃ r, run (toy_run_none ieee) = Some r
       ∧ r_cells r = []
       ∧ r_log r = [Warning "Ignoring cell dir/b.bam"]
       ∧ r_bad_bins r = replicate 12 "h"%char
       ∧ r_table r = [table_header].
Proof.
  eexists. evaluated Hr. evaluated Hc. evaluated Hlog.
  match type of Hr with
  | _ = Some ?r =>
      destruct (@run_without_cells toy_env ieee toy_conf_none r)
        as (_ & Hbad & _ & _ & Htable); [vm_compute; reflexivity..|]
  end.
  split; [exact Hbad|exact Htable].
Defined.

Lemma empty_bin_is_low_witness :
  let counts := [[mkCounter 3 4 ""; mkCounter 0 0 ""; mkCounter 4 4 ""];
                 [mkCounter 5 2 ""; mkCounter 0 0 ""; mkCounter 3 3 ""]] in
  let cells := [mkCellInfo 0 "S1" 7 0 0 0 0 0 0;
                mkCellInfo 1 "S1" 6 0 0 0 0 0 0] in
  (1 < 3)%nat
  ∧ counts ≠ []
  ∧ @bin_means ieee 3 (@norm_counts ieee 3 counts cells) !!! 1%nat = fzero
  ∧ 1%nat ∉ fst (@filter_bins toy_env ieee 3 counts cells).
Proof.
  intros counts cells. split; [lia|]. split; [done|].
  destruct (@empty_bin_is_low toy_env ieee 3 counts cells 1)
    as (Hmean & Hnot & _); [lia|done| |by split].
  intros i cnt Hi.
  destruct i as [|[|i]]; simpl in Hi; [| |done];
    injection Hi as <-; by vm_compute.
Defined.

Lemma cells_decoded_independently_witness :
  ∃ r cnt, run (toy_run ieee) = Some r
    ∧ r_counted r !! 1%nat = Some cnt
    ∧ ∃ h, r_calls r !! 1%nat = Some h
           ∧ r_counts r !! 1%nat
             = Some (snd (toy_run_HMM h cnt (r_good_bins r) (r_good_map r))).
Proof.
  eexists _, _. evaluated Hr. evaluated Hcnt.
  match type of Hcnt with
  | r_counted ?r !! _ = Some ?cnt =>
      destruct (@cells_decoded_independently toy_env ieee (toy_conf toy_files)
                  r 1%nat cnt) as (_ & h & Hh & Hdec);
        [vm_compute; reflexivity..|]
  end.
  exists h. split; [exact Hh|exact Hdec].
Defined.

Lemma count_table_layout_witness :
  let counts := [[mkCounter 1 2 "WC"; mkCounter 3 4 "CC"];
                 [mkCounter 5 6 "WW"; mkCounter 7 8 "WC"]] in
  let cells := [mkCellInfo 0 "S1" 0 0 0 0 0 0 0;
                mkCellInfo 1 "S2" 0 0 0 0 0 0 0] in
  Forall (λ cnt : list Counter, length cnt = 2%nat) counts
  ∧ length (@count_table toy_env ["dir/a.bam"; "dir/c.bam"] toy_bins
              cells counts) = 5%nat
  ∧ @count_table toy_env ["dir/a.bam"; "dir/c.bam"] toy_bins cells counts
      !! 4%nat
    = Some ["chr1"; "100"; "200"; "S2"; "c"; "8"; "7"; "WC"].
Proof.
  intros counts cells.
  assert (Hlen : Forall (λ cnt : list Counter, length cnt = 2%nat) counts)
    by (repeat constructor).
  split; [exact Hlen|].
  destruct (@count_table_layout toy_env ["dir/a.bam"; "dir/c.bam"] toy_bins
              cells counts 2 Hlen) as (_ & Hl & Hrow).
  split; [exact Hl|].
  etrans; [exact (Hrow 1%nat 1%nat [mkCounter 5 6 "WW"; mkCounter 7 8 "WC"]
                    (mkCounter 7 8 "WC") eq_refl eq_refl)|].
  by vm_compute.
Defined.

Lemma fit_p_single_cell_witness :
  Qc_of_Z 21 / Qc_of_Z 2 ≠ 0
  ∧ p (@fit_p exact_arithmetic
         (mkSampleInfo [Fin (Qc_of_Z 21 / Qc_of_Z 2)]
            [Fin (Qc_of_Z 1 / Qc_of_Z 4)] (Fin 0)))
    = Fin (Qc_of_Z 42).
Proof.
  assert (Hm : Qc_of_Z 21 / Qc_of_Z 2 ≠ 0) by compute_done.
  split; [exact Hm|].
  etrans; [exact (fit_p_single_cell _ (Qc_of_Z 1 / Qc_of_Z 4) 0 Hm)|].
  compute_done.
Defined.

Lemma good_map_delimits_chromosomes_witness :
  (Z.of_nat (length [0; 2]%nat) < 2 ^ 31)%Z
  ∧ (0 < 2)%nat
  ∧ build_good_map 2 two_chrom_bins [0; 2]%nat = [0; 1; 2]%Z
  ∧ ∃ lo hi,
      build_good_map 2 two_chrom_bins [0; 2]%nat !! 0%nat = Some (Z.of_nat lo)
      ∧ build_good_map 2 two_chrom_bins [0; 2]%nat !! 1%nat
        = Some (Z.of_nat hi)
      ∧ (lo ≤ hi ≤ 2)%nat.
Proof.
  split; [by vm_compute|]. split; [lia|]. split; [by vm_compute|].
  destruct (good_map_delimits_chromosomes 2 two_chrom_bins [0; 2]%nat 0)
    as (lo & hi & Hlo & Hhi & Hle & _).
  - by vm_compute.
  - lia.
  - intros j1 j2 Hj. simpl in Hj.
    destruct j1 as [|[|j1]], j2 as [|[|j2]]; try lia; by vm_compute.
  - intros j Hj. simpl in Hj.
    destruct j as [|[|j]]; try lia; by vm_compute.
  - exists lo, hi. split; [exact Hlo|]. split; [exact Hhi|exact Hle].
Defined.

Lemma cell_summary_names_own_file_witness :
  ∃ r c, run (toy_run ieee) = Some r
    ∧ sort_cells (r_cells r) !! 1%nat = Some c
    ∧ id c = 2%nat
    ∧ @cell_summary toy_env toy_files (r_cells r) !! 2%nat
      = Some (@summary_row toy_env toy_files c)
    ∧ @summary_row toy_env toy_files c !! 1%nat = Some "c".
Proof.
  eexists _, _. evaluated Hr. evaluated Hc. evaluated Hid.
  match type of Hc with
  | sort_cells (r_cells ?r) !! _ = Some ?c =>
      destruct (@cell_summary_names_own_file toy_env ieee (toy_conf toy_files)
                  r 1%nat c toy_count_keeps_id)
        as (i & file & c0 & cnt & c1 & _ & _ & _ & Hrow & _);
        [vm_compute; reflexivity..|]
  end.
  split; [exact Hrow|by vm_compute].
Defined.

Lemma table_names_cell_by_position_witness :
  ∃ r c cnt cc, run (toy_run ieee) = Some r
    ∧ r_cells r !! 1%nat = Some c
    ∧ r_counts r !! 1%nat = Some cnt
    ∧ cnt !! 0%nat = Some cc
    ∧ id c = 2%nat
    ∧ toy_files !! 2%nat = Some "dir/c.bam"
    ∧ r_table r !! 13%nat
      = Some ["chr1"; "0"; "100"; "S1"; "b"; "5"; "6"; "WC"]
    ∧ ∃ file c0 cnt0 c1,
        r_table r !! S (sum_list (length <$> take 1 (r_counts r)) + 0)
        = Some [ "chr1";
                 pretty (start (r_bins r !!! 0%nat));
                 pretty (end_ (r_bins r !!! 0%nat));
                 sample_name c;
                 path_stem (toy_files !!! 1%nat);
                 pretty (crick_count cc);
                 pretty (watson_count cc);
                 label cc ]
        ∧ toy_files !! id c = Some file
        ∧ toy_count_sorted_reads file (r_bins r) (r_chrom_map r) 10 [] c0
          = (true, cnt0, c1)
        ∧ r_counted r !! 1%nat = Some cnt0.
Proof.
  eexists _, _, _, _.
  evaluated Hr. evaluated Hc. evaluated Hcnt. evaluated Hcc. evaluated Hid.
  evaluated Hfile. evaluated Hrow.
  match type of Hc with
  | r_cells ?r !! _ = Some ?c =>
      match type of Hcc with
      | ?cnt !! _ = Some ?cc =>
          destruct (@table_names_cell_by_position toy_env ieee
                      (toy_conf toy_files) r 1%nat 0%nat c cnt cc
                      toy_count_keeps_id)
            as (file & c0 & cnt0 & c1 & h & Htable & Hf & Hcall & _ & Hcnt0 & _);
            [vm_compute; reflexivity..|]
      end
  end.
  exists file, c0, cnt0, c1.
  split; [exact Htable|]. split; [exact Hf|]. split; [exact Hcall|exact Hcnt0].
Defined.

Lemma files_are_kept_or_warned_witness :
  ∃ r, run (toy_run ieee) = Some r
       ∧ length (r_cells r) = 2%nat
       ∧ length (r_log r) = 1%nat
       ∧ (length (r_cells r) + length (r_log r) = length toy_files)%nat.
Proof.
  eexists. evaluated Hr. evaluated Hcells. evaluated Hlog.
  match type of Hr with
  | _ = Some ?r =>
      destruct (@files_are_kept_or_warned toy_env ieee (toy_conf toy_files) r)
        as [Hsum _]; [vm_compute; reflexivity|]
  end.
  exact Hsum.
Defined.

Lemma nb_size_sign_witness :
  Qc_of_Z 42 ≠ 1
  ∧ @nb_size exact_arithmetic 10 (Fin (Qc_of_Z 42))
    = Fin (Qc_of_N 10 / Qc_of_N 2 * Qc_of_Z 42 / (1 - Qc_of_Z 42))
  ∧ Qc_of_N 10 / Qc_of_N 2 * Qc_of_Z 42 / (1 - Qc_of_Z 42) < 0.
Proof.
  assert (Hx : Qc_of_Z 42 ≠ 1) by compute_done.
  split; [exact Hx|].
  destruct (nb_size_sign 10 (Qc_of_Z 42) Hx) as (Heq & _ & Hneg).
  split; [exact Heq|].
  apply Hneg; [compute_done|lia].
Defined.
